(** * MersenneManager: work-cache refill and result submission

    A shallow embedding of the two managers of the repository,
    [TFmanager/main.go] (trial factoring, module [TF]) and the clLucas
    manager (Lucas-Lehmer, module [LL]), together with the properties of
    their reconciliation, chunking, refill and polling code.

    Conventions.
    - A Go [[]byte] (and a Go [string]) is a [list byte].
    - A Go [int] is a [Z]; lengths never approach 2^63, so wrap-around
      is written out only where [int] and [uint] are converted or
      subtracted ([setTargets], [topoff]).
    - The regular expressions of the source are compiled by Go's [regexp]
      package (leftmost-first matching, [.] does not match a newline);
      each of them is embedded as the matcher it denotes.
    - Files, lock markers, the remote service and the log are explicit
      state ([World]); the outcome of every operation that the operating
      system or the network decides is read from an environment ([Env]). *)

From Stdlib Require Import ZArith Strings.Byte String DecimalString.
From stdpp Require Import base list gmap countable.

Local Open Scope Z_scope.

(** ** Bytes *)

Abbreviation bytes := (list byte).

#[global] Instance byte_eq_dec : EqDecision byte := Byte.byte_eq_dec.

#[global] Instance byte_countable : Countable byte :=
  inj_countable Byte.to_N Byte.of_N Byte.of_to_N.

(** [[]byte("...")] for a string literal of the source. *)
Definition B (s : string) : bytes := list_byte_of_string s.

Definition nl : byte := x0a.  (* '\n' *)
Definition cr : byte := x0d.  (* '\r' *)
Definition sp : byte := x20.  (* ' '  *)
Definition comma : byte := x2c.  (* ',' *)
Definition letterM : byte := x4d.  (* 'M' *)

(** [[0-9]] *)
Definition isDigit (c : byte) : bool :=
  (48 <=? Z.of_N (Byte.to_N c)) && (Z.of_N (Byte.to_N c) <=? 57).

(** ** Go built-ins and package [bytes] *)

Definition len {A} (s : list A) : Z := Z.of_nat (length s).

(** [s[lo:hi]] and [s[lo:]]; every use in the source is guarded so that
    the bounds are in range. *)
Definition slice {A} (s : list A) (lo hi : Z) : list A :=
  take (Z.to_nat (hi - lo)) (drop (Z.to_nat lo) s).

Definition slice_from {A} (s : list A) (lo : Z) : list A :=
  drop (Z.to_nat lo) s.

Fixpoint HasPrefix (s prefix : bytes) : bool :=
  match prefix, s with
  | [], _ => true
  | _ :: _, [] => false
  | p :: prefix', x :: s' => Byte.eqb x p && HasPrefix s' prefix'
  end.

(** [bytes.Contains(b, subslice)] *)
Fixpoint Contains (b subslice : bytes) : bool :=
  HasPrefix b subslice ||
  match b with
  | [] => false
  | _ :: b' => Contains b' subslice
  end.

(** [bytes.LastIndexByte(s, c)]: index of the last [c] in [s], or -1. *)
Fixpoint LastIndexByte (s : bytes) (c : byte) : Z :=
  match s with
  | [] => -1
  | x :: s' =>
      let r := LastIndexByte s' c in
      if 0 <=? r then r + 1
      else if Byte.eqb x c then 0 else -1
  end.

(** [bytes.LastIndex(s, sep)]: index of the last occurrence of [sep] in
    [s], or -1. *)
Fixpoint LastIndex (s sep : bytes) : Z :=
  match s with
  | [] => if HasPrefix [] sep then 0 else -1
  | _ :: s' =>
      let r := LastIndex s' sep in
      if 0 <=? r then r + 1
      else if HasPrefix s sep then 0 else -1
  end.

(** [bytes.Join(s, sep)] *)
Fixpoint Join (s : list bytes) (sep : bytes) : bytes :=
  match s with
  | [] => []
  | [x] => x
  | x :: s' => x ++ sep ++ Join s' sep
  end.

Definition inCutset (c : byte) (cutset : bytes) : bool :=
  existsb (Byte.eqb c) cutset.

(** [bytes.TrimRight(s, cutset)]: [s] without its longest suffix made of
    bytes of [cutset]. *)
Fixpoint TrimRight (s cutset : bytes) : bytes :=
  match s with
  | [] => []
  | x :: s' =>
      match TrimRight s' cutset with
      | [] => if inCutset x cutset then [] else [x]
      | t => x :: t
      end
  end.

(** [bytes.Replace(s, []byte{old}, []byte{new}, -1)] for one-byte
    patterns, the only use in the source ("\r" by "\n"). *)
Definition Replace1 (s : bytes) (old new : byte) : bytes :=
  map (fun x => if Byte.eqb x old then new else x) s.

(** [copy(dst, src)]: the contents of [dst] afterwards. *)
Definition copy (dst src : bytes) : bytes :=
  take (length dst) src ++ drop (length src) dst.

(** ** The regular expressions of the source *)

(** The text split at every newline; regular expressions of the source
    never match across a newline. *)
Fixpoint lines (b : bytes) : list bytes :=
  match b with
  | [] => [[]]
  | x :: b' =>
      if Byte.eqb x nl then [] :: lines b'
      else match lines b' with
           | l :: ls => (x :: l) :: ls
           | [] => [[x]]
           end
  end.

(** The longest prefix of decimal digits: a greedy [[0-9]*]. *)
Fixpoint leadingDigits (b : bytes) : bytes :=
  match b with
  | x :: b' => if isDigit x then x :: leadingDigits b' else []
  | [] => []
  end.

Definition nonEmpty {A} (l : list A) : bool :=
  match l with [] => false | _ :: _ => true end.

(** [resultExtract = M([0-9]+)]: [Find] returns the leftmost 'M' that is
    followed by a digit, with all the digits after it; [None] is Go's
    [nil] (no match). *)
Fixpoint resultExtract_Find (b : bytes) : option bytes :=
  match b with
  | [] => None
  | x :: b' =>
      if Byte.eqb x letterM && nonEmpty (leadingDigits b')
      then Some (x :: leadingDigits b')
      else resultExtract_Find b'
  end.

(** ** Files, the remote service and the log *)

(** The files of one device profile ([fileSt]): worktodo.txt,
    results.txt and the ledger (results_sent.txt for TFmanager,
    result_sent.txt for the clLucas manager). [getFiles] derives them
    from the work directory, so they are three different paths. *)
Inductive fname := Todo | Res | Sent.

#[global] Instance fname_eq_dec : EqDecision fname.
Proof. solve_decision. Defined.

(** What an HTTP call gives back: [err != nil] from the client, an error
    from [ioutil.ReadAll] on the body, or the body. *)
Inductive http_reply :=
  | ConnError
  | ReadError
  | Body (body : bytes).

(** The lines written with [log.Println] / [log.Printf]. *)
Inductive log_event :=
  | LogLockFailed
  | LogOpenError (f : fname)
  | LogReadError (f : fname)
  | LogResults (total sending : Z)
  | LogLocError (loc i rest : Z)
  | LogSendBatchFailed (i loc : Z) (chunk : bytes)
  | LogSentWriteError
  | LogKeptWriteError (n total : Z)
  | LogConnError
  | LogBodyReadError
  | LogGetwork (n : Z)
  | LogNoNewWork
  | LogTodoWriteError (workFile : bytes).

#[global] Instance log_event_eq_dec : EqDecision log_event.
Proof. solve_decision. Defined.

(** The state the managers act on. [file f = None] when the file does not
    exist; [lck f] tells whether the marker [<path>.lck] exists;
    [posted] are the payloads sent to manual_result/default.php, oldest
    first, and [acked] those among them that the service acknowledged. *)
Record World := mkWorld {
  file : fname -> option bytes;
  lck : fname -> bool;
  posted : list bytes;
  acked : list bytes;
  logged : list log_event
}.

(** What the operating system and the network decide.
    - [remote earlier payload]: the reply to a POST of [payload] to
      manual_result/default.php after the POSTs [earlier];
    - [open_err f], [read_err f]: [os.OpenFile] / [ioutil.ReadAll] on [f]
      fails for a reason other than a missing file;
    - [mark_err f]: [os.OpenFile] on the marker of [f] fails although
      the marker does not exist (a directory that is missing or cannot
      be written, say), at each of the five attempts;
    - [unmark_err f]: [os.Remove] on the marker of [f] fails although
      the marker exists, at each of the five attempts;
    - [sent_Write ledger p], [res_WriteAt old p], [todo_WriteAt p]: the
      byte count [n] and the error flag that the write of [p] returns;
    - [sent_reach ledger p], [res_reach old p], [todo_reach p]: how many
      bytes of [p] are in the file after a write that does not return
      [len(p)] and [nil]; this number need not be the [n] that the write
      returns;
    - [gpu72_fetch n], [primenet_fetch n]: the reply to a request for [n]
      assignments. *)
Record Env := mkEnv {
  remote : list bytes -> bytes -> http_reply;
  open_err : fname -> bool;
  read_err : fname -> bool;
  mark_err : fname -> bool;
  unmark_err : fname -> bool;
  sent_Write : bytes -> bytes -> nat * bool;
  res_WriteAt : bytes -> bytes -> nat * bool;
  todo_WriteAt : bytes -> nat * bool;
  sent_reach : bytes -> bytes -> nat;
  res_reach : bytes -> bytes -> nat;
  todo_reach : bytes -> nat;
  gpu72_fetch : Z -> http_reply;
  primenet_fetch : Z -> http_reply
}.

Definition setFile (w : World) (f : fname) (c : bytes) : World :=
  mkWorld (fun x => if decide (x = f) then Some c else file w x)
          (lck w) (posted w) (acked w) (logged w).

Definition setLck (w : World) (f : fname) (b : bool) : World :=
  mkWorld (file w) (fun x => if decide (x = f) then b else lck w x)
          (posted w) (acked w) (logged w).

Definition addLog (w : World) (ev : log_event) : World :=
  mkWorld (file w) (lck w) (posted w) (acked w) (logged w ++ [ev]).

Definition content (w : World) (f : fname) : bytes := default [] (file w f).

(** [os.OpenFile] with [O_CREATE]: a missing file is created empty. *)
Definition create (w : World) (f : fname) : World :=
  match file w f with
  | Some _ => w
  | None => setFile w f []
  end.

(** [unlockFile]: the marker of every name is removed. An [os.Remove]
    that fails is tried five times and then given up, without a word:
    the marker stays. *)
Definition unlockFile (e : Env) (w : World) (fnames : list fname) : World :=
  fold_left (fun w f => if unmark_err e f then w else setLck w f false) fnames w.

(** [lockFile]: one marker per name, created exclusively. No other
    process runs between the five attempts of the retry loop, so a marker
    that exists at the first attempt exists at all of them; [held] are
    the names locked so far ([fnames[:j]]). *)
Fixpoint lockFile_from (e : Env) (w : World) (held fnames : list fname)
    : bool * World :=
  match fnames with
  | [] => (true, w)
  | f :: rest =>
      if lck w f || mark_err e f then (false, unlockFile e w held)
      else lockFile_from e (setLck w f true) (held ++ [f]) rest
  end.

Definition lockFile (e : Env) (w : World) (fnames : list fname) : bool * World :=
  lockFile_from e w [] fnames.

(** The first [k] bytes of [p]: what a write leaves in the file. *)
Definition written (k : nat) (p : bytes) : bytes := take k p.

(** How many bytes of [p] are in the file after a write that returns
    [(n, err)]: all of them when the write returns [len(p)] and [nil],
    and [reach] of them otherwise. *)
Definition reached (p : bytes) (n : nat) (err : bool) (reach : nat) : nat :=
  if (n =? length p)%nat && negb err then length p else Nat.min reach (length p).

(** [sent.Write(p)] on the ledger, opened with [O_APPEND]. *)
Definition sentWrite (e : Env) (w : World) (p : bytes) : (Z * bool) * World :=
  let '(n, err) := sent_Write e (content w Sent) p in
  let n := Nat.min n (length p) in
  let k := reached p n err (sent_reach e (content w Sent) p) in
  ((Z.of_nat n, err), setFile w Sent (content w Sent ++ written k p)).

(** [f.WriteAt(p, 0)]: the first [k] bytes of the file are overwritten. *)
Definition overwrite (old p : bytes) (k : nat) : bytes :=
  written k p ++ drop k old.

(** [sendbatch]: the batch is accepted when the reply holds
    "processing:". The URL parsed there is a constant, so the
    [log.Fatal] after it is never reached. *)
Definition sendbatch (e : Env) (w : World) (batch : bytes) : bool * World :=
  let w1 := mkWorld (file w) (lck w) (posted w ++ [batch]) (acked w) (logged w) in
  match remote e (posted w) batch with
  | ConnError => (false, addLog w1 LogConnError)
  | ReadError => (false, addLog w1 LogBodyReadError)
  | Body body =>
      if Contains body (B "processing:")
      then (true, mkWorld (file w1) (lck w1) (posted w1) (acked w1 ++ [batch]) (logged w1))
      else (false, w1)
  end.

(** ** The chunking loop of [sendResults]

    Both managers have the same loop:
    [for i := 0; i < len(results)-1; i += loc { ... }].
    [limit] stands for the constant [sendlimit], so that the loop can
    also be run with a small ceiling. *)

(** mersenne.org/manual_result limit is 2MB; leave a 1K buffer. *)
Definition sendlimit : Z := 2 * 1024 * 1024 - 1024.

Inductive failure := LocError | SendFailed | LedgerWriteFailed.

Inductive step_result :=
  | Stop                          (* the loop condition is false *)
  | Next (w : World) (i : Z)      (* the chunk went out; next offset *)
  | Fail (why : failure) (w : World).   (* [return false] *)

(** One iteration at offset [i]. *)
Definition loop_step (limit : Z) (e : Env) (w : World) (results : bytes) (i : Z)
    : step_result :=
  if i <? len results - 1 then
    let loc :=
      if len (slice_from results i) >? limit
      then LastIndexByte (slice results i (i + limit)) nl + 1
      else len (slice_from results i) in
    if loc <=? 0 then
      Fail LocError (addLog w (LogLocError loc i (len (slice_from results i))))
    else
      let chunk := slice results i (i + loc) in
      let '(ok, w1) := sendbatch e w chunk in
      if negb ok then Fail SendFailed (addLog w1 (LogSendBatchFailed i loc chunk))
      else
        let '((n, err), w2) := sentWrite e w1 chunk in
        if err || negb (n =? len chunk)
        then Fail LedgerWriteFailed (addLog w2 LogSentWriteError)
        else Next w2 (i + loc)
  else Stop.

Inductive loop_result :=
  | LoopDone
  | LoopFailed (why : failure)
  | LoopFuel.

(** The loop; every iteration moves [i] forward by at least one byte, so
    [S (length results)] iterations are enough (see
    [sendLoop_enough_fuel]). *)
Fixpoint sendLoop (limit : Z) (fuel : nat) (e : Env) (w : World)
    (results : bytes) (i : Z) : loop_result * World :=
  match fuel with
  | O => (LoopFuel, w)
  | S fuel' =>
      match loop_step limit e w results i with
      | Stop => (LoopDone, w)
      | Fail why w' => (LoopFailed why, w')
      | Next w' i' => sendLoop limit fuel' e w' results i'
      end
  end.

(** The loop states that a run goes through. *)
Inductive iterates (limit : Z) (e : Env) (results : bytes)
    : World -> Z -> World -> Z -> Prop :=
  | iterates_here w i : iterates limit e results w i w i
  | iterates_next w i w1 i1 w2 i2 :
      loop_step limit e w results i = Next w1 i1 ->
      iterates limit e results w1 i1 w2 i2 ->
      iterates limit e results w i w2 i2.

(** [bytes.TrimRight(bytes.Join(send, "\n"), " \n")] *)
Definition blobOf (send : list bytes) : bytes :=
  TrimRight (Join send [nl]) [sp; nl].

(** How a call ends: it returns, it panics, or the model ran out of fuel
    (which does not happen, see [sendLoop_enough_fuel]). *)
Inductive outcome :=
  | Return (success : bool)
  | Panic
  | OutOfFuel.

(** How far a call of [sendResults] gets before the chunking loop:
    either it ends there ([Abort], after [unlockFile]), or the
    records are classified and the loop starts ([Ready], with the locks
    held). *)
Inductive prepared :=
  | Abort (o : outcome) (w : World)
  | Ready (w : World) (keep send : list bytes).

Definition isSome {A} (o : option A) : bool :=
  match o with Some _ => true | None => false end.

(** [uint(v)] for an [int] and [int(v)] for a [uint], 64 bits. *)
Definition uint_of_int (v : Z) : Z := v mod 2 ^ 64.
Definition int_of_uint (v : Z) : Z := if v <? 2 ^ 63 then v else v - 2 ^ 64.

(** [fmt.Sprint(v)] for a [uint]: decimal digits. *)
Definition Sprint (v : Z) : bytes :=
  list_byte_of_string (DecimalString.NilZero.string_of_uint (N.to_uint (Z.to_N v))).

Definition digitVal (c : byte) : Z := Z.of_N (Byte.to_N c) - 48.

(** [strconv.Atoi(s)] with the error dropped ([val, _ := ...]): 0 on a
    syntax error, the nearest bound of [int] on a range error. *)
Definition Atoi (s : bytes) : Z :=
  let '(neg, ds) :=
    match s with
    | x :: s' =>
        if Byte.eqb x x2b then (false, s')
        else if Byte.eqb x x2d then (true, s')
        else (false, s)
    | [] => (false, [])
    end in
  if nonEmpty ds && forallb isDigit ds then
    let n := fold_left (fun a c => a * 10 + digitVal c) ds 0 in
    if neg then (if n >? 2 ^ 63 then - 2 ^ 63 else - n)
    else (if n >? 2 ^ 63 - 1 then 2 ^ 63 - 1 else n)
  else 0.

(** The fields of [device] and [settings] that the code below reads. *)
Record device := mkDevice {
  Cache : Z;    (* Assignments, a uint *)
  Target : Z    (* TargetExponent, a uint *)
}.

Record settings := mkSettings {
  gpu72 : bool;
  primenet : bool;
  Polltime : Z
}.

(** How the process ends: [main] returns, or [log.Fatal] exits with
    status 1. *)
Inductive exit := ExitNormal | ExitFatal.

(** What one pass of the polling loop meets: the result of [login()] and,
    for every device in order, the results of [topoff] and of
    [sendResults]. *)
Record cycle := mkCycle {
  login_ok : bool;
  updates : list (bool * bool)
}.

(** [topoff(dev) && sendResults(dev)] *)
Definition update_ok (u : bool * bool) : bool := fst u && snd u.

(** * TFmanager *)
Module TF.

(** [resultReg = .*M([0-9]+) .*]: does the line hold an 'M', at least
    one digit and a space in a row? *)
Fixpoint resultReg_Match (line : bytes) : bool :=
  match line with
  | [] => false
  | x :: l' =>
      (Byte.eqb x letterM
       && nonEmpty (leadingDigits l')
       && HasPrefix (drop (length (leadingDigits l')) l') [sp])
      || resultReg_Match l'
  end.

(** [resultReg.FindAll(curr, -1)]: both [.*] are greedy and stop at
    newlines, so a match is a whole line, and the lines that match are
    returned in order. *)
Definition resultReg_FindAll (curr : bytes) : list bytes :=
  List.filter resultReg_Match (lines curr).

(** [filterResults]; [asgns] is the Go map from the matched text to 1
    (keep) or 2 (send). [None] is the run-time panic of [asgn[1:]] on a
    record without a match, where [asgn] is [nil]. *)
Fixpoint filterResults_loop (results : list bytes) (todo : bytes)
    (asgns : gmap bytes Z) (keep send : list bytes)
    : option (list bytes * list bytes) :=
  match results with
  | [] => Some (keep, send)
  | r :: rest =>
      let asgn := resultExtract_Find r in
      match asgns !! default [] asgn with
      | Some loc =>
          if loc =? 1 then filterResults_loop rest todo asgns (keep ++ [r]) send
          else if loc =? 2 then filterResults_loop rest todo asgns keep (send ++ [r])
          else filterResults_loop rest todo asgns keep send
      | None =>
          match asgn with
          | None => None
          | Some a =>
              if Contains todo (drop 1 a)
              then filterResults_loop rest todo (<[a := 1]> asgns) (keep ++ [r]) send
              else filterResults_loop rest todo (<[a := 2]> asgns) keep (send ++ [r])
          end
      end
  end.

Definition filterResults (results : list bytes) (todo : bytes)
    : option (list bytes * list bytes) :=
  filterResults_loop results todo ∅ [] [].

(** The key of a record, [asgn[1:]], and whether the queue text holds
    it. *)
Definition key (r : bytes) : option bytes := drop 1 <$> resultExtract_Find r.

Definition inQueue (todo r : bytes) : bool :=
  match key r with
  | Some k => Contains todo k
  | None => false
  end.

(** [sendResults] from the locks to the classification. *)
Definition opened (e : Env) (w : World) : prepared :=
  if open_err e Todo || negb (isSome (file w Todo))
  then Abort (Return false) (addLog w (LogOpenError Todo))
  else if open_err e Res then Abort (Return false) (addLog w (LogOpenError Res))
  else
    let w := create w Res in
    if open_err e Sent then Abort (Return false) (addLog w (LogOpenError Sent))
    else
      let w := create w Sent in
      if read_err e Todo then Abort (Return false) (addLog w (LogReadError Todo))
      else
        let asgn := Replace1 (content w Todo) cr nl in
        if read_err e Res then Abort (Return false) (addLog w (LogReadError Res))
        else
          let curr := Replace1 (content w Res) cr nl in
          let curRes := resultReg_FindAll curr in
          if nonEmpty curRes then
            match filterResults curRes asgn with
            | None => Abort Panic w
            | Some (keep, send) =>
                Ready (addLog w (LogResults (len keep + len send) (len send)))
                      keep send
            end
          else Abort (Return true) w.

Definition locks : list fname := [Res; Sent; Todo].

Definition prepare (e : Env) (w : World) : prepared :=
  match lockFile e w locks with
  | (false, w1) => Abort (Return false) (addLog w1 LogLockFailed)
  | (true, w1) =>
      match opened e w1 with
      | Abort o w2 => Abort o (unlockFile e w2 locks)
      | Ready w2 keep send => Ready w2 keep send
      end
  end.

(** [sendResults] after the loop: the newline on the ledger, then the
    rewrite of the results file with the kept records. *)
Definition finish (e : Env) (w : World) (keep send : list bytes) : outcome * World :=
  let w := if 0 <? len send then snd (sentWrite e w [nl]) else w in
  let keepRes := Join keep [nl] ++ [nl] in
  let '(n, err) := res_WriteAt e (content w Res) keepRes in
  let n := Nat.min n (length keepRes) in
  let k := reached keepRes n err (res_reach e (content w Res) keepRes) in
  let w := setFile w Res (overwrite (content w Res) keepRes k) in
  if (Z.of_nat n =? len keepRes) && negb err
  then (Return true, setFile w Res (take n (content w Res)))
  else (Return true, addLog w (LogKeptWriteError (Z.of_nat n) (len keepRes))).

Definition sendResults_with (limit : Z) (e : Env) (w : World) : outcome * World :=
  match prepare e w with
  | Abort o w1 => (o, w1)
  | Ready w1 keep send =>
      let results := blobOf send in
      let '(o, w2) :=
        match sendLoop limit (S (length results)) e w1 results 0 with
        | (LoopFailed _, w2) => (Return false, w2)
        | (LoopFuel, w2) => (OutOfFuel, w2)
        | (LoopDone, w2) => finish e w2 keep send
        end in
      (o, unlockFile e w2 locks)
  end.

Definition sendResults : Env -> World -> outcome * World :=
  sendResults_with sendlimit.

(** [workReg = (Factor)=.*(,[0-9]+){3}] *)

(** [,[0-9]+] at the head of [l]: the length of the match. *)
Definition commaDigits (l : bytes) : option nat :=
  match l with
  | x :: l' =>
      if Byte.eqb x comma && nonEmpty (leadingDigits l')
      then Some (S (length (leadingDigits l')))
      else None
  | [] => None
  end.

(** [(,[0-9]+){3}] at the head of [l]: the length of the match. *)
Definition triple (l : bytes) : option nat :=
  n1 ← commaDigits l;
  n2 ← commaDigits (drop n1 l);
  n3 ← commaDigits (drop (n1 + n2)%nat l);
  Some (n1 + n2 + n3)%nat.

(** The greedy [.*] leaves the three fields that start latest in the
    line: the end of that match, counted from the head of [l]. *)
Fixpoint lastTriple (l : bytes) : option nat :=
  match l with
  | [] => None
  | _ :: l' =>
      match lastTriple l' with
      | Some n => Some (S n)
      | None => triple l
      end
  end.

(** The matches in one line, from left to right; a match ends with its
    third field, and the search goes on behind it. *)
Fixpoint workReg_line (fuel : nat) (line : bytes) : list bytes :=
  match fuel, line with
  | S fuel', _ :: l' =>
      if HasPrefix line (B "Factor=") then
        match lastTriple (drop 7 line) with
        | Some n => take (7 + n) line :: workReg_line fuel' (drop (7 + n) line)
        | None => []
        end
      else workReg_line fuel' l'
  | _, _ => []
  end.

(** [workReg.FindAll(b, -1)] *)
Definition workReg_FindAll (b : bytes) : list bytes :=
  concat (map (fun l => workReg_line (length l) l) (lines b)).

(** [setTargets], one record. *)
Definition setTarget (dev : device) (r : bytes) : bytes :=
  let target := Sprint (Target dev) in
  let idx := LastIndex r [comma] in
  let val := Atoi (slice_from r (idx + 1)) in
  if uint_of_int val <? Target dev
  then slice r 0 (idx + 1) ++ copy (slice_from r (idx + 1)) target
  else r.

Definition setTargets (dev : device) (wrk : list bytes) : list bytes :=
  map (setTarget dev) wrk.

(** The value that the last comma-separated field of a record reads as. *)
Definition lastField (r : bytes) : bytes := slice_from r (LastIndex r [comma] + 1).

(** The [filterDups] loop of [getWorkGPU72]. *)
Fixpoint filterDups (w w2 : list bytes) : list bytes :=
  match w with
  | [] => w2
  | x :: w' =>
      if existsb (fun y => bool_decide (x = y)) w2
      then filterDups w' w2
      else filterDups w' (w2 ++ [x])
  end.

(** [getWorkGPU72]; [None] is a [nil] slice. The result of the
    [make]-and-[append] loop is never [nil]. *)
Definition getWorkGPU72 (e : Env) (w : World) (n : Z) : option (list bytes) * World :=
  match gpu72_fetch e n with
  | ConnError => (None, addLog w LogConnError)
  | ReadError => (None, addLog w LogBodyReadError)
  | Body body => (Some (filterDups (workReg_FindAll body) []), w)
  end.

(** [getWork]; [FindAll] returns [nil] when nothing matches, and
    [setTargets] hands it back. *)
Definition getWork (e : Env) (w : World) (n : Z) (dev : device)
    : option (list bytes) * World :=
  match primenet_fetch e n with
  | ConnError => (None, addLog w LogConnError)
  | ReadError => (None, addLog w LogBodyReadError)
  | Body body =>
      match workReg_FindAll body with
      | [] => (None, w)
      | wrk => (Some (setTargets dev wrk), w)
      end
  end.

(** [topoff] with the lock held. *)
Definition topoff_locked (sett : settings) (e : Env) (dev : device) (w : World)
    : bool * World :=
  if open_err e Todo then (false, addLog w (LogOpenError Todo))
  else
    let w := create w Todo in
    if read_err e Todo then (false, addLog w (LogReadError Todo))
    else
      let curr := Replace1 (content w Todo) cr nl in
      let curWrk := workReg_FindAll curr in
      if len curWrk >=? int_of_uint (Cache dev) then (true, w)
      else
        let n := (Cache dev - len curWrk) mod 2 ^ 64 in
        let w := addLog w (LogGetwork n) in
        let '(work, w) :=
          if gpu72 sett then getWorkGPU72 e w n else (None, w) in
        let '(work, w) :=
          if (len (default [] work) =? 0) && primenet sett
          then getWork e w n dev else (work, w) in
        match work with
        | None => (false, addLog w LogNoNewWork)
        | Some work =>
            let workFile := Join (curWrk ++ work) [nl] in
            let '(n, err) := todo_WriteAt e workFile in
            let n := Nat.min n (length workFile) in
            let k := reached workFile n err (todo_reach e workFile) in
            let w := setFile w Todo (written k workFile) in
            if err || negb (Z.of_nat n =? len workFile)
            then (false, addLog w (LogTodoWriteError workFile))
            else (true, w)
        end.

Definition topoff (sett : settings) (e : Env) (dev : device) (w : World)
    : bool * World :=
  match lockFile e w [Todo] with
  | (false, w1) => (false, addLog w1 LogLockFailed)
  | (true, w1) =>
      let '(ok, w2) := topoff_locked sett e dev w1 in
      (ok, unlockFile e w2 [Todo])
  end.

(** The polling loop of [main], [for ct := 0; ct < 10; ct++]; [true]
    when the loop is left (by [break] or by its condition), [None] when
    the process is still polling after the cycles of [script]. *)
Fixpoint polling (sett : settings) (script : list cycle) (ct : Z) : option bool :=
  if ct <? 10 then
    match script with
    | [] => None
    | c :: rest =>
        if negb (login_ok c) && negb (gpu72 sett)
        then polling sett rest (ct + 1)                (* continue *)
        else if forallb update_ok (updates c) then
          if Polltime sett =? 0 then Some true         (* break *)
          else polling sett rest (-1 + 1)              (* ct = -1; ct++ *)
        else polling sett rest (ct + 1)                (* continue polling *)
    end
  else Some true.

(** [main]: the statement after the loop is
    [log.Fatal("Failed 10 update attempts, exiting.")]. *)
Definition main (writeOpts : bool) (sett : settings) (script : list cycle)
    : option exit :=
  if writeOpts then Some ExitNormal
  else
    match polling sett script 0 with
    | Some _ => Some ExitFatal
    | None => None
    end.

End TF.

(** * The clLucas manager *)
Module LL.

(** [resultReg] matches 'M', '(', a space, any number of digits, a space
    and ')', then the rest of the line. Does the text start with such a
    head? *)
Definition resultReg_head (l : bytes) : bool :=
  HasPrefix l (B "M( ")
  && HasPrefix (drop (length (leadingDigits (drop 3 l))) (drop 3 l)) (B " )").

(** The match in one line: from the leftmost such start to the end of the
    line. *)
Fixpoint resultReg_Find (line : bytes) : option bytes :=
  match line with
  | [] => None
  | _ :: l' => if resultReg_head line then Some line else resultReg_Find l'
  end.

(** [resultReg.FindAll(curr, -1)] *)
Definition resultReg_FindAll (curr : bytes) : list bytes :=
  omap resultReg_Find (lines curr).

(** The fields of the clLucas manager's [device] that the code below
    reads. *)
Record device := mkDevice {
  Cache : Z;      (* Assignments, a uint *)
  WorkType : Z    (* WorkType, a uint: 100, 101 or 102 *)
}.

(** [workReg]: "DoubleCheck" or "Test", then '=', any text and three
    comma-separated numbers. The alternatives are tried in this order at
    every position; the three numbers are found as in TFmanager's
    [workReg]. *)
Definition workReg_head (line : bytes) : option nat :=
  if HasPrefix line (B "DoubleCheck=") then Some 12%nat
  else if HasPrefix line (B "Test=") then Some 5%nat
  else None.

(** The matches in one line, from left to right. *)
Fixpoint workReg_line (fuel : nat) (line : bytes) : list bytes :=
  match fuel, line with
  | S fuel', _ :: l' =>
      match workReg_head line with
      | Some h =>
          match TF.lastTriple (drop h line) with
          | Some n => take (h + n) line :: workReg_line fuel' (drop (h + n) line)
          | None => []
          end
      | None => workReg_line fuel' l'
      end
  | _, _ => []
  end.

(** [workReg.FindAll(b, -1)] *)
Definition workReg_FindAll (b : bytes) : list bytes :=
  concat (map (fun l => workReg_line (length l) l) (lines b)).

(** [getWork]; [workType] goes into the request, and [primenet_fetch]
    is the reply to that request. [None] is the [nil] that [FindAll]
    returns when nothing matches. *)
Definition getWork (e : Env) (w : World) (n workType : Z)
    : option (list bytes) * World :=
  let w := addLog w (LogGetwork n) in
  match primenet_fetch e n with
  | ConnError => (None, addLog w LogConnError)
  | ReadError => (None, addLog w LogBodyReadError)
  | Body body =>
      match workReg_FindAll body with
      | [] => (None, w)
      | wrk => (Some wrk, w)
      end
  end.

(** [topoff] with the lock held. [todo.Truncate(0)], whose result the
    code does not look at, empties the file before the write. *)
Definition topoff_locked (e : Env) (dev : device) (w : World) : bool * World :=
  if open_err e Todo then (false, addLog w (LogOpenError Todo))
  else
    let w := create w Todo in
    if read_err e Todo then (false, addLog w (LogReadError Todo))
    else
      let curr := Replace1 (content w Todo) cr nl in
      let curWrk := workReg_FindAll curr in
      if len curWrk >=? int_of_uint (Cache dev) then (true, w)
      else
        let '(work, w) :=
          getWork e w ((Cache dev - len curWrk) mod 2 ^ 64) (WorkType dev) in
        match work with
        | None => (false, addLog w LogNoNewWork)
        | Some work =>
            let workFile := Join (curWrk ++ work) [nl] in
            let '(n, err) := todo_WriteAt e workFile in
            let n := Nat.min n (length workFile) in
            let k := reached workFile n err (todo_reach e workFile) in
            let w := setFile w Todo (written k workFile) in
            if err || negb (Z.of_nat n =? len workFile)
            then (false, addLog w (LogTodoWriteError workFile))
            else (true, w)
        end.

Definition topoff (e : Env) (dev : device) (w : World) : bool * World :=
  match lockFile e w [Todo] with
  | (false, w1) => (false, addLog w1 LogLockFailed)
  | (true, w1) =>
      let '(ok, w2) := topoff_locked e dev w1 in
      (ok, unlockFile e w2 [Todo])
  end.

Definition locks : list fname := [Res; Sent].

(** [sendResults] from the locks to the records; the results file is
    read before the ledger is opened, and a failed open of the results
    file is only logged: the read that follows fails on the [nil] file. *)
Definition opened (e : Env) (w : World) : prepared :=
  if open_err e Res
  then Abort (Return false) (addLog (addLog w (LogOpenError Res)) (LogReadError Res))
  else
    let w := create w Res in
    if read_err e Res then Abort (Return false) (addLog w (LogReadError Res))
    else
      let curr := Replace1 (content w Res) cr nl in
      if open_err e Sent then Abort (Return false) (addLog w (LogOpenError Sent))
      else
        let w := create w Sent in
        let curRes := resultReg_FindAll curr in
        if nonEmpty curRes then Ready w [] curRes
        else Abort (Return true) w.

Definition prepare (e : Env) (w : World) : prepared :=
  match lockFile e w locks with
  | (false, w1) => Abort (Return false) (addLog w1 LogLockFailed)
  | (true, w1) =>
      match opened e w1 with
      | Abort o w2 => Abort o (unlockFile e w2 locks)
      | Ready w2 keep send => Ready w2 keep send
      end
  end.

(** After the loop: "All results sent successfully, clear results
    file". *)
Definition finish (e : Env) (w : World) : outcome * World :=
  let w := snd (sentWrite e w [nl]) in
  (Return true, setFile w Res []).

Definition sendResults_with (limit : Z) (e : Env) (w : World) : outcome * World :=
  match prepare e w with
  | Abort o w1 => (o, w1)
  | Ready w1 _ curRes =>
      let results := blobOf curRes in
      let '(o, w2) :=
        match sendLoop limit (S (length results)) e w1 results 0 with
        | (LoopFailed _, w2) => (Return false, w2)
        | (LoopFuel, w2) => (OutOfFuel, w2)
        | (LoopDone, w2) => finish e w2
        end in
      (o, unlockFile e w2 locks)
  end.

Definition sendResults : Env -> World -> outcome * World :=
  sendResults_with sendlimit.

(** The polling loop of [main], [for { ... }]: [Some true] at the
    [break], [None] when the process is still polling after the cycles of
    [script]. *)
Fixpoint polling (sett : settings) (script : list cycle) : option bool :=
  match script with
  | [] => None
  | c :: rest =>
      if negb (login_ok c) then polling sett rest
      else if forallb update_ok (updates c) then
        if Polltime sett =? 0 then Some true
        else polling sett rest
      else polling sett rest
  end.

(** [main] ends after the loop. *)
Definition main (writeOpts : bool) (sett : settings) (script : list cycle)
    : option exit :=
  if writeOpts then Some ExitNormal
  else
    match polling sett script with
    | Some _ => Some ExitNormal
    | None => None
    end.

End LL.

(** ** Notions used in the statements *)

(** A record of either manager's results file: one line, with two bytes
    in a row that [TrimRight] leaves alone ('M' and a digit, or 'M' and
    '('). *)
Definition solid (r : bytes) : Prop :=
  exists pre x y post,
    r = pre ++ x :: y :: post /\ inCutset x [sp; nl] = false
    /\ inCutset y [sp; nl] = false.

Definition isRecord (r : bytes) : Prop := (nl ∉ r) /\ solid r.

(** No chunk boundary can leave a single last byte behind: the byte
    before the last one is not a newline. *)
Definition wellEnded (blob : bytes) : Prop :=
  blob = [] \/ exists pre a b, blob = pre ++ [a; b] /\ a <> nl.

(** An environment in which nothing fails. *)
Definition okEnv : Env :=
  mkEnv (fun _ _ => Body (B "Found 1 lines to processing:"))
        (fun _ => false) (fun _ => false)
        (fun _ => false) (fun _ => false)
        (fun _ p => (length p, false))
        (fun _ p => (length p, false))
        (fun p => (length p, false))
        (fun _ _ => 0%nat) (fun _ _ => 0%nat) (fun _ => 0%nat)
        (fun _ => ConnError) (fun _ => ConnError).

Definition world0 (todo res : option bytes) : World :=
  mkWorld (fun f => match f with Todo => todo | Res => res | Sent => None end)
          (fun _ => false) [] [] [].

(** What the loop does to the state when a chunk goes out and is
    written to the ledger. *)
Definition acceptChunk (w : World) (chunk : bytes) : World :=
  setFile (mkWorld (file w) (lck w) (posted w ++ [chunk]) (acked w ++ [chunk])
                   (logged w))
          Sent (content w Sent ++ chunk).

(** Every chunk but the last one ends with a newline. *)
Fixpoint splitsAtNewlines (chunks : list bytes) : Prop :=
  match chunks with
  | [] => True
  | c :: rest =>
      match rest with
      | [] => True
      | _ :: _ => list.last c = Some nl /\ splitsAtNewlines rest
      end
  end.

(** [chunked limit rest chunks left]: [rest] is cut into [chunks],
    followed by [left]; no chunk is empty or longer than [limit], and a
    chunk ends with a newline unless nothing is behind it. *)
Inductive chunked (limit : Z) : bytes -> list bytes -> bytes -> Prop :=
  | chunked_nil rest : chunked limit rest [] rest
  | chunked_cons c post chunks left :
      c <> [] -> len c <= limit ->
      post = [] \/ list.last c = Some nl ->
      chunked limit post chunks left ->
      chunked limit (c ++ post) (c :: chunks) left.

(** What the map of [filterResults] holds at every turn of its loop:
    matched texts, each with the class that the queue text gives it. *)
Definition mapOK (todo : bytes) (asgns : gmap bytes Z) : Prop :=
  forall a v, asgns !! a = Some v ->
    a <> [] /\ ((v = 1 /\ Contains todo (drop 1 a) = true)
    \/ (v = 2 /\ Contains todo (drop 1 a) = false)).

(** The two managers, to state what both do. *)
Inductive manager := TFmanager | LLmanager.

Definition prepareOf (m : manager) : Env -> World -> prepared :=
  match m with
  | TFmanager => TF.prepare
  | LLmanager => LL.prepare
  end.

Definition sendResultsWith (m : manager) : Z -> Env -> World -> outcome * World :=
  match m with
  | TFmanager => TF.sendResults_with
  | LLmanager => LL.sendResults_with
  end.

Definition locksOf (m : manager) : list fname :=
  match m with
  | TFmanager => TF.locks
  | LLmanager => LL.locks
  end.

(** The value of [loc] in the iteration at offset [i]. *)
Definition nextLoc (limit : Z) (results : bytes) (i : Z) : Z :=
  if len (slice_from results i) >? limit
  then LastIndexByte (slice results i (i + limit)) nl + 1
  else len (slice_from results i).

(** An environment in which the service answers without the
    acknowledgment token. *)
Definition rejectEnv : Env :=
  mkEnv (fun _ _ => Body (B "Error: unknown result line"))
        (fun _ => false) (fun _ => false)
        (fun _ => false) (fun _ => false)
        (fun _ p => (length p, false))
        (fun _ p => (length p, false))
        (fun p => (length p, false))
        (fun _ _ => 0%nat) (fun _ _ => 0%nat) (fun _ => 0%nat)
        (fun _ => ConnError) (fun _ => ConnError).

(** An environment in which the rewrite of the results file fails: the
    call returns [n] and an error, and [k] bytes are in the file. *)
Definition shortWriteEnv (k n : nat) : Env :=
  mkEnv (fun _ _ => Body (B "Found 1 lines to processing:"))
        (fun _ => false) (fun _ => false)
        (fun _ => false) (fun _ => false)
        (fun _ p => (length p, false))
        (fun _ _ => (n, true))
        (fun p => (length p, false))
        (fun _ _ => 0%nat) (fun _ _ => k) (fun _ => 0%nat)
        (fun _ => ConnError) (fun _ => ConnError).

(** An environment in which a provider answers every request for
    assignments with [body]. *)
Definition fetchEnv (gpu72_body primenet_body : http_reply) : Env :=
  mkEnv (fun _ _ => ConnError)
        (fun _ => false) (fun _ => false)
        (fun _ => false) (fun _ => false)
        (fun _ p => (length p, false))
        (fun _ p => (length p, false))
        (fun p => (length p, false))
        (fun _ _ => 0%nat) (fun _ _ => 0%nat) (fun _ => 0%nat)
        (fun _ => gpu72_body) (fun _ => primenet_body).

(** Worlds used in the examples: a results file with one record, or
    with three, and a queue that holds the key 999, with the record of
    that key behind another one. *)
Definition oneRecord : World :=
  world0 (Some []) (Some (B "no factor for M12345 from 2^70 to 2^71" ++ [nl])).

Definition threeRecords : World :=
  world0 (Some []) (Some (B "M1 a" ++ [nl] ++ B "M2 b" ++ [nl] ++ B "M3 c")).

Definition queuedRecord : World :=
  world0 (Some (B "Factor=N/A,999,70,71" ++ [nl]))
         (Some (B "no factor for M12345 from 2^70 to 2^71" ++ [nl]
                ++ B "M999 has a factor: 12345" ++ [nl])).

Definition keptSecond : World :=
  world0 (Some (B "Factor=N/A,999,70,71" ++ [nl]))
         (Some (B "M5 b" ++ [nl] ++ B "M999 has a factor: 12345" ++ [nl])).

(** The service acknowledges every batch and every write to the ledger
    is complete. *)
Definition acknowledging (e : Env) : Prop :=
  (forall earlier p, exists body,
      remote e earlier p = Body body /\ Contains body (B "processing:") = true)
  /\ (forall ledger p, exists n,
        sent_Write e ledger p = (n, false) /\ (length p <= n)%nat).

(** ** Notions used in the statements on refill, polling and whole runs *)

(** A pass of the polling loop that goes through: the login succeeds (or,
    in TFmanager, GPU72 is configured) and every device is updated. *)
Definition cycleOK (m : manager) (sett : settings) (c : cycle) : bool :=
  match m with
  | TFmanager => (login_ok c || gpu72 sett) && forallb update_ok (updates c)
  | LLmanager => login_ok c && forallb update_ok (updates c)
  end.

(** The assignment lines of either manager: one of the literal [heads]
    ("Factor=", or "DoubleCheck=" and "Test="), any text, and three
    comma-separated numbers. *)
Fixpoint headOf (heads : list bytes) (line : bytes) : option nat :=
  match heads with
  | [] => None
  | p :: rest => if HasPrefix line p then Some (length p) else headOf rest line
  end.

Fixpoint workLine (heads : list bytes) (fuel : nat) (line : bytes) : list bytes :=
  match fuel, line with
  | S fuel', _ :: l' =>
      match headOf heads line with
      | Some h =>
          match TF.lastTriple (drop h line) with
          | Some n => take (h + n) line :: workLine heads fuel' (drop (h + n) line)
          | None => []
          end
      | None => workLine heads fuel' l'
      end
  | _, _ => []
  end.

Definition workFindAll (heads : list bytes) (b : bytes) : list bytes :=
  concat (map (fun l => workLine heads (length l) l) (lines b)).

Definition headsOf (m : manager) : list bytes :=
  match m with
  | TFmanager => [B "Factor="]
  | LLmanager => [B "DoubleCheck="; B "Test="]
  end.

(** [workReg.FindAll] of either manager. *)
Definition workRegOf (m : manager) : bytes -> list bytes :=
  match m with
  | TFmanager => TF.workReg_FindAll
  | LLmanager => LL.workReg_FindAll
  end.

(** The assignments that [topoff] finds in the queue file. *)
Definition queued (m : manager) (w : World) : list bytes :=
  workRegOf m (Replace1 (content w Todo) cr nl).

(** A run of decimal digits that is not empty: what [[0-9]+] matches. *)
Definition digits (d : bytes) : Prop :=
  d <> [] /\ Forall (fun c => isDigit c = true) d.

(** An assignment as [workReg] matches it: one of the heads, any text
    without a newline and, at its end, three numbers, each behind a
    comma. *)
Definition isWork (heads : list bytes) (r : bytes) : Prop :=
  exists h mid d1 d2 d3,
    headOf heads r = Some h
    /\ drop h r = mid ++ comma :: d1 ++ comma :: d2 ++ comma :: d3
    /\ digits d1 /\ digits d2 /\ digits d3
    /\ (nl ∉ r).

(** [provided sett e dev n new]: the value [new] of [work] that
    [TF.topoff] appends to the queue when it asks for [n] assignments.
    GPU72 is asked first; PrimeNet is asked when GPU72 is not configured,
    fails or gives no assignment. *)
Definition provided (sett : settings) (e : Env) (dev : device) (n : Z)
    (new : list bytes) : Prop :=
  (gpu72 sett = true
   /\ (exists body, gpu72_fetch e n = Body body
         /\ new = TF.filterDups (TF.workReg_FindAll body) [])
   /\ (new = [] -> primenet sett = false))
  \/ (primenet sett = true
      /\ (gpu72 sett = true ->
          match gpu72_fetch e n with
          | Body body => TF.workReg_FindAll body = []
          | _ => True
          end)
      /\ exists body, primenet_fetch e n = Body body
           /\ TF.workReg_FindAll body <> []
           /\ new = TF.setTargets dev (TF.workReg_FindAll body)).


(** [startsFailing sett n script]: the first [n] passes of [script] fail
    in TFmanager; [tenInARow sett script]: somewhere in [script] ten passes
    in a row fail. *)
Definition startsFailing (sett : settings) (n : nat) (script : list cycle) : Prop :=
  exists fails rest,
    script = fails ++ rest /\ length fails = n
    /\ Forall (fun c => cycleOK TFmanager sett c = false) fails.

Definition tenInARow (sett : settings) (script : list cycle) : Prop :=
  exists pre rest, script = pre ++ rest /\ startsFailing sett 10 rest.


(** [resultReg.FindAll] of either manager. *)
Definition recordsOf (m : manager) : bytes -> list bytes :=
  match m with
  | TFmanager => TF.resultReg_FindAll
  | LLmanager => LL.resultReg_FindAll
  end.

(** The result records that [sendResults] finds in the results file. *)
Definition found (m : manager) (w : World) : list bytes :=
  recordsOf m (Replace1 (content w Res) cr nl).

(** No [os.OpenFile] and no [ioutil.ReadAll] fails. *)
Definition readable (e : Env) : Prop :=
  forall f, open_err e f = false /\ read_err e f = false.

(** The locks are free: none of the names has a marker, and the system
    lets the markers be created. *)
Definition unlocked (e : Env) (w : World) (fnames : list fname) : Prop :=
  forall f, f ∈ fnames -> lck w f = false /\ mark_err e f = false.

(** The system removes the markers of the names. *)
Definition releasing (e : Env) (fnames : list fname) : Prop :=
  forall f, f ∈ fnames -> unmark_err e f = false.

(** [restored e fnames w w']: the markers of [w'] against those of [w],
    after a call that locks [fnames]. No marker of [w] is gone; a marker
    that is new is the marker of one of the names, and its removal
    fails; where the removal works, the marker is as it was. *)
Definition restored (e : Env) (fnames : list fname) (w w' : World) : Prop :=
  forall f,
    (lck w f = true -> lck w' f = true)
    /\ (lck w' f = true ->
        lck w f = true \/ (f ∈ fnames /\ unmark_err e f = true))
    /\ (unmark_err e f = false -> lck w' f = lck w f).

(** An environment in which nothing fails but, as [mark] and [unmark]
    say, the creation and the removal of markers. *)
Definition markerEnv (mark unmark : fname -> bool) : Env :=
  mkEnv (fun _ _ => Body (B "Found 1 lines to processing:"))
        (fun _ => false) (fun _ => false)
        mark unmark
        (fun _ p => (length p, false))
        (fun _ p => (length p, false))
        (fun p => (length p, false))
        (fun _ _ => 0%nat) (fun _ _ => 0%nat) (fun _ => 0%nat)
        (fun _ => ConnError) (fun _ => ConnError).

(** The records that TFmanager keeps in the results file (their key
    occurs in the queue file) and the ones it submits. *)
Definition retained (w : World) : list bytes :=
  List.filter (TF.inQueue (content w Todo)) (found TFmanager w).

Definition submitted (w : World) : list bytes :=
  List.filter (fun r => negb (TF.inQueue (content w Todo) r)) (found TFmanager w).



(** The records that a call of [sendResults] puts in its blob. *)
Definition toSend (m : manager) (w : World) : list bytes :=
  match m with
  | TFmanager => submitted w
  | LLmanager => found LLmanager w
  end.

(** The service acknowledges every batch, but no write to the ledger goes
    through: [sent.Write] reports an error and writes nothing. (The
    clLucas manager opens its ledger with [os.O_APPEND|os.O_CREATE] and no
    write flag; where that opens the file for reading only, every write
    to it fails in this way.) *)
Definition ledgerRefused (e : Env) : Prop :=
  (forall earlier p, exists body,
      remote e earlier p = Body body /\ Contains body (B "processing:") = true)
  /\ (forall ledger p,
        sent_Write e ledger p = (0%nat, true) /\ sent_reach e ledger p = 0%nat).

(** An environment of that kind. *)
Definition refusedEnv : Env :=
  mkEnv (fun _ _ => Body (B "Found 1 lines to processing:"))
        (fun _ => false) (fun _ => false)
        (fun _ => false) (fun _ => false)
        (fun _ _ => (0%nat, true))
        (fun _ p => (length p, false))
        (fun p => (length p, false))
        (fun _ _ => 0%nat) (fun _ _ => 0%nat) (fun _ => 0%nat)
        (fun _ => ConnError) (fun _ => ConnError).

(** Settings, pages and worlds used in the examples. *)
Definition gpu72Only : settings := mkSettings true false 2.




Definition noFiles : World := world0 None None.

Definition noRecord : World :=
  world0 (Some []) (Some (B "mfakto 0.15 started" ++ [nl])).

Definition lucasRecord : World :=
  world0 None (Some (B "M( 57885161 )C, 0x0123456789abcdef, n = 3200K" ++ [nl])).

(** * Properties *)

Example lines_ex :
  lines (B "ab" ++ [nl] ++ B "c" ++ [nl]) = [B "ab"; B "c"; []].
Proof. reflexivity. Qed.

Example findall_ex :
  TF.resultReg_FindAll
    (B "no factor for M12345 from 2^70 to 2^71" ++ [nl] ++ B "junk" ++ [nl]
     ++ B "M7 x")
  = [B "no factor for M12345 from 2^70 to 2^71"; B "M7 x"].
Proof. vm_compute. reflexivity. Qed.

Example filter_ex :
  TF.filterResults [B "M12 a"; B "M5 b"; B "M12 c"] (B "Factor=N/A,12,70,71")
  = Some ([B "M12 a"; B "M12 c"], [B "M5 b"]).
Proof. vm_compute. reflexivity. Qed.

Example LL_findall_ex :
  LL.resultReg_FindAll
    (B "junk M( 999 )P, n = 1" ++ [nl] ++ B "M( x )" ++ [nl] ++ B "M(  )C")
  = [B "M( 999 )P, n = 1"; B "M(  )C"].
Proof. vm_compute. reflexivity. Qed.

Example workReg_ex :
  TF.workReg_FindAll
    (B "<pre>Factor=N/A,1000003,70,71" ++ [nl] ++ B "Factor=no fields" ++ [nl]
     ++ B "Factor=N/A,1000033,70,71,72 and more</pre>")
  = [B "Factor=N/A,1000003,70,71"; B "Factor=N/A,1000033,70,71,72"].
Proof. vm_compute. reflexivity. Qed.

Example setTargets_ex :
  TF.setTargets (mkDevice 5 73)
    [B "Factor=N/A,1000003,70,71"; B "Factor=N/A,1000033,70,75"]
  = [B "Factor=N/A,1000003,70,73"; B "Factor=N/A,1000033,70,75"].
Proof. vm_compute. reflexivity. Qed.

(** Three records and a ceiling of ten bytes: two chunks, cut behind the
    second newline. *)
Example chunks_ex :
  posted (snd (TF.sendResults_with 10 okEnv threeRecords))
  = [B "M1 a" ++ [nl] ++ B "M2 b" ++ [nl]; B "M3 c"]
  /\ file (snd (TF.sendResults_with 10 okEnv threeRecords)) Sent
     = Some (B "M1 a" ++ [nl] ++ B "M2 b" ++ [nl] ++ B "M3 c" ++ [nl]).
Proof. vm_compute. split; reflexivity. Qed.

(** ** Bytes and slices *)

Lemma resultExtract_Find_nonempty r a :
  resultExtract_Find r = Some a -> a <> [].
Proof.
  induction r as [|x r IH]; simpl; [discriminate|].
  destruct (_ && _); [|exact IH]. intros [= <-]. discriminate.
Qed.

Lemma resultReg_Match_key r :
  TF.resultReg_Match r = true -> is_Some (resultExtract_Find r).
Proof.
  induction r as [|x r IH]; simpl; [discriminate|].
  destruct (Byte.eqb x letterM); simpl.
  - destruct (nonEmpty (leadingDigits r)); simpl; eauto.
  - exact IH.
Qed.

Lemma inQueue_Some todo r a :
  resultExtract_Find r = Some a -> TF.inQueue todo r = Contains todo (drop 1 a).
Proof. intros H. unfold TF.inQueue, TF.key. rewrite H. reflexivity. Qed.

Lemma filterResults_loop_spec todo results :
  Forall (fun r => is_Some (resultExtract_Find r)) results ->
  forall asgns keep send, mapOK todo asgns ->
  TF.filterResults_loop results todo asgns keep send =
    Some (keep ++ List.filter (TF.inQueue todo) results,
          send ++ List.filter (fun r => negb (TF.inQueue todo r)) results).
Proof.
  induction 1 as [|r rest [a Ha] _ IH]; intros asgns keep send Hok; simpl.
  - by rewrite !app_nil_r.
  - rewrite Ha. simpl. rewrite (inQueue_Some todo r a Ha).
    destruct (asgns !! a) as [loc|] eqn:Hl.
    + destruct (Hok a loc Hl) as [_ [[-> Hc]|[-> Hc]]]; rewrite Hc; simpl;
        rewrite IH by done; by rewrite <- ?app_assoc.
    + destruct (Contains todo (drop 1 a)) eqn:Hc; simpl.
      * rewrite IH; [by rewrite <- app_assoc|].
        intros a' v. rewrite lookup_insert. case_decide as E.
        -- intros [= <-]. subst a'. split; [by eapply resultExtract_Find_nonempty|auto].
        -- apply Hok.
      * rewrite IH; [by rewrite <- app_assoc|].
        intros a' v. rewrite lookup_insert. case_decide as E.
        -- intros [= <-]. subst a'. split; [by eapply resultExtract_Find_nonempty|auto].
        -- apply Hok.
Qed.

Lemma len_nonneg {A} (s : list A) : 0 <= len s.
Proof. unfold len. lia. Qed.

Lemma len_app {A} (s t : list A) : len (s ++ t) = len s + len t.
Proof. unfold len. rewrite length_app. lia. Qed.

Lemma len_nil_inv {A} (s : list A) : len s = 0 -> s = [].
Proof. unfold len. destruct s; simpl; [done|lia]. Qed.

Lemma byte_eqb_eq x y : Byte.eqb x y = true <-> x = y.
Proof.
  split; [apply Byte.byte_dec_bl | apply Byte.byte_dec_lb].
Qed.

Lemma byte_eqb_neq x y : Byte.eqb x y = false <-> x <> y.
Proof.
  rewrite <- byte_eqb_eq. destruct (Byte.eqb x y); split; congruence.
Qed.

Lemma LastIndexByte_range s c : -1 <= LastIndexByte s c < len s.
Proof.
  induction s as [|x s IH]; simpl; [unfold len; simpl; lia|].
  unfold len in *. simpl length.
  destruct (0 <=? LastIndexByte s c) eqn:E; [lia|].
  destruct (Byte.eqb x c); lia.
Qed.

Lemma LastIndexByte_lookup s c :
  0 <= LastIndexByte s c -> s !! Z.to_nat (LastIndexByte s c) = Some c.
Proof.
  induction s as [|x s IH]; simpl; [lia|].
  destruct (0 <=? LastIndexByte s c) eqn:E.
  - intros _. apply Z.leb_le in E.
    replace (Z.to_nat (LastIndexByte s c + 1)) with (S (Z.to_nat (LastIndexByte s c))) by lia.
    simpl. auto.
  - destruct (Byte.eqb x c) eqn:Ex; [|lia].
    intros _. simpl. f_equal. by apply byte_eqb_eq.
Qed.

Lemma LastIndexByte_absent s c : c ∉ s -> LastIndexByte s c = -1.
Proof.
  induction s as [|x s IH]; simpl; [done|].
  intros H. apply not_elem_of_cons in H as [Hx Hs].
  rewrite (IH Hs). simpl.
  destruct (Byte.eqb x c) eqn:E; [|done].
  apply byte_eqb_eq in E. congruence.
Qed.

Lemma LastIndexByte_present s c : LastIndexByte s c = -1 -> c ∉ s.
Proof.
  induction s as [|x s IH]; simpl; [intros _; apply not_elem_of_nil|].
  pose proof (LastIndexByte_range s c).
  destruct (0 <=? LastIndexByte s c) eqn:E; [apply Z.leb_le in E; lia|].
  apply Z.leb_gt in E.
  destruct (Byte.eqb x c) eqn:Ex; [lia|]. intros _.
  apply byte_eqb_neq in Ex. apply not_elem_of_cons. split; [congruence|].
  apply IH. lia.
Qed.

Lemma slice_from_len {A} (s : list A) i :
  0 <= i <= len s -> len (slice_from s i) = len s - i.
Proof. unfold len, slice_from. rewrite length_drop. lia. Qed.

Lemma slice_eq {A} (s : list A) i n :
  slice s i (i + n) = take (Z.to_nat n) (drop (Z.to_nat i) s).
Proof. unfold slice. do 2 f_equal. lia. Qed.

Lemma last_take_lookup {A} (l : list A) n x :
  l !! n = Some x -> list.last (take (S n) l) = Some x.
Proof.
  intros H. rewrite (take_S_r _ _ _ H). apply last_snoc.
Qed.
Lemma sendbatch_true e w c w1 :
  sendbatch e w c = (true, w1) ->
  w1 = mkWorld (file w) (lck w) (posted w ++ [c]) (acked w ++ [c]) (logged w).
Proof.
  unfold sendbatch. destruct (remote e (posted w) c); try discriminate.
  destruct (Contains body _); [|discriminate]. by intros [= <-].
Qed.

Lemma sendbatch_false e w c w1 :
  sendbatch e w c = (false, w1) ->
  file w1 = file w /\ lck w1 = lck w /\ posted w1 = posted w ++ [c]
  /\ acked w1 = acked w.
Proof.
  unfold sendbatch. destruct (remote e (posted w) c).
  - by intros [= <-].
  - by intros [= <-].
  - destruct (Contains body _); [discriminate|]. by intros [= <-].
Qed.

Lemma reached_complete (p : bytes) n reach :
  n = length p -> reached p n false reach = length p.
Proof. intros ->. unfold reached. by rewrite Nat.eqb_refl. Qed.

Lemma reached_le (p : bytes) n err reach : (reached p n err reach <= length p)%nat.
Proof. unfold reached. destruct (_ && _); lia. Qed.

Lemma reached_failed (p : bytes) n err reach :
  err = true \/ n <> length p ->
  reached p n err reach = Nat.min reach (length p).
Proof.
  unfold reached. intros [->|Hn]; [by rewrite andb_false_r|].
  apply Nat.eqb_neq in Hn. by rewrite Hn.
Qed.

Lemma sentWrite_full e w p n w2 :
  sentWrite e w p = ((n, false), w2) -> n = len p ->
  w2 = setFile w Sent (content w Sent ++ p).
Proof.
  unfold sentWrite. destruct (sent_Write e (content w Sent) p) as [k err].
  intros [= <- -> <-] Hn. unfold written, len in *.
  rewrite reached_complete by lia.
  rewrite take_ge by lia. reflexivity.
Qed.

Lemma sentWrite_frame e w p r w2 :
  sentWrite e w p = (r, w2) ->
  (forall f, f <> Sent -> file w2 f = file w f) /\ lck w2 = lck w
  /\ posted w2 = posted w /\ acked w2 = acked w
  /\ exists part, file w2 Sent = Some (content w Sent ++ part).
Proof.
  unfold sentWrite. destruct (sent_Write e (content w Sent) p) as [k err].
  intros [= <- <-]. repeat split; simpl.
  - intros f Hf. by destruct (decide (f = Sent)).
  - eexists. reflexivity.
Qed.

Lemma drop_add_len {A} (s : list A) i (c post : list A) :
  0 <= i -> drop (Z.to_nat i) s = c ++ post ->
  drop (Z.to_nat (i + len c)) s = post.
Proof.
  intros Hi H. unfold len.
  replace (Z.to_nat (i + Z.of_nat (length c))) with (Z.to_nat i + length c)%nat by lia.
  rewrite <- drop_drop, H. by rewrite drop_app_length.
Qed.

(** ** Chunks *)

Section Chunked.

Context (limit : Z).

Lemma chunked_concat rest chunks left :
  chunked limit rest chunks left -> rest = concat chunks ++ left.
Proof.
  induction 1 as [|c post chunks left _ _ _ _ IH]; simpl; [done|].
  by rewrite IH, app_assoc.
Qed.

Lemma chunked_bounds rest chunks left :
  chunked limit rest chunks left ->
  Forall (fun c => 0 < len c <= limit) chunks.
Proof.
  induction 1 as [|c post chunks left Hc Hl _ _ IH]; constructor; [|done].
  split; [|done]. destruct c; [done|]. unfold len. simpl. lia.
Qed.

Lemma chunked_nonempty rest chunks left :
  chunked limit rest chunks left -> chunks <> [] -> rest <> [].
Proof.
  destruct 1 as [|c post chunks left Hc]; [done|].
  intros _. destruct c; done.
Qed.

Lemma chunked_splits rest chunks left :
  chunked limit rest chunks left -> splitsAtNewlines chunks.
Proof.
  induction 1 as [|c post chunks left Hc Hl Hn Hch IH]; simpl; [done|].
  destruct chunks as [|c' chunks]; [done|]. split; [|done].
  destruct Hn as [->|Hn]; [|done].
  by eapply chunked_nonempty in Hch.
Qed.

(** The byte in front of what is left over is a newline, unless nothing
    was cut off or nothing is left. *)
Lemma chunked_boundary rest chunks left :
  chunked limit rest chunks left ->
  chunks = [] \/ left = [] \/ list.last (concat chunks) = Some nl.
Proof.
  induction 1 as [|c post chunks left Hc Hl Hn Hch IH]; [by left|].
  right. destruct IH as [->|[->|IH]].
  - inversion Hch; subst. simpl. rewrite app_nil_r.
    destruct Hn as [->|Hn]; [by left|by right].
  - by left.
  - right. simpl. rewrite last_app, IH. done.
Qed.

Lemma chunked_app rest chunks mid chunks' left :
  chunked limit rest chunks mid -> chunked limit mid chunks' left ->
  chunked limit rest (chunks ++ chunks') left.
Proof.
  induction 1 as [|c post chunks mid Hc Hl Hn Hch IH]; simpl; [done|].
  intros H. constructor; auto.
Qed.

End Chunked.

(** ** The loop *)

Section Loop.

Context (limit : Z) (e : Env) (results : bytes).

Lemma nextLoc_chunk i :
  0 <= i -> i < len results - 1 -> 0 < nextLoc limit results i ->
  exists post,
    let c := slice results i (i + nextLoc limit results i) in
    drop (Z.to_nat i) results = c ++ post
    /\ len c = nextLoc limit results i /\ c <> [] /\ len c <= limit
    /\ (post = [] \/ list.last c = Some nl).
Proof.
  intros Hi Hc Hloc.
  assert (Hrest : len (slice_from results i) = len results - i)
    by (apply slice_from_len; lia).
  set (loc := nextLoc limit results i) in *.
  rewrite slice_eq. set (rest := drop (Z.to_nat i) results) in *.
  assert (Hlr : len rest = len results - i) by exact Hrest.
  assert (Hbound : loc <= len rest /\ loc <= limit
                   /\ (loc = len rest \/ list.last (take (Z.to_nat loc) rest) = Some nl)).
  { subst loc. unfold nextLoc, slice_from in *. fold rest in Hloc |- *.
    destruct (len rest >? limit) eqn:Hgt.
    - apply Z.gtb_lt in Hgt. rewrite slice_eq in *. fold rest in Hloc |- *.
      set (win := take (Z.to_nat limit) rest) in *.
      pose proof (LastIndexByte_range win nl) as Hr.
      assert (Hwin : len win <= limit /\ len win <= len rest).
      { assert (Hpos : 0 < len win) by lia. revert Hpos.
        subst win. unfold len. rewrite length_take. lia. }
      split; [lia|]. split; [lia|]. right.
      replace (Z.to_nat (LastIndexByte win nl + 1))
        with (S (Z.to_nat (LastIndexByte win nl))) by lia.
      apply last_take_lookup.
      pose proof (LastIndexByte_lookup win nl ltac:(lia)) as Hl.
      subst win. rewrite lookup_take_Some in Hl. tauto.
    - rewrite Z.gtb_ltb in Hgt. apply Z.ltb_ge in Hgt. lia. }
  destruct Hbound as (Hb1 & Hb2 & Hb3).
  assert (Hlen : len (take (Z.to_nat loc) rest) = loc).
  { unfold len in *. rewrite length_take. lia. }
  exists (drop (Z.to_nat loc) rest). simpl.
  split; [by rewrite take_drop|]. split; [done|].
  split; [intros E; rewrite E in Hlen; unfold len in Hlen; simpl in Hlen; lia|].
  split; [lia|].
  destruct Hb3 as [E|E]; [left|by right].
  apply drop_ge. unfold len in *. lia.
Qed.

Lemma loop_step_eq w i :
  loop_step limit e w results i =
  if i <? len results - 1 then
    let loc := nextLoc limit results i in
    if loc <=? 0 then
      Fail LocError (addLog w (LogLocError loc i (len (slice_from results i))))
    else
      let chunk := slice results i (i + loc) in
      let '(ok, w1) := sendbatch e w chunk in
      if negb ok then Fail SendFailed (addLog w1 (LogSendBatchFailed i loc chunk))
      else
        let '((n, err), w2) := sentWrite e w1 chunk in
        if err || negb (n =? len chunk)
        then Fail LedgerWriteFailed (addLog w2 LogSentWriteError)
        else Next w2 (i + loc)
  else Stop.
Proof. reflexivity. Qed.

Lemma loop_step_Next w i w2 i2 :
  0 <= i ->
  loop_step limit e w results i = Next w2 i2 ->
  exists chunk post,
    drop (Z.to_nat i) results = chunk ++ post
    /\ i2 = i + len chunk /\ chunk <> [] /\ len chunk <= limit
    /\ (post = [] \/ list.last chunk = Some nl)
    /\ w2 = acceptChunk w chunk.
Proof.
  intros Hi. rewrite loop_step_eq.
  destruct (i <? len results - 1) eqn:Hc; [|discriminate].
  apply Z.ltb_lt in Hc. cbv zeta.
  destruct (nextLoc limit results i <=? 0) eqn:Hloc; [discriminate|].
  apply Z.leb_gt in Hloc.
  destruct (nextLoc_chunk i Hi Hc Hloc)
    as (post & Hd & Hl & Hne & Hlim & Hnl).
  cbv zeta in *. set (c := slice results i (i + nextLoc limit results i)) in *.
  destruct (sendbatch e w c) as [ok w1] eqn:Hsb.
  destruct ok; simpl; [|discriminate].
  destruct (sentWrite e w1 c) as [[n err] w3] eqn:Hsw.
  destruct err; simpl; [discriminate|].
  destruct (n =? len c) eqn:Hn; simpl; [|discriminate].
  apply Z.eqb_eq in Hn. intros [= <- <-].
  apply sendbatch_true in Hsb. subst w1.
  apply sentWrite_full in Hsw; [|done].
  exists c, post. rewrite Hsw. split; [done|]. split; [by rewrite Hl|].
  split; [done|]. split; [done|]. split; [done|]. reflexivity.
Qed.

Lemma loop_step_Stop w i :
  loop_step limit e w results i = Stop -> len results - 1 <= i.
Proof.
  unfold loop_step. destruct (i <? len results - 1) eqn:Hc.
  - destruct (_ <=? 0); [discriminate|].
    destruct (sendbatch _ _ _) as [[] ?]; simpl; [|discriminate].
    destruct (sentWrite _ _ _) as [[? []] ?]; simpl; [discriminate|].
    destruct (negb _); discriminate.
  - intros _. by apply Z.ltb_ge in Hc.
Qed.

Lemma loop_step_Fail w i why w2 :
  0 <= i ->
  loop_step limit e w results i = Fail why w2 ->
  file w2 Res = file w Res /\ file w2 Todo = file w Todo /\ lck w2 = lck w
  /\ i < len results - 1
  /\ match why with
     | LocError =>
         posted w2 = posted w /\ acked w2 = acked w
         /\ file w2 Sent = file w Sent
         /\ nextLoc limit results i <= 0
         /\ logged w2 = logged w ++
              [LogLocError (nextLoc limit results i) i (len (slice_from results i))]
     | SendFailed =>
         (exists c, posted w2 = posted w ++ [c]
                    /\ chunked limit (drop (Z.to_nat i) results) [c]
                         (drop (Z.to_nat (i + len c)) results))
         /\ acked w2 = acked w
         /\ file w2 Sent = file w Sent
     | LedgerWriteFailed =>
         (exists c, posted w2 = posted w ++ [c] /\ acked w2 = acked w ++ [c]
                    /\ chunked limit (drop (Z.to_nat i) results) [c]
                         (drop (Z.to_nat (i + len c)) results))
         /\ exists part, file w2 Sent = Some (content w Sent ++ part)
     end.
Proof.
  intros Hi. rewrite loop_step_eq.
  destruct (i <? len results - 1) eqn:Hc; [|discriminate].
  apply Z.ltb_lt in Hc. cbv zeta.
  destruct (nextLoc limit results i <=? 0) eqn:Hloc.
  { intros [= <- <-]. simpl. apply Z.leb_le in Hloc. split_and!; done. }
  apply Z.leb_gt in Hloc.
  destruct (nextLoc_chunk i Hi Hc Hloc)
    as (post & Hd & Hl & Hne & Hlim & Hnl).
  cbv zeta in *. set (c := slice results i (i + nextLoc limit results i)) in *.
  assert (Hch : chunked limit (drop (Z.to_nat i) results) [c]
                  (drop (Z.to_nat (i + len c)) results)).
  { rewrite (drop_add_len _ _ _ _ Hi Hd), Hd.
    constructor; try done. constructor. }
  destruct (sendbatch e w c) as [ok w1] eqn:Hsb.
  destruct ok; simpl.
  - apply sendbatch_true in Hsb. subst w1.
    destruct (sentWrite e _ _) as [[n err] w3] eqn:Hsw.
    apply sentWrite_frame in Hsw as (Hf & Hlk & Hp & Ha & part & Hs).
    destruct (err || negb _); [|discriminate].
    intros [= <- <-]. simpl in *.
    rewrite !Hf by done. rewrite Hlk, Hp, Ha.
    split_and!; try done; eauto.
  - apply sendbatch_false in Hsb as (Hf & Hlk & Hp & Ha).
    intros [= <- <-]. simpl. rewrite Hf, Hlk, Hp, Ha.
    split_and!; try done; eauto.
Qed.


Lemma iterates_chunked w i w2 i2 :
  iterates limit e results w i w2 i2 -> 0 <= i ->
  exists chunks,
    chunked limit (drop (Z.to_nat i) results) chunks (drop (Z.to_nat i2) results)
    /\ i2 = i + len (concat chunks)
    /\ w2 = fold_left acceptChunk chunks w.
Proof.
  induction 1 as [w i|w i w1 i1 w2 i2 Hstep _ IH]; intros Hi.
  - exists []. split; [constructor|]. unfold len; simpl. split; [lia|done].
  - apply loop_step_Next in Hstep as (c & post & Hd & -> & Hc & Hl & Hn & ->);
      [|done].
    destruct IH as (chunks & Hch & -> & ->); [pose proof (len_nonneg c); lia|].
    exists (c :: chunks). rewrite Hd. rewrite (drop_add_len _ _ _ _ Hi Hd) in Hch.
    split; [by constructor|]. simpl. rewrite len_app. split; [lia|done].
Qed.

Lemma iterates_bound w i w2 i2 :
  iterates limit e results w i w2 i2 -> 0 <= i <= len results ->
  i <= i2 <= len results.
Proof.
  intros H Hi. destruct (iterates_chunked _ _ _ _ H) as (chunks & Hch & -> & _);
    [lia|].
  apply chunked_concat in Hch.
  assert (len (drop (Z.to_nat i) results) = len results - i).
  { unfold len. rewrite length_drop. unfold len in Hi. lia. }
  rewrite Hch, len_app in H0.
  pose proof (len_nonneg (concat chunks)).
  pose proof (len_nonneg (drop (Z.to_nat (i + len (concat chunks))) results)). lia.
Qed.

Lemma loop_step_Next_bound w i w2 i2 :
  0 <= i -> loop_step limit e w results i = Next w2 i2 ->
  i < i2 <= len results /\ i < len results - 1.
Proof.
  intros Hi H.
  assert (Hc : i < len results - 1).
  { unfold loop_step in H. destruct (i <? len results - 1) eqn:E; [|discriminate].
    by apply Z.ltb_lt in E. }
  pose proof (iterates_bound w i w2 i2
                (iterates_next _ _ _ _ _ _ _ _ _ H (iterates_here _ _ _ _ _))
                ltac:(lia)).
  apply loop_step_Next in H as (c & post & Hd & -> & Hne & _); [|done].
  destruct c; [done|]. unfold len in *. simpl in *. lia.
Qed.

(** The fuel of [sendLoop] is enough. *)
Lemma sendLoop_enough_fuel fuel : forall w i,
  0 <= i -> (Z.to_nat (len results - i) < fuel)%nat ->
  fst (sendLoop limit fuel e w results i) <> LoopFuel.
Proof.
  induction fuel as [|fuel IH]; intros w i Hi Hf; [lia|]. simpl.
  destruct (loop_step limit e w results i) as [|w1 i1|why w1] eqn:Hs; simpl; try done.
  apply loop_step_Next_bound in Hs; [|done]. apply IH; lia.
Qed.

(** A run of the loop is a sequence of iterations and a last step. *)
Lemma sendLoop_run fuel : forall w i r w',
  sendLoop limit fuel e w results i = (r, w') ->
  r <> LoopFuel ->
  exists w2 i2, iterates limit e results w i w2 i2 /\
    match r with
    | LoopDone => loop_step limit e w2 results i2 = Stop /\ w' = w2
    | LoopFailed why => loop_step limit e w2 results i2 = Fail why w'
    | LoopFuel => False
    end.
Proof.
  induction fuel as [|fuel IH]; intros w i r w'; simpl.
  - intros [= <- <-]. done.
  - destruct (loop_step limit e w results i) as [|w1 i1|why w1] eqn:Hs.
    + intros [= <- <-] _. exists w, i. split; [constructor|done].
    + intros H Hr. destruct (IH _ _ _ _ H Hr) as (w2 & i2 & Hit & Hlast).
      exists w2, i2. split; [|done]. econstructor; eauto.
    + intros [= <- <-] _. exists w, i. split; [constructor|done].
Qed.

Lemma sendLoop_of_iterates w i w2 i2 :
  iterates limit e results w i w2 i2 -> 0 <= i ->
  forall fuel, (Z.to_nat (len results - i) < fuel)%nat ->
  exists fuel2, (Z.to_nat (len results - i2) < fuel2)%nat /\
    sendLoop limit fuel e w results i = sendLoop limit fuel2 e w2 results i2.
Proof.
  induction 1 as [w i|w i w1 i1 w2 i2 Hstep _ IH]; intros Hi fuel Hf.
  - by exists fuel.
  - destruct fuel as [|fuel]; [lia|]. simpl. rewrite Hstep.
    apply loop_step_Next_bound in Hstep; [|done].
    apply IH; lia.
Qed.

(** A failing iteration ends the loop with that failure. *)
Lemma sendLoop_fails w w2 i2 why w3 :
  iterates limit e results w 0 w2 i2 ->
  loop_step limit e w2 results i2 = Fail why w3 ->
  sendLoop limit (S (length results)) e w results 0 = (LoopFailed why, w3).
Proof.
  intros Hit Hs.
  destruct (sendLoop_of_iterates _ _ _ _ Hit ltac:(lia) (S (length results)))
    as (fuel2 & Hf & ->); [unfold len; lia|].
  destruct fuel2; [lia|]. simpl. by rewrite Hs.
Qed.

Lemma sendLoop_stops w w2 i2 :
  iterates limit e results w 0 w2 i2 ->
  loop_step limit e w2 results i2 = Stop ->
  sendLoop limit (S (length results)) e w results 0 = (LoopDone, w2).
Proof.
  intros Hit Hs.
  destruct (sendLoop_of_iterates _ _ _ _ Hit ltac:(lia) (S (length results)))
    as (fuel2 & Hf & ->); [unfold len; lia|].
  destruct fuel2; [lia|]. simpl. by rewrite Hs.
Qed.

End Loop.

(** ** Records and blobs *)

Lemma TrimRight_keeps l y b cut :
  inCutset y cut = false ->
  TrimRight (l ++ y :: b) cut = l ++ y :: TrimRight b cut.
Proof.
  intros Hy. induction l as [|a l IH]; simpl.
  - rewrite Hy. by destruct (TrimRight b cut).
  - rewrite IH. by destruct l.
Qed.

Lemma TrimRight_prefix b cut : exists t, b = TrimRight b cut ++ t.
Proof.
  induction b as [|x b [t IH]]; simpl; [by exists []|].
  destruct (TrimRight b cut) eqn:E.
  - destruct (inCutset x cut).
    + by exists (x :: b).
    + exists t. simpl in IH. by rewrite IH.
  - exists t. simpl. by rewrite IH at 1.
Qed.

Lemma TrimRight_elem b cut x : x ∈ TrimRight b cut -> x ∈ b.
Proof.
  destruct (TrimRight_prefix b cut) as [t Ht]. intros H.
  rewrite Ht. apply elem_of_app. by left.
Qed.

Lemma Join_last recs sep r :
  list.last recs = Some r -> exists Q, Join recs sep = Q ++ r.
Proof.
  induction recs as [|x recs IH]; [done|].
  destruct recs as [|x' recs].
  - intros [= ->]. by exists [].
  - rewrite last_cons_cons. intros H. destruct (IH H) as [Q HQ].
    exists (x ++ sep ++ Q). change (Join (x :: x' :: recs) sep)
      with (x ++ sep ++ Join (x' :: recs) sep).
    by rewrite HQ, <- !app_assoc.
Qed.

Lemma notin_cutset_nl x : inCutset x [sp; nl] = false -> x <> nl.
Proof.
  intros H ->. discriminate.
Qed.

(** The blob of either manager ends well: no boundary of the loop can
    fall one byte before its end. *)
Lemma blobOf_wellEnded recs : Forall isRecord recs -> wellEnded (blobOf recs).
Proof.
  intros Hrecs. unfold blobOf.
  destruct (list.last recs) as [r|] eqn:Hlast.
  2: { apply last_None in Hlast. subst. by left. }
  destruct (Join_last recs [nl] r Hlast) as [Q ->].
  assert (Hr : isRecord r).
  { rewrite list.Forall_forall in Hrecs. apply Hrecs.
    apply last_Some in Hlast as [l' ->]. apply elem_of_app. right. by left. }
  destruct Hr as (Hnl & pre & x & y & post & -> & Hx & Hy).
  right.
  replace (Q ++ pre ++ x :: y :: post) with ((Q ++ pre ++ [x]) ++ y :: post)
    by (by rewrite <- !app_assoc).
  rewrite TrimRight_keeps by done.
  assert (Ht : forall z, z ∈ TrimRight post [sp; nl] -> z <> nl).
  { intros z Hz ->. apply TrimRight_elem in Hz. apply Hnl.
    apply elem_of_app. right. by do 2 right. }
  destruct (TrimRight post [sp; nl]) as [|z t _] using rev_ind.
  - exists (Q ++ pre), x, y. split; [by rewrite <- !app_assoc|].
    by apply notin_cutset_nl.
  - destruct t as [|z' t _] using rev_ind.
    + exists (Q ++ pre ++ [x]), y, z. split; [by rewrite <- !app_assoc|].
      by apply notin_cutset_nl.
    + exists ((Q ++ pre ++ [x]) ++ y :: t), z', z.
      split; [by rewrite <- !app_assoc|].
      apply Ht. apply elem_of_app. left. apply elem_of_app. right. by left.
Qed.

Lemma lines_no_newline b : Forall (fun l => nl ∉ l) (lines b).
Proof.
  induction b as [|x b IH]; simpl.
  - constructor; [apply not_elem_of_nil|constructor].
  - destruct (Byte.eqb x nl) eqn:E.
    + constructor; [apply not_elem_of_nil|done].
    + apply byte_eqb_neq in E. destruct (lines b) as [|l ls].
      * constructor; [|constructor].
        apply not_elem_of_cons. split; [congruence|apply not_elem_of_nil].
      * inversion IH; subst. constructor; [|done].
        apply not_elem_of_cons. split; [congruence|done].
Qed.

Lemma isDigit_not_cut d : isDigit d = true -> inCutset d [sp; nl] = false.
Proof. destruct d; simpl; intros H; try discriminate H; reflexivity. Qed.

Lemma leadingDigits_head b :
  nonEmpty (leadingDigits b) = true ->
  exists d b', b = d :: b' /\ isDigit d = true.
Proof.
  destruct b as [|d b']; simpl; [discriminate|].
  destruct (isDigit d) eqn:E; [|discriminate]. eauto.
Qed.

Lemma TF_match_solid r : TF.resultReg_Match r = true -> solid r.
Proof.
  induction r as [|x r IH]; simpl; [discriminate|].
  intros H. apply orb_true_iff in H as [H|H].
  - apply andb_true_iff in H as [H _]. apply andb_true_iff in H as [Hx Hd].
    apply byte_eqb_eq in Hx. subst x.
    apply leadingDigits_head in Hd as (d & b' & -> & Hd).
    exists [], letterM, d, b'. split; [done|]. split; [done|].
    by apply isDigit_not_cut.
  - destruct (IH H) as (pre & a & b & post & -> & Ha & Hb).
    by exists (x :: pre), a, b, post.
Qed.

Lemma TF_FindAll_records curr : Forall isRecord (TF.resultReg_FindAll curr).
Proof.
  unfold TF.resultReg_FindAll. apply list.Forall_forall. intros r Hr.
  apply list_elem_of_In, filter_In in Hr as [Hr Hm].
  split; [|by apply TF_match_solid].
  pose proof (lines_no_newline curr) as Hl. rewrite list.Forall_forall in Hl.
  apply Hl. by apply list_elem_of_In.
Qed.

Lemma HasPrefix_app s p : HasPrefix s p = true -> exists t, s = p ++ t.
Proof.
  revert s. induction p as [|x p IH]; intros s; simpl; [by exists s|].
  destruct s as [|y s]; [discriminate|].
  intros H. apply andb_true_iff in H as [Hy Hp]. apply byte_eqb_eq in Hy.
  subst. destruct (IH _ Hp) as [t ->]. by exists t.
Qed.

Lemma LL_find_record line r :
  nl ∉ line -> LL.resultReg_Find line = Some r -> isRecord r.
Proof.
  induction line as [|x line IH]; simpl; [discriminate|].
  intros Hnl. destruct (LL.resultReg_head (x :: line)) eqn:Hh.
  - intros [= <-]. split; [done|].
    unfold LL.resultReg_head in Hh. apply andb_true_iff in Hh as [Hh _].
    apply HasPrefix_app in Hh as [t ->].
    by exists [], x4d, x28, (x20 :: t).
  - apply IH. by apply not_elem_of_cons in Hnl as [_ ?].
Qed.

Lemma LL_FindAll_records curr : Forall isRecord (LL.resultReg_FindAll curr).
Proof.
  unfold LL.resultReg_FindAll. apply list.Forall_forall. intros r Hr.
  apply list_elem_of_omap in Hr as (line & Hline & Hf).
  pose proof (lines_no_newline curr) as Hl. rewrite list.Forall_forall in Hl.
  eapply LL_find_record; eauto.
Qed.

(** ** Before and after the loop *)

Lemma unlockFile_frame e fnames : forall w,
  file (unlockFile e w fnames) = file w
  /\ posted (unlockFile e w fnames) = posted w
  /\ acked (unlockFile e w fnames) = acked w
  /\ logged (unlockFile e w fnames) = logged w.
Proof.
  unfold unlockFile.
  induction fnames as [|f fnames IH]; intros w; simpl; [done|].
  destruct (unmark_err e f); [apply IH|].
  destruct (IH (setLck w f false)) as (-> & -> & -> & ->). done.
Qed.

#[local] Arguments unlockFile : simpl never.

Lemma lockFile_from_frame e fnames : forall w held b w1,
  lockFile_from e w held fnames = (b, w1) ->
  file w1 = file w /\ posted w1 = posted w /\ acked w1 = acked w
  /\ logged w1 = logged w.
Proof.
  induction fnames as [|f fnames IH]; intros w held b w1; simpl.
  - by intros [= <- <-].
  - destruct (lck w f || mark_err e f).
    + intros [= <- <-]. apply unlockFile_frame.
    + intros H. by apply IH in H.
Qed.

Lemma lockFile_frame e w fnames b w1 :
  lockFile e w fnames = (b, w1) ->
  file w1 = file w /\ posted w1 = posted w /\ acked w1 = acked w
  /\ logged w1 = logged w.
Proof. apply lockFile_from_frame. Qed.

Lemma file_create_same w f g : f <> g -> file (create w f) g = file w g.
Proof.
  intros H. unfold create. destruct (file w f); [done|]. simpl.
  by destruct (decide (g = f)); [congruence|].
Qed.

Lemma content_create w f : file (create w f) f = Some (content w f).
Proof.
  unfold create, content. destruct (file w f) eqn:E; simpl; [done|].
  by destruct (decide (f = f)).
Qed.

Lemma create_frame w f :
  posted (create w f) = posted w /\ acked (create w f) = acked w
  /\ lck (create w f) = lck w /\ logged (create w f) = logged w.
Proof. unfold create. by destruct (file w f). Qed.

Lemma nonEmpty_true {A} (l : list A) : nonEmpty l = true -> l <> [].
Proof. by destruct l. Qed.

(** What holds when [TF.sendResults] reaches the loop. *)
Lemma TF_prepare_Ready e w w1 keep send :
  TF.prepare e w = Ready w1 keep send ->
  exists c q,
    file w Res = Some c /\ file w Todo = Some q
    /\ file w1 Res = Some c /\ file w1 Todo = Some q
    /\ file w1 Sent = Some (content w Sent)
    /\ posted w1 = posted w /\ acked w1 = acked w
    /\ TF.resultReg_FindAll (Replace1 c cr nl) <> []
    /\ TF.filterResults (TF.resultReg_FindAll (Replace1 c cr nl))
         (Replace1 q cr nl) = Some (keep, send).
Proof.
  unfold TF.prepare.
  destruct (lockFile e w TF.locks) as [[] w0] eqn:Hlock; [|discriminate].
  apply lockFile_frame in Hlock as (Hf & Hp & Ha & _).
  destruct (TF.opened e w0) as [|w2 keep' send'] eqn:Hop; [discriminate|].
  intros [= -> -> ->]. revert Hop. unfold TF.opened.
  destruct (open_err e Todo || negb (isSome (file w0 Todo))) eqn:E1; [discriminate|].
  apply orb_false_iff in E1 as [_ E1].
  destruct (file w0 Todo) as [q|] eqn:Hq; [|discriminate].
  destruct (open_err e Res); [discriminate|].
  destruct (open_err e Sent); [discriminate|].
  destruct (read_err e Todo); [discriminate|].
  destruct (read_err e Res); [discriminate|].
  set (wc := create (create w0 Res) Sent).
  assert (HcT : content wc Todo = q).
  { unfold content, wc. rewrite !file_create_same by done. by rewrite Hq. }
  assert (HcR : file wc Res = Some (content w0 Res)).
  { unfold wc. rewrite file_create_same by done. apply content_create. }
  assert (HcS : file wc Sent = Some (content w0 Sent)).
  { unfold wc. rewrite content_create. unfold content.
    by rewrite file_create_same. }
  assert (HcR' : content wc Res = content w0 Res).
  { by unfold content at 1; rewrite HcR. }
  rewrite HcT, HcR'.
  destruct (nonEmpty _) eqn:Hne; [|discriminate].
  destruct (TF.filterResults _ _) as [[k s]|] eqn:Hfr; [|discriminate].
  intros [= <- <- <-]. simpl.
  destruct (file w0 Res) as [c|] eqn:Hc.
  2: { unfold content in Hne. rewrite Hc in Hne. discriminate. }
  unfold content in *. rewrite Hc in *. rewrite Hf in *.
  destruct (create_frame (create w0 Res) Sent) as (Hp1 & Ha1 & _).
  destruct (create_frame w0 Res) as (Hp2 & Ha2 & _).
  exists c, q. fold wc in Hp1, Ha1.
  rewrite Hp1, Ha1, Hp2, Ha2, Hp, Ha.
  split_and!; try done.
  - unfold wc. rewrite !file_create_same by done. by rewrite Hf.
  - by apply nonEmpty_true.
Qed.

Lemma content_Some w f c : file w f = Some c -> content w f = c.
Proof. unfold content. by intros ->. Qed.

Lemma LL_prepare_Ready e w w1 keep send :
  LL.prepare e w = Ready w1 keep send ->
  exists c,
    file w Res = Some c
    /\ file w1 Res = Some c /\ file w1 Todo = file w Todo
    /\ file w1 Sent = Some (content w Sent)
    /\ posted w1 = posted w /\ acked w1 = acked w
    /\ keep = [] /\ send = LL.resultReg_FindAll (Replace1 c cr nl)
    /\ send <> [].
Proof.
  unfold LL.prepare.
  destruct (lockFile e w LL.locks) as [[] w0] eqn:Hlock; [|discriminate].
  apply lockFile_frame in Hlock as (Hf & Hp & Ha & _).
  destruct (LL.opened e w0) as [|w2 keep' send'] eqn:Hop; [discriminate|].
  intros [= -> -> ->]. revert Hop. unfold LL.opened.
  destruct (open_err e Res); [discriminate|].
  destruct (read_err e Res); [discriminate|].
  destruct (open_err e Sent); [discriminate|].
  assert (HcR : content (create w0 Res) Res = content w0 Res).
  { unfold content at 1. by rewrite content_create. }
  rewrite HcR.
  destruct (nonEmpty _) eqn:Hne; [|discriminate].
  intros [= <- <- <-].
  destruct (file w0 Res) as [c|] eqn:Hc.
  2: { unfold content in Hne. rewrite Hc in Hne. discriminate. }
  destruct (create_frame (create w0 Res) Sent) as (Hp1 & Ha1 & _).
  destruct (create_frame w0 Res) as (Hp2 & Ha2 & _).
  exists c. rewrite Hp1, Ha1, Hp2, Ha2, Hp, Ha.
  assert (Hcc : content w0 Res = c) by (by apply content_Some).
  rewrite Hcc in *. rewrite <- Hf.
  split_and!; try done.
  - rewrite file_create_same by done. by rewrite content_create, Hcc.
  - rewrite !file_create_same by done. done.
  - rewrite content_create. unfold content.
    rewrite file_create_same by done. by rewrite Hf.
  - by apply nonEmpty_true.
Qed.

Lemma filter_sub {A} (f : A -> bool) (P : A -> Prop) l :
  Forall P l -> Forall P (List.filter f l).
Proof.
  induction 1; simpl; [constructor|]. destruct (f x); [constructor|]; done.
Qed.

Lemma TF_FindAll_match curr :
  Forall (fun r => TF.resultReg_Match r = true) (TF.resultReg_FindAll curr).
Proof.
  apply list.Forall_forall. intros r Hr.
  by apply list_elem_of_In, filter_In in Hr as [_ Hr].
Qed.

Lemma TF_filterResults_spec results todo :
  Forall (fun r => TF.resultReg_Match r = true) results ->
  TF.filterResults results todo =
    Some (List.filter (TF.inQueue todo) results,
          List.filter (fun r => negb (TF.inQueue todo r)) results).
Proof.
  intros H. unfold TF.filterResults.
  rewrite filterResults_loop_spec; [done| |].
  - eapply list.Forall_impl; [exact H|]. intros r. apply resultReg_Match_key.
  - intros a v. by rewrite lookup_empty.
Qed.

(** What both managers hold when the loop starts. *)
Lemma prepare_Ready m e w w1 keep send :
  prepareOf m e w = Ready w1 keep send ->
  file w1 Res = file w Res /\ is_Some (file w Res)
  /\ file w1 Sent = Some (content w Sent)
  /\ posted w1 = posted w /\ acked w1 = acked w
  /\ Forall isRecord send.
Proof.
  destruct m; simpl; intros H.
  - apply TF_prepare_Ready in H
      as (c & q & Hc & Hq & Hc1 & Hq1 & Hs & Hp & Ha & Hne & Hfr).
    rewrite Hc, Hc1. split_and!; eauto.
    rewrite TF_filterResults_spec in Hfr by apply TF_FindAll_match.
    injection Hfr as _ <-. apply filter_sub, TF_FindAll_records.
  - apply LL_prepare_Ready in H
      as (c & Hc & Hc1 & Hq1 & Hs & Hp & Ha & _ & -> & _).
    rewrite Hc, Hc1. split_and!; eauto. apply LL_FindAll_records.
Qed.

Lemma fold_accept chunks : forall w,
  file (fold_left acceptChunk chunks w) Res = file w Res
  /\ file (fold_left acceptChunk chunks w) Todo = file w Todo
  /\ lck (fold_left acceptChunk chunks w) = lck w
  /\ logged (fold_left acceptChunk chunks w) = logged w
  /\ posted (fold_left acceptChunk chunks w) = posted w ++ chunks
  /\ acked (fold_left acceptChunk chunks w) = acked w ++ chunks
  /\ content (fold_left acceptChunk chunks w) Sent = content w Sent ++ concat chunks
  /\ (is_Some (file w Sent) -> is_Some (file (fold_left acceptChunk chunks w) Sent)).
Proof.
  induction chunks as [|c chunks IH]; intros w; simpl.
  - rewrite !app_nil_r. done.
  - destruct (IH (acceptChunk w c)) as (-> & -> & -> & -> & -> & -> & -> & Hs).
    simpl. rewrite <- !app_assoc. split_and!; try done.
    + unfold content at 1. simpl. by rewrite <- app_assoc.
    + intros _. apply Hs. simpl. eauto.
Qed.

Lemma is_Some_content w f : is_Some (file w f) -> file w f = Some (content w f).
Proof. intros [c Hc]. by rewrite (content_Some _ _ _ Hc). Qed.

(** The state after some iterations of the loop. *)
Lemma iterates_state limit e results w i w2 i2 :
  iterates limit e results w i w2 i2 -> 0 <= i ->
  exists chunks,
    chunked limit (drop (Z.to_nat i) results) chunks (drop (Z.to_nat i2) results)
    /\ i2 = i + len (concat chunks)
    /\ file w2 Res = file w Res /\ file w2 Todo = file w Todo
    /\ lck w2 = lck w /\ logged w2 = logged w
    /\ posted w2 = posted w ++ chunks /\ acked w2 = acked w ++ chunks
    /\ content w2 Sent = content w Sent ++ concat chunks
    /\ (is_Some (file w Sent) -> is_Some (file w2 Sent)).
Proof.
  intros H Hi. destruct (iterates_chunked _ _ _ _ _ _ _ H Hi) as (chunks & Hch & -> & ->).
  exists chunks. split; [done|]. split; [done|]. apply fold_accept.
Qed.

Lemma sendResultsWith_Ready m limit e w w1 keep send :
  prepareOf m e w = Ready w1 keep send ->
  sendResultsWith m limit e w =
    let '(o, w2) :=
      match sendLoop limit (S (length (blobOf send))) e w1 (blobOf send) 0 with
      | (LoopFailed _, w2) => (Return false, w2)
      | (LoopFuel, w2) => (OutOfFuel, w2)
      | (LoopDone, w2) =>
          match m with
          | TFmanager => TF.finish e w2 keep send
          | LLmanager => LL.finish e w2
          end
      end in
    (o, unlockFile e w2 (locksOf m)).
Proof.
  destruct m; simpl; intros H.
  - unfold TF.sendResults_with. rewrite H. reflexivity.
  - unfold LL.sendResults_with. rewrite H. reflexivity.
Qed.

Lemma TF_finish_frame e w keep send :
  exists wf tail,
    TF.finish e w keep send = (Return true, wf)
    /\ posted wf = posted w /\ acked wf = acked w
    /\ file wf Todo = file w Todo
    /\ content wf Sent = content w Sent ++ tail
    /\ (is_Some (file w Sent) -> is_Some (file wf Sent)).
Proof.
  unfold TF.finish.
  set (w1 := if 0 <? len send then snd (sentWrite e w [nl]) else w).
  assert (H1 : posted w1 = posted w /\ acked w1 = acked w
               /\ file w1 Todo = file w Todo
               /\ (exists tail, content w1 Sent = content w Sent ++ tail)
               /\ (is_Some (file w Sent) -> is_Some (file w1 Sent))).
  { subst w1. destruct (0 <? len send).
    - destruct (sentWrite e w [nl]) as [r w2] eqn:Hsw. simpl.
      apply sentWrite_frame in Hsw as (Hf & _ & Hp & Ha & part & Hs).
      rewrite Hp, Ha, Hf by done. rewrite (content_Some _ _ _ Hs), Hs.
      split_and!; eauto.
    - split_and!; try done. exists []. by rewrite app_nil_r. }
  destruct H1 as (Hp & Ha & Ht & (tail & Hs) & Hsome).
  destruct (res_WriteAt e _ _) as [n err].
  destruct (_ && _); eexists _, tail; (split; [reflexivity|]);
    simpl; rewrite Hp, Ha; unfold content in *; simpl; split_and!; done.
Qed.

Lemma LL_finish_frame e w :
  exists wf tail,
    LL.finish e w = (Return true, wf)
    /\ posted wf = posted w /\ acked wf = acked w
    /\ file wf Todo = file w Todo
    /\ content wf Sent = content w Sent ++ tail
    /\ file wf Res = Some []
    /\ (is_Some (file w Sent) -> is_Some (file wf Sent)).
Proof.
  unfold LL.finish.
  destruct (sentWrite e w [nl]) as [r w2] eqn:Hsw. simpl.
  apply sentWrite_frame in Hsw as (Hf & _ & Hp & Ha & part & Hs).
  eexists _, part. split; [reflexivity|]. simpl.
  rewrite Hp, Ha, Hf by done. unfold content at 1. simpl. rewrite Hs.
  split_and!; eauto.
Qed.

Lemma finish_frame m e w keep send :
  exists wf tail,
    match m with
    | TFmanager => TF.finish e w keep send
    | LLmanager => LL.finish e w
    end = (Return true, wf)
    /\ posted wf = posted w /\ acked wf = acked w
    /\ content wf Sent = content w Sent ++ tail
    /\ (is_Some (file w Sent) -> is_Some (file wf Sent)).
Proof.
  destruct m.
  - destruct (TF_finish_frame e w keep send) as (wf & tail & ? & ? & ? & ? & ? & ?).
    by exists wf, tail.
  - destruct (LL_finish_frame e w) as (wf & tail & ? & ? & ? & ? & ? & ? & ?).
    by exists wf, tail.
Qed.

(** When the loop stops, nothing of a well-ended blob is left. *)
Lemma chunked_all limit blob chunks i2 :
  wellEnded blob ->
  chunked limit blob chunks (drop (Z.to_nat i2) blob) ->
  i2 = len (concat chunks) ->
  len blob - 1 <= i2 ->
  drop (Z.to_nat i2) blob = [].
Proof.
  intros Hwe Hch Hi Hstop.
  pose proof (chunked_concat _ _ _ _ Hch) as Hcat.
  pose proof (chunked_boundary _ _ _ _ Hch) as Hb.
  set (left := drop (Z.to_nat i2) blob) in *.
  assert (Hlen : len blob = len (concat chunks) + len left).
  { rewrite Hcat at 1. apply len_app. }
  destruct left as [|b left'] eqn:Hleft; [done|]. exfalso.
  assert (left' = []).
  { unfold len in *. simpl in *. destruct left'; [done|]. simpl in *. lia. }
  subst left'.
  destruct Hwe as [Hnil|(pre & a & b' & Hblob & Ha)].
  - rewrite Hnil in Hcat. by destruct (concat chunks).
  - rewrite Hblob in Hcat.
    replace (pre ++ [a; b']) with ((pre ++ [a]) ++ [b']) in Hcat
      by (by rewrite <- app_assoc).
    apply app_inj_tail in Hcat as [Hcat _].
    destruct Hb as [->|[?|Hl]]; [by destruct pre|done|].
    rewrite <- Hcat, last_snoc in Hl. congruence.
Qed.

Lemma drop_0' {A} (l : list A) : drop (Z.to_nat 0) l = l.
Proof. reflexivity. Qed.

Lemma sentWrite_logged e w p r w2 :
  sentWrite e w p = (r, w2) -> logged w2 = logged w.
Proof.
  unfold sentWrite. destruct (sent_Write e (content w Sent) p) as [k err].
  by intros [= <- <-].
Qed.

(** [sendResults] is the instance of the loop at [sendlimit]. *)
Lemma sendResults_sendlimit :
  TF.sendResults = sendResultsWith TFmanager sendlimit
  /\ LL.sendResults = sendResultsWith LLmanager sendlimit.
Proof. split; reflexivity. Qed.

(** A call that reaches the loop goes through some iterations and then
    either fails in one, or leaves the loop and finishes. *)
Lemma sendResults_cases m limit e w w1 keep send o w' :
  prepareOf m e w = Ready w1 keep send ->
  sendResultsWith m limit e w = (o, w') ->
  exists w2 i,
    iterates limit e (blobOf send) w1 0 w2 i
    /\ ((exists why w3, loop_step limit e w2 (blobOf send) i = Fail why w3
           /\ o = Return false /\ w' = unlockFile e w3 (locksOf m))
        \/ (loop_step limit e w2 (blobOf send) i = Stop
            /\ exists wf,
                 match m with
                 | TFmanager => TF.finish e w2 keep send
                 | LLmanager => LL.finish e w2
                 end = (o, wf)
                 /\ o = Return true /\ w' = unlockFile e wf (locksOf m))).
Proof.
  intros Hprep. rewrite (sendResultsWith_Ready _ _ _ _ _ _ _ Hprep).
  set (blob := blobOf send) in *.
  destruct (sendLoop limit (S (length blob)) e w1 blob 0) as [r wL] eqn:Hloop.
  assert (Hfuel : r <> LoopFuel).
  { pose proof (sendLoop_enough_fuel limit e blob (S (length blob)) w1 0
                  ltac:(lia) ltac:(unfold len; lia)) as Hf.
    by rewrite Hloop in Hf. }
  destruct (sendLoop_run _ _ _ _ _ _ _ _ Hloop Hfuel) as (w2 & i2 & Hit & Hlast).
  intros Hrun. exists w2, i2. split; [done|].
  destruct r as [|why|]; [| |done].
  - destruct Hlast as [Hstop ->]. right. split; [done|].
    destruct (finish_frame m e w2 keep send) as (wf & tail & Hfin & _).
    rewrite Hfin in Hrun |- *. injection Hrun as <- <-. by exists wf.
  - injection Hrun as <- <-. left. by exists why, wL.
Qed.

(** The chunks that a call posts. *)
Lemma sendResults_posted m limit e w w1 keep send o w' :
  prepareOf m e w = Ready w1 keep send ->
  sendResultsWith m limit e w = (o, w') ->
  exists chunks left,
    chunked limit (blobOf send) chunks left
    /\ posted w' = posted w ++ chunks
    /\ (o = Return true -> left = []).
Proof.
  intros Hprep Hrun.
  destruct (prepare_Ready _ _ _ _ _ _ Hprep) as (_ & _ & _ & HP & _ & Hrec).
  destruct (sendResults_cases _ _ _ _ _ _ _ _ _ Hprep Hrun)
    as (w2 & i2 & Hit & Hend).
  set (blob := blobOf send) in *.
  destruct (iterates_state _ _ _ _ _ _ _ Hit ltac:(lia))
    as (chunks & Hch & Hi & _ & _ & _ & _ & HP2 & _).
  rewrite drop_0' in Hch.
  assert (Hi0 : 0 <= i2) by (pose proof (len_nonneg (concat chunks)); lia).
  destruct Hend as [(why & w3 & Hfail & -> & ->)|(Hstop & wf & Hfin & -> & ->)].
  - destruct (unlockFile_frame e (locksOf m) w3) as (_ & -> & _).
    destruct (loop_step_Fail _ _ _ _ _ _ _ Hi0 Hfail) as (_ & _ & _ & _ & Hwhy).
    destruct why.
    + destruct Hwhy as (-> & _).
      exists chunks, (drop (Z.to_nat i2) blob). by rewrite HP2, HP.
    + destruct Hwhy as ((c & -> & Hc) & _).
      exists (chunks ++ [c]), (drop (Z.to_nat (i2 + len c)) blob).
      rewrite HP2, HP, <- app_assoc. split; [|done].
      by eapply chunked_app.
    + destruct Hwhy as ((c & -> & _ & Hc) & _).
      exists (chunks ++ [c]), (drop (Z.to_nat (i2 + len c)) blob).
      rewrite HP2, HP, <- app_assoc. split; [|done].
      by eapply chunked_app.
  - apply loop_step_Stop in Hstop.
    destruct (finish_frame m e w2 keep send) as (wf' & tail & Hfin' & HPf & _).
    rewrite Hfin in Hfin'. injection Hfin' as <-.
    destruct (unlockFile_frame e (locksOf m) wf) as (_ & -> & _).
    exists chunks, (drop (Z.to_nat i2) blob). rewrite HPf, HP2, HP.
    split; [done|]. split; [done|]. intros _.
    apply (chunked_all limit blob chunks i2);
      [by apply blobOf_wellEnded | done | lia | lia].
Qed.

(** The rewrite of the results file at the end of [TF.sendResults]. *)
Lemma TF_finish_res e w keep send n err :
  res_WriteAt e (content w Res) (Join keep [nl] ++ [nl]) = (n, err) ->
  exists wf,
    TF.finish e w keep send = (Return true, wf)
    /\ if (Z.of_nat (Nat.min n (length (Join keep [nl] ++ [nl])))
           =? len (Join keep [nl] ++ [nl])) && negb err
       then file wf Res = Some (Join keep [nl] ++ [nl])
            /\ logged wf = logged w
       else file wf Res =
              Some (overwrite (content w Res) (Join keep [nl] ++ [nl])
                      (Nat.min (res_reach e (content w Res) (Join keep [nl] ++ [nl]))
                               (length (Join keep [nl] ++ [nl]))))
            /\ logged wf = logged w ++
                 [LogKeptWriteError
                    (Z.of_nat (Nat.min n (length (Join keep [nl] ++ [nl]))))
                    (len (Join keep [nl] ++ [nl]))].
Proof.
  unfold TF.finish.
  set (w1 := if 0 <? len send then snd (sentWrite e w [nl]) else w).
  set (keepRes := Join keep [nl] ++ [nl]).
  assert (H1 : content w1 Res = content w Res /\ logged w1 = logged w).
  { subst w1. destruct (0 <? len send); [|done].
    destruct (sentWrite e w [nl]) as [r w2] eqn:Hsw. simpl.
    rewrite (sentWrite_logged _ _ _ _ _ Hsw).
    apply sentWrite_frame in Hsw as (Hf & _).
    unfold content. by rewrite Hf. }
  destruct H1 as [-> Hl]. intros ->.
  set (n' := Nat.min n (length keepRes)).
  destruct ((Z.of_nat n' =? len keepRes) && negb err) eqn:Hok;
    eexists; (split; [reflexivity|]); simpl.
  - apply andb_true_iff in Hok as [Hn He]. apply Z.eqb_eq in Hn.
    apply negb_true_iff in He. subst err.
    destruct (decide (Res = Res)); [|done]. split; [|done].
    unfold content. simpl. destruct (decide (Res = Res)); [|done].
    unfold len in Hn. rewrite reached_complete by (subst n'; lia).
    unfold overwrite, written. f_equal.
    rewrite take_app_le by (rewrite length_take; lia).
    rewrite take_take. replace (n' `min` length keepRes)%nat with (length keepRes) by lia.
    apply take_ge. lia.
  - destruct (decide (Res = Res)); [|done]. rewrite Hl. split; [|done].
    rewrite reached_failed; [done|].
    apply andb_false_iff in Hok as [Hn|He].
    + right. apply Z.eqb_neq in Hn. unfold len in Hn. subst n'. lia.
    + left. by destruct err.
Qed.

Lemma HasPrefix_Replace1_digits q k :
  Forall (fun c => isDigit c = true) k ->
  HasPrefix (Replace1 q cr nl) k = HasPrefix q k.
Proof.
  intros Hk. revert q. induction Hk as [|c k Hc _ IH]; intros q.
  - by destruct q.
  - destruct q as [|x q]; simpl; [done|]. rewrite IH. f_equal.
    destruct (Byte.eqb x cr) eqn:Ex.
    + apply byte_eqb_eq in Ex. subst x.
      destruct c; try discriminate Hc; reflexivity.
    + reflexivity.
Qed.

Lemma Contains_Replace1_digits q k :
  Forall (fun c => isDigit c = true) k ->
  Contains (Replace1 q cr nl) k = Contains q k.
Proof.
  intros Hk. induction q as [|x q IH].
  - reflexivity.
  - change (Replace1 (x :: q) cr nl)
      with ((if Byte.eqb x cr then nl else x) :: Replace1 q cr nl).
    change (Contains (?y :: ?t) k) with (HasPrefix (y :: t) k || Contains t k).
    cbn [Contains]. rewrite IH. f_equal.
    apply (HasPrefix_Replace1_digits (x :: q) k Hk).
Qed.

Lemma leadingDigits_digits b : Forall (fun c => isDigit c = true) (leadingDigits b).
Proof.
  induction b as [|x b IH]; simpl; [constructor|].
  destruct (isDigit x) eqn:E; [by constructor|constructor].
Qed.

Lemma key_digits r k : TF.key r = Some k -> Forall (fun c => isDigit c = true) k.
Proof.
  unfold TF.key. induction r as [|x r IH]; simpl; [discriminate|].
  destruct (_ && _); [|exact IH]. simpl. intros [= <-].
  rewrite drop_0. apply leadingDigits_digits.
Qed.

(** Replacing "\r" by "\n" in the queue text does not change which keys
    it holds. *)
Lemma inQueue_Replace1 q r : TF.inQueue (Replace1 q cr nl) r = TF.inQueue q r.
Proof.
  unfold TF.inQueue. destruct (TF.key r) as [k|] eqn:Hk; [|done].
  apply Contains_Replace1_digits. by eapply key_digits.
Qed.

Lemma content_create_same w f g : content (create w f) g = content w g.
Proof.
  unfold content. destruct (decide (f = g)) as [->|Hne].
  - by rewrite content_create.
  - by rewrite file_create_same.
Qed.




(** ** Lines that fit the ceiling *)

Lemma lines_nl_free l : nl ∉ l -> lines l = [l].
Proof.
  induction l as [|x l IH]; [done|]. intros H.
  apply not_elem_of_cons in H as [Hx Hl]. simpl.
  assert (E : Byte.eqb x nl = false) by (apply byte_eqb_neq; congruence).
  by rewrite E, (IH Hl).
Qed.

Lemma lines_nonempty b : lines b <> [].
Proof.
  destruct b as [|x b]; simpl; [done|].
  destruct (Byte.eqb x nl); [done|]. by destruct (lines b).
Qed.

Lemma lines_app_nl a b : lines (a ++ nl :: b) = lines a ++ lines b.
Proof.
  induction a as [|x a IH]; simpl; [done|].
  destruct (Byte.eqb x nl); simpl; [by rewrite IH|].
  rewrite IH. destruct (lines a) as [|l ls] eqn:E; [|done].
  by apply lines_nonempty in E.
Qed.

(** A newline-free start of a text is the start of its first line. *)
Lemma lines_head seg more :
  nl ∉ seg -> exists hd tl, lines (seg ++ more) = (seg ++ hd) :: tl.
Proof.
  induction seg as [|x seg IH]; intros H; simpl.
  - destruct (lines more) as [|hd tl] eqn:E; [by apply lines_nonempty in E|].
    by exists hd, tl.
  - apply not_elem_of_cons in H as [Hx Hs].
    assert (E : Byte.eqb x nl = false) by (apply byte_eqb_neq; congruence).
    rewrite E. destruct (IH Hs) as (hd & tl & ->). by exists hd, tl.
Qed.

Lemma lines_Join recs :
  recs <> [] -> Forall (fun r => nl ∉ r) recs -> lines (Join recs [nl]) = recs.
Proof.
  induction recs as [|r recs IH]; [done|]. intros _ H.
  inversion H as [|? ? Hr Hrecs]; subst.
  destruct recs as [|r' recs].
  - by apply lines_nl_free.
  - change (Join (r :: r' :: recs) [nl]) with (r ++ nl :: Join (r' :: recs) [nl]).
    rewrite lines_app_nl, (lines_nl_free r Hr), IH by done. done.
Qed.

(** In a text whose lines are all shorter than [n], a stretch of [n]
    bytes that starts a line holds a newline. *)
Lemma line_start_has_newline (n : nat) pre seg more :
  Forall (fun l => (length l < n)%nat) (lines (pre ++ seg ++ more)) ->
  pre = [] \/ list.last pre = Some nl ->
  length seg = n ->
  nl ∈ seg.
Proof.
  intros Hshort Hpre Hlen.
  destruct (decide (nl ∈ seg)) as [|Hnl]; [done|exfalso].
  destruct (lines_head seg more Hnl) as (hd & tl & Hl).
  assert (Hin : seg ++ hd ∈ lines (pre ++ seg ++ more)).
  { destruct Hpre as [->|Hlast].
    - simpl. rewrite Hl. by left.
    - apply last_Some in Hlast as [pre' ->]. rewrite <- app_assoc. simpl.
      rewrite lines_app_nl, Hl. apply elem_of_app. right. by left. }
  rewrite list.Forall_forall in Hshort. apply Hshort in Hin.
  rewrite length_app in Hin. lia.
Qed.

Lemma solid_length r : solid r -> (2 <= length r)%nat.
Proof.
  intros (pre & x & y & post & -> & _). rewrite length_app. simpl. lia.
Qed.

(** With a service that acknowledges, an iteration can only fail for
    want of a newline. *)
Lemma loop_step_acknowledged limit e w results i why w' :
  acknowledging e ->
  loop_step limit e w results i = Fail why w' -> why = LocError.
Proof.
  intros [Hack Hwr]. rewrite loop_step_eq.
  destruct (i <? len results - 1); [|discriminate]. cbv zeta.
  destruct (nextLoc limit results i <=? 0); [by intros [= <- _]|].
  set (c := slice results i (i + nextLoc limit results i)).
  unfold sendbatch. destruct (Hack (posted w) c) as (body & -> & ->).
  simpl. unfold sentWrite. simpl.
  destruct (Hwr (content w Sent) c) as (n & Hn & Hle).
  unfold content in Hn |- *. simpl. rewrite Hn.
  rewrite Nat.min_r by done. unfold len. rewrite Z.eqb_refl. discriminate.
Qed.

(** When every record is shorter than the ceiling, the loop finds a
    newline at every offset it reaches. *)
Lemma loop_step_finds_newline limit e w recs chunks i why w' :
  Forall isRecord recs ->
  Forall (fun r => len r < limit) recs ->
  chunked limit (blobOf recs) chunks (drop (Z.to_nat i) (blobOf recs)) ->
  i = len (concat chunks) ->
  loop_step limit e w (blobOf recs) i = Fail why w' ->
  why <> LocError.
Proof.
  intros Hrec Hfit Hch Hi Hfail ->.
  assert (Hi0 : 0 <= i) by (rewrite Hi; apply len_nonneg).
  destruct (loop_step_Fail _ _ _ _ _ _ _ Hi0 Hfail) as (_ & _ & _ & Hc & _ & _ & _ & Hloc & _).
  set (blob := blobOf recs) in *.
  set (rest := drop (Z.to_nat i) blob) in *.
  pose proof (chunked_concat _ _ _ _ Hch) as Hcat.
  assert (Hrest : len rest = len blob - i).
  { rewrite Hcat at 1. rewrite len_app. lia. }
  assert (Hne : recs <> []) by (intros ->; unfold len in *; simpl in *; lia).
  assert (Hlim : 2 < limit).
  { destruct recs as [|r recs]; [done|].
    inversion Hrec as [|? ? [_ Hs] _]; inversion Hfit; subst.
    apply solid_length in Hs. unfold len in *. lia. }
  unfold nextLoc, slice_from in Hloc. fold rest in Hloc. rewrite slice_eq in Hloc.
  fold rest in Hloc.
  destruct (len rest >? limit) eqn:Hgt; [|lia].
  apply Z.gtb_lt in Hgt.
  pose proof (LastIndexByte_range (take (Z.to_nat limit) rest) nl) as Hr.
  apply (LastIndexByte_present (take (Z.to_nat limit) rest) nl); [lia|].
  destruct (TrimRight_prefix (Join recs [nl]) [sp; nl]) as [trail Htrail].
  fold (blobOf recs) in Htrail. fold blob in Htrail.
  apply (line_start_has_newline (Z.to_nat limit) (concat chunks)
           (take (Z.to_nat limit) rest) (drop (Z.to_nat limit) rest ++ trail)).
  - rewrite (app_assoc (take _ rest)), take_drop, app_assoc, <- Hcat, <- Htrail.
    rewrite lines_Join; [|done|].
    + eapply list.Forall_impl; [exact Hfit|]. intros r Hr'. unfold len in Hr'. lia.
    + eapply list.Forall_impl; [exact Hrec|]. by intros r [? _].
  - destruct (chunked_boundary _ _ _ _ Hch) as [->|[Hnil|Hlast]].
    + by left.
    + fold rest in Hnil. rewrite Hnil in Hrest. unfold len in Hrest at 1.
      simpl in Hrest. lia.
    + by right.
  - rewrite length_take. unfold len in *. lia.
Qed.

(** With a service that acknowledges and records that fit the ceiling,
    the call succeeds. *)
Lemma sendResults_succeeds m limit e w w1 keep send o w' :
  acknowledging e ->
  Forall (fun r => len r < limit) send ->
  prepareOf m e w = Ready w1 keep send ->
  sendResultsWith m limit e w = (o, w') ->
  o = Return true.
Proof.
  intros Hack Hfit Hprep Hrun.
  destruct (prepare_Ready _ _ _ _ _ _ Hprep) as (_ & _ & _ & _ & _ & Hrec).
  destruct (sendResults_cases _ _ _ _ _ _ _ _ _ Hprep Hrun)
    as (w2 & i2 & Hit & [(why & w3 & Hfail & _)|(_ & _ & _ & -> & _)]); [|done].
  destruct (iterates_chunked _ _ _ _ _ _ _ Hit ltac:(lia)) as (chunks & Hch & Hi & _).
  rewrite drop_0' in Hch.
  pose proof (loop_step_acknowledged _ _ _ _ _ _ _ Hack Hfail) as Hwhy.
  by eapply loop_step_finds_newline in Hfail.
Qed.

Lemma TF_opened_returns e w o wA :
  TF.opened e w = Abort o wA -> exists b, o = Return b.
Proof.
  unfold TF.opened.
  repeat match goal with
         | |- context [if ?c then _ else _] => destruct c
         end; try (intros [= <- _]; eauto).
  rewrite TF_filterResults_spec by apply TF_FindAll_match. discriminate.
Qed.

Lemma LL_opened_returns e w o wA :
  LL.opened e w = Abort o wA -> exists b, o = Return b.
Proof.
  unfold LL.opened.
  repeat match goal with
         | |- context [if ?c then _ else _] => destruct c
         end; intros [= <- _]; eauto.
Qed.

Lemma prepare_returns m e w o wA :
  prepareOf m e w = Abort o wA -> exists b, o = Return b.
Proof.
  destruct m; simpl.
  - unfold TF.prepare. destruct (lockFile e w TF.locks) as [[] w0].
    + destruct (TF.opened e w0) eqn:Hop; [|discriminate].
      intros [= <- _]. by eapply TF_opened_returns.
    + intros [= <- _]. eauto.
  - unfold LL.prepare. destruct (lockFile e w LL.locks) as [[] w0].
    + destruct (LL.opened e w0) eqn:Hop; [|discriminate].
      intros [= <- _]. by eapply LL_opened_returns.
    + intros [= <- _]. eauto.
Qed.

(** X1. [sendResults] always returns, in both managers and for every
    state and environment: the records that [FindAll] hands to
    [filterResults] have a key, so [asgn[1:]] does not panic, and the
    loop ends. *)
Lemma sendResults_returns m limit e w :
  exists b w', sendResultsWith m limit e w = (Return b, w').
Proof.
  destruct (sendResultsWith m limit e w) as [o w'] eqn:Hrun.
  destruct (prepareOf m e w) as [o1 wA|w1 keep send] eqn:Hprep.
  - assert (o = o1 /\ w' = wA) as [-> ->].
    { destruct m; simpl in *;
        [unfold TF.sendResults_with in Hrun|unfold LL.sendResults_with in Hrun];
        rewrite Hprep in Hrun; by injection Hrun as <- <-. }
    destruct (prepare_returns _ _ _ _ _ Hprep) as [b ->]. eauto.
  - destruct (sendResults_cases _ _ _ _ _ _ _ _ _ Hprep Hrun)
      as (w2 & i2 & _ & [(why & w3 & _ & -> & _)|(_ & wf & _ & -> & _)]); eauto.
Qed.

(** ** Reconciliation and submission *)

(** C1. When a chunk submission fails in [sendResults] (the reply lacks
    the acknowledgment token, the transport fails, or the loop finds no
    newline to split on), the call returns [false], the results file is
    left as it was, and the ledger holds, behind its earlier contents,
    the chunks that were acknowledged before the failure. This holds for
    both managers and for every ceiling, [sendlimit] included. *)
Theorem failed_submission_keeps_results
    (m : manager) (limit : Z) (e : Env) (w w1 : World) (keep send : list bytes)
    (w2 : World) (i : Z) (why : failure) (w3 : World) :
  prepareOf m e w = Ready w1 keep send ->
  iterates limit e (blobOf send) w1 0 w2 i ->
  loop_step limit e w2 (blobOf send) i = Fail why w3 ->
  exists w' accepted,
    sendResultsWith m limit e w = (Return false, w')
    /\ file w' Res = file w Res
    /\ acked w' = acked w ++ accepted
    /\ (exists tail, file w' Sent = Some (content w Sent ++ tail))
    /\ (why <> LedgerWriteFailed ->
        file w' Sent = Some (content w Sent ++ concat accepted)).
Proof.
  intros Hprep Hit Hfail.
  destruct (prepare_Ready _ _ _ _ _ _ Hprep) as (HR & _ & HS & HP & HA & _).
  destruct (iterates_state _ _ _ _ _ _ _ Hit ltac:(lia))
    as (chunks & Hch & Hi & HR2 & _ & _ & _ & HP2 & HA2 & HS2 & HSome).
  assert (Hi0 : 0 <= i) by (pose proof (len_nonneg (concat chunks)); lia).
  destruct (loop_step_Fail _ _ _ _ _ _ _ Hi0 Hfail) as (HR3 & _ & _ & _ & Hwhy).
  rewrite (sendResultsWith_Ready _ _ _ _ _ _ _ Hprep).
  rewrite (sendLoop_fails _ _ _ _ _ _ _ _ Hit Hfail).
  destruct (unlockFile_frame e (locksOf m) w3) as (Hf & _ & Ha & _).
  assert (HS2' : file w2 Sent = Some (content w Sent ++ concat chunks)).
  { rewrite is_Some_content by (apply HSome; rewrite HS; eauto).
    rewrite HS2. by rewrite (content_Some _ _ _ HS). }
  exists (unlockFile e w3 (locksOf m)).
  destruct why.
  - destruct Hwhy as (_ & Ha3 & Hs3 & _).
    exists chunks. rewrite Hf, Ha, HR3, HR2, HR, Ha3, HA2, HA, Hs3, HS2'.
    split_and!; eauto.
  - destruct Hwhy as (_ & Ha3 & Hs3).
    exists chunks. rewrite Hf, Ha, HR3, HR2, HR, Ha3, HA2, HA, Hs3, HS2'.
    split_and!; eauto.
  - destruct Hwhy as ((c & _ & Ha3 & _) & part & Hs3).
    exists (chunks ++ [c]). rewrite Hf, Ha, HR3, HR2, HR, Ha3, HA2, HA, Hs3.
    rewrite (content_Some _ _ _ HS2'), <- !app_assoc.
    split_and!; eauto. done.
Qed.

Lemma failed_submission_witness :
  exists w' accepted,
    sendResultsWith TFmanager sendlimit rejectEnv
      (world0 (Some []) (Some (B "no factor for M12345 from 2^70 to 2^71" ++ [nl])))
    = (Return false, w')
    /\ file w' Res = Some (B "no factor for M12345 from 2^70 to 2^71" ++ [nl])
    /\ acked w' = [] ++ accepted
    /\ (exists tail, file w' Sent = Some ([] ++ tail))
    /\ (SendFailed <> LedgerWriteFailed -> file w' Sent = Some ([] ++ concat accepted)).
Proof.
  eapply (failed_submission_keeps_results TFmanager sendlimit rejectEnv
            (world0 (Some []) (Some (B "no factor for M12345 from 2^70 to 2^71" ++ [nl])))).
  - vm_compute. reflexivity.
  - apply iterates_here.
  - vm_compute. reflexivity.
Defined.

Lemma filter_sublist {A} (f : A -> bool) (l : list A) : sublist (List.filter f l) l.
Proof.
  induction l as [|x l IH]; simpl; [constructor|].
  destruct (f x); by constructor.
Qed.

Lemma elem_of_filter_bool {A} (f : A -> bool) (l : list A) x :
  x ∈ List.filter f l <-> x ∈ l /\ f x = true.
Proof. rewrite !list_elem_of_In. apply filter_In. Qed.




(** A "keep" record that is lost: the rewrite of the results file fails
    after ten bytes (and returns the count 0); the call returns [true],
    the record of exponent 999, whose key is in the queue, was not
    posted, and the results file no longer holds it. *)
Example kept_record_lost_ex :
  let w' := snd (TF.sendResults (shortWriteEnv 10 0) keptSecond) in
  fst (TF.sendResults (shortWriteEnv 10 0) keptSecond) = Return true
  /\ posted w' = [B "M5 b"]
  /\ file w' Res = Some (B "M999 has ahas a factor: 12345" ++ [nl])
  /\ list.last (logged w') = Some (LogKeptWriteError 0 25).
Proof. vm_compute. repeat split; reflexivity. Qed.

(** C3. [filterResults] goes through the records in order; a record goes
    to "keep" exactly when its key occurs in the queue text and to
    "send" otherwise, so every occurrence of a key is classified as the
    first one was; "keep" and "send" hold their records in the order of
    the input. *)
Theorem filterResults_classifies (results : list bytes) (todo : bytes) :
  Forall (fun r => TF.resultReg_Match r = true) results ->
  exists keep send,
    TF.filterResults results todo = Some (keep, send)
    /\ keep = List.filter (TF.inQueue todo) results
    /\ send = List.filter (fun r => negb (TF.inQueue todo r)) results
    /\ (forall r, r ∈ results ->
          exists k, TF.key r = Some k
            /\ (r ∈ keep <-> Contains todo k = true)
            /\ (r ∈ send <-> Contains todo k = false))
    /\ (forall r r', r ∈ results -> r' ∈ results -> TF.key r = TF.key r' ->
          (r ∈ keep <-> r' ∈ keep) /\ (r ∈ send <-> r' ∈ send))
    /\ sublist keep results /\ sublist send results.
Proof.
  intros Hrec. eexists _, _. split; [by apply TF_filterResults_spec|].
  split; [done|]. split; [done|].
  assert (Hq : forall r r', TF.key r = TF.key r' ->
                 TF.inQueue todo r = TF.inQueue todo r').
  { intros r r' Hk. unfold TF.inQueue. by rewrite Hk. }
  split; [|split; [|split; apply filter_sublist]].
  - intros r Hr. rewrite list.Forall_forall in Hrec.
    destruct (resultReg_Match_key r (Hrec r Hr)) as [a Ha].
    exists (drop 1 a). unfold TF.key at 1. rewrite Ha. split; [done|].
    rewrite !elem_of_filter_bool, (inQueue_Some todo r a Ha).
    destruct (Contains todo (drop 1 a)); simpl; intuition congruence.
  - intros r r' Hr Hr' Hk. rewrite !elem_of_filter_bool, (Hq r r' Hk).
    tauto.
Qed.

Lemma filterResults_witness :
  exists keep send,
    TF.filterResults [B "M12 a"; B "M5 b"; B "M12 c"] (B "Factor=N/A,12,70,71")
      = Some (keep, send)
    /\ keep = [B "M12 a"; B "M12 c"] /\ send = [B "M5 b"].
Proof.
  destruct (filterResults_classifies
              [B "M12 a"; B "M5 b"; B "M12 c"] (B "Factor=N/A,12,70,71"))
    as (keep & send & Hf & Hk & Hs & _).
  - repeat constructor.
  - exists keep, send. split; [exact Hf|]. split; [exact Hk|exact Hs].
Defined.

(** C4. The chunks that [sendResults] posts are consecutive pieces of
    the blob, in order; none is empty or longer than the ceiling; every
    chunk that is followed by another one ends with a newline; when the
    call succeeds the chunks put together are the whole blob; and the
    call does succeed when the service acknowledges every chunk and
    every record is shorter than the ceiling. This holds for both
    managers and for every ceiling, [sendlimit] included. *)
Theorem chunks_bounded_aligned_complete
    (m : manager) (limit : Z) (e : Env) (w w1 : World) (keep send : list bytes)
    (o : outcome) (w' : World) :
  prepareOf m e w = Ready w1 keep send ->
  sendResultsWith m limit e w = (o, w') ->
  exists chunks left,
    posted w' = posted w ++ chunks
    /\ blobOf send = concat chunks ++ left
    /\ Forall (fun c => 0 < len c <= limit) chunks
    /\ splitsAtNewlines chunks
    /\ (o = Return true -> left = [])
    /\ (acknowledging e -> Forall (fun r => len r < limit) send ->
        o = Return true).
Proof.
  intros Hprep Hrun.
  destruct (sendResults_posted _ _ _ _ _ _ _ _ _ Hprep Hrun)
    as (chunks & left & Hch & Hp & Hall).
  exists chunks, left. split; [done|].
  split; [by apply chunked_concat in Hch|].
  split; [by eapply chunked_bounds|].
  split; [by eapply chunked_splits|].
  split; [done|].
  intros Hack Hfit. by eapply sendResults_succeeds.
Qed.

Lemma chunks_witness :
  exists w1 keep send o w',
    prepareOf TFmanager okEnv threeRecords = Ready w1 keep send
    /\ sendResultsWith TFmanager 10 okEnv threeRecords = (o, w')
    /\ exists chunks left,
         posted w' = posted threeRecords ++ chunks
         /\ blobOf send = concat chunks ++ left
         /\ Forall (fun c => 0 < len c <= 10) chunks
         /\ splitsAtNewlines chunks
         /\ (o = Return true -> left = [])
         /\ (acknowledging okEnv -> Forall (fun r => len r < 10) send ->
             o = Return true).
Proof.
  eexists _, _, _, _, _. split; [vm_compute; reflexivity|].
  split; [vm_compute; reflexivity|].
  eapply (chunks_bounded_aligned_complete TFmanager 10 okEnv threeRecords);
    vm_compute; reflexivity.
Defined.

Lemma loop_step_oversized limit e w results i :
  0 < limit -> 0 <= i -> limit < len results - i ->
  nl ∉ slice results i (i + limit) ->
  loop_step limit e w results i =
    Fail LocError (addLog w (LogLocError 0 i (len results - i))).
Proof.
  intros Hlim Hi Hlen Hnl. rewrite loop_step_eq.
  assert (Hc : (i <? len results - 1) = true) by (apply Z.ltb_lt; lia).
  rewrite Hc. cbv zeta. unfold nextLoc.
  rewrite slice_from_len by lia.
  assert (Hgt : (len results - i >? limit) = true) by (apply Z.gtb_lt; lia).
  rewrite Hgt, (LastIndexByte_absent _ _ Hnl). reflexivity.
Qed.

(** C5. When what is left of the blob is longer than the ceiling and has
    no newline within its first ceiling bytes, the loop fails at once:
    nothing more is posted or written to the ledger, "Loc error" is
    logged, and the call returns [false] with the results file as it
    was. This holds for both managers and for every positive ceiling,
    [sendlimit] included. *)
Theorem oversized_record_fails
    (m : manager) (limit : Z) (e : Env) (w w1 : World) (keep send : list bytes)
    (w2 : World) (i : Z) :
  0 < limit ->
  prepareOf m e w = Ready w1 keep send ->
  iterates limit e (blobOf send) w1 0 w2 i ->
  limit < len (blobOf send) - i ->
  nl ∉ slice (blobOf send) i (i + limit) ->
  exists w',
    sendResultsWith m limit e w = (Return false, w')
    /\ posted w' = posted w2 /\ acked w' = acked w2
    /\ file w' Sent = file w2 Sent
    /\ file w' Res = file w Res
    /\ logged w' = logged w2 ++ [LogLocError 0 i (len (blobOf send) - i)].
Proof.
  intros Hlim Hprep Hit Hlen Hnl.
  destruct (prepare_Ready _ _ _ _ _ _ Hprep) as (HR & _).
  destruct (iterates_state _ _ _ _ _ _ _ Hit ltac:(lia))
    as (chunks & _ & Hi & HR2 & _).
  assert (Hi0 : 0 <= i) by (pose proof (len_nonneg (concat chunks)); lia).
  pose proof (loop_step_oversized limit e w2 _ i Hlim Hi0 Hlen Hnl) as Hfail.
  rewrite (sendResultsWith_Ready _ _ _ _ _ _ _ Hprep).
  rewrite (sendLoop_fails _ _ _ _ _ _ _ _ Hit Hfail).
  eexists. split; [reflexivity|].
  destruct (unlockFile_frame e (locksOf m) (addLog w2 (LogLocError 0 i (len (blobOf send) - i))))
    as (-> & -> & -> & ->).
  simpl. by rewrite HR2, HR.
Qed.

Lemma oversized_record_witness :
  exists w1 keep send,
    prepareOf TFmanager okEnv oneRecord = Ready w1 keep send
    /\ 10 < len (blobOf send) - 0
    /\ (nl ∉ slice (blobOf send) 0 (0 + 10))
    /\ exists w',
         sendResultsWith TFmanager 10 okEnv oneRecord = (Return false, w')
         /\ posted w' = posted w1 /\ acked w' = acked w1
         /\ file w' Sent = file w1 Sent
         /\ file w' Res = file oneRecord Res
         /\ logged w' = logged w1 ++ [LogLocError 0 0 (len (blobOf send) - 0)].
Proof.
  eexists _, _, _. split; [vm_compute; reflexivity|].
  assert (Hnl : nl ∉ slice (blobOf [B "no factor for M12345 from 2^70 to 2^71"])
                    0 (0 + 10)).
  { apply (bool_decide_unpack _). vm_compute. exact I. }
  split; [vm_compute; reflexivity|]. split; [exact Hnl|].
  eapply (oversized_record_fails TFmanager 10 okEnv oneRecord).
  - lia.
  - vm_compute. reflexivity.
  - apply iterates_here.
  - vm_compute. reflexivity.
  - exact Hnl.
Defined.

(** A loop that stops has posted, in order, the whole blob, and the
    ledger has it behind its earlier contents. *)
Lemma loop_complete m limit e w w1 keep send w2 i :
  prepareOf m e w = Ready w1 keep send ->
  iterates limit e (blobOf send) w1 0 w2 i ->
  loop_step limit e w2 (blobOf send) i = Stop ->
  exists chunks,
    concat chunks = blobOf send
    /\ posted w2 = posted w ++ chunks /\ acked w2 = acked w ++ chunks
    /\ file w2 Sent = Some (content w Sent ++ concat chunks)
    /\ file w2 Res = file w Res
    /\ logged w2 = logged w1
    /\ sendLoop limit (S (length (blobOf send))) e w1 (blobOf send) 0
       = (LoopDone, w2).
Proof.
  intros Hprep Hit Hstop.
  destruct (prepare_Ready _ _ _ _ _ _ Hprep) as (HR & _ & HS & HP & HA & Hrec).
  destruct (iterates_state _ _ _ _ _ _ _ Hit ltac:(lia))
    as (chunks & Hch & Hi & HR2 & _ & _ & HL2 & HP2 & HA2 & HS2 & HSome).
  rewrite drop_0' in Hch.
  exists chunks. rewrite HP2, HA2, HR2, HP, HA, HR, HL2.
  rewrite (is_Some_content w2 Sent) by (apply HSome; rewrite HS; eauto).
  rewrite HS2, (content_Some _ _ _ HS).
  rewrite (sendLoop_stops _ _ _ _ _ _ Hit Hstop).
  split_and!; try done.
  pose proof (chunked_concat _ _ _ _ Hch) as Hcat.
  rewrite (chunked_all limit (blobOf send) chunks i) in Hcat.
  - by rewrite app_nil_r in Hcat.
  - by apply blobOf_wellEnded.
  - done.
  - lia.
  - by apply loop_step_Stop in Hstop.
Qed.


(** C10. In [TF.sendResults], once every chunk has gone out, a failed or
    short rewrite of the results file is only logged, with the count that
    [WriteAt] returned: the file is not truncated (the bytes that the
    write put down, [k] of them, whatever count it returned, stand at the
    head of the file, and the rest is left as it was), and the call still
    returns [true]. *)
Theorem kept_write_failure_still_succeeds
    (limit : Z) (e : Env) (w w1 : World) (keep send : list bytes) (w2 : World)
    (i : Z) (n : nat) (err : bool) :
  TF.prepare e w = Ready w1 keep send ->
  iterates limit e (blobOf send) w1 0 w2 i ->
  loop_step limit e w2 (blobOf send) i = Stop ->
  res_WriteAt e (content w Res) (Join keep [nl] ++ [nl]) = (n, err) ->
  err = true \/ (n < length (Join keep [nl] ++ [nl]))%nat ->
  exists w' earlier k,
    TF.sendResults_with limit e w = (Return true, w')
    /\ k = Nat.min (res_reach e (content w Res) (Join keep [nl] ++ [nl]))
                   (length (Join keep [nl] ++ [nl]))
    /\ file w' Res =
         Some (take k (Join keep [nl] ++ [nl]) ++ drop k (content w Res))
    /\ logged w' = earlier ++
         [LogKeptWriteError
            (Z.of_nat (Nat.min n (length (Join keep [nl] ++ [nl]))))
            (len (Join keep [nl] ++ [nl]))].
Proof.
  intros Hprep Hit Hstop Hwr Hbad.
  destruct (loop_complete TFmanager _ _ _ _ _ _ _ _ Hprep Hit Hstop)
    as (chunks & _ & _ & _ & _ & HR & _ & Hloop).
  unfold TF.sendResults_with. rewrite Hprep. cbv zeta. rewrite Hloop.
  set (keepRes := Join keep [nl] ++ [nl]) in *.
  assert (Hwr' : res_WriteAt e (content w2 Res) keepRes = (n, err)).
  { unfold content. by rewrite HR. }
  destruct (TF_finish_res e w2 keep send n err Hwr') as (wf & Hfin & Hres).
  fold keepRes in Hres. rewrite Hfin.
  destruct (unlockFile_frame e TF.locks wf) as (Hf & _ & _ & Hl).
  eexists (unlockFile e wf TF.locks), (logged w2), _. rewrite Hf, Hl.
  assert (Hcond : (Z.of_nat (Nat.min n (length keepRes)) =? len keepRes)
                  && negb err = false).
  { destruct Hbad as [->|Hlt]; [apply andb_false_r|].
    apply andb_false_iff. left. apply Z.eqb_neq. unfold len. lia. }
  rewrite Hcond in Hres. destruct Hres as [-> ->].
  split; [done|]. split; [reflexivity|]. split; [|done].
  unfold overwrite, written, content. by rewrite HR.
Qed.



Lemma kept_write_failure_witness :
  exists w1 keep send w' earlier k,
    TF.prepare (shortWriteEnv 10 0) queuedRecord = Ready w1 keep send
    /\ TF.sendResults_with sendlimit (shortWriteEnv 10 0) queuedRecord
       = (Return true, w')
    /\ k = Nat.min 10 (length (Join keep [nl] ++ [nl]))
    /\ file w' Res =
         Some (take k (Join keep [nl] ++ [nl]) ++ drop k (content queuedRecord Res))
    /\ logged w' = earlier ++
         [LogKeptWriteError
            (Z.of_nat (Nat.min 0 (length (Join keep [nl] ++ [nl]))))
            (len (Join keep [nl] ++ [nl]))].
Proof.
  eexists _, _, _.
  edestruct (kept_write_failure_still_succeeds sendlimit (shortWriteEnv 10 0)
               queuedRecord) as (w' & earlier & k & H).
  - vm_compute. reflexivity.
  - eapply iterates_next; [vm_compute; reflexivity|apply iterates_here].
  - vm_compute. reflexivity.
  - reflexivity.
  - left. reflexivity.
  - exists w', earlier, k. split; [vm_compute; reflexivity|exact H].
Defined.

(** ** Refill and polling *)

Lemma existsb_eq_elem (x : bytes) (l : list bytes) :
  existsb (fun y => bool_decide (x = y)) l = true <-> x ∈ l.
Proof.
  rewrite existsb_exists. split.
  - intros (y & Hy & Hxy). apply bool_decide_eq_true in Hxy. subst.
    by apply list_elem_of_In.
  - intros Hx. exists x. split; [by apply list_elem_of_In|].
    by apply bool_decide_eq_true.
Qed.

Lemma filterDups_spec w : forall w2,
  NoDup w2 ->
  NoDup (TF.filterDups w w2)
  /\ (forall x, x ∈ TF.filterDups w w2 <-> x ∈ w2 \/ x ∈ w)
  /\ (w2 = [] -> w <> [] -> TF.filterDups w w2 <> []).
Proof.
  induction w as [|y w IH]; intros w2 Hnd; simpl.
  - split; [done|]. split; [|done]. intros x. rewrite elem_of_nil. tauto.
  - destruct (existsb _ w2) eqn:Hex.
    + apply existsb_eq_elem in Hex.
      destruct (IH w2 Hnd) as (H1 & H2 & _). split; [done|]. split.
      * intros x. rewrite H2, elem_of_cons. intuition congruence.
      * intros ->. by apply elem_of_nil in Hex.
    + assert (Hy : y ∉ w2).
      { intros Hin. apply existsb_eq_elem in Hin. congruence. }
      assert (Hnd' : NoDup (w2 ++ [y])).
      { apply list.NoDup_app. split; [done|]. split; [|apply list.NoDup_singleton].
        intros x Hx Hx'. apply list_elem_of_singleton in Hx'. by subst. }
      destruct (IH (w2 ++ [y]) Hnd') as (H1 & H2 & _). split; [done|]. split.
      * intros x. rewrite H2, elem_of_app, !elem_of_cons, elem_of_nil. tauto.
      * intros _ _ Hnil.
        assert (Hin : y ∈ TF.filterDups w (w2 ++ [y])).
        { apply H2. left. apply elem_of_app. right. by left. }
        rewrite Hnil in Hin. by apply elem_of_nil in Hin.
Qed.




(** [setTargets] leaves a record alone unless its last field reads
    lower than the target. *)
Lemma setTarget_unchanged (dev : device) (r : bytes) :
  Target dev <= uint_of_int (Atoi (TF.lastField r)) -> TF.setTarget dev r = r.
Proof.
  intros H. unfold TF.setTarget, TF.lastField in *.
  destruct (_ <? _) eqn:E; [|done]. apply Z.ltb_lt in E. lia.
Qed.

(** When the last field is as long as the target's decimal text, it is
    replaced by that text: this is the case the code is written for. *)
Lemma setTarget_same_width (dev : device) (r : bytes) :
  length (TF.lastField r) = length (Sprint (Target dev)) ->
  uint_of_int (Atoi (TF.lastField r)) < Target dev ->
  TF.setTarget dev r =
    slice r 0 (LastIndex r [comma] + 1) ++ Sprint (Target dev).
Proof.
  intros Hlen Hlt. unfold TF.setTarget, TF.lastField in *.
  apply Z.ltb_lt in Hlt. rewrite Hlt. f_equal. unfold copy.
  rewrite Hlen, take_ge, drop_ge by lia. apply app_nil_r.
Qed.

(** C6 (the code fails it). With the default target 73, a record whose
    last field is the one digit "9" gets only the first byte of "73":
    the field becomes "7", lower than it was. *)
Theorem setTargets_lowers_short_field :
  TF.setTargets (mkDevice 5 73) [B "Factor=N/A,1000003,8,9"]
    = [B "Factor=N/A,1000003,8,7"]
  /\ Atoi (TF.lastField (B "Factor=N/A,1000003,8,9")) = 9
  /\ Atoi (TF.lastField
             (TF.setTarget (mkDevice 5 73) (B "Factor=N/A,1000003,8,9"))) = 7
  /\ TF.workReg_FindAll (B "Factor=N/A,1000003,8,9")
       = [B "Factor=N/A,1000003,8,9"].
Proof. vm_compute. repeat split; reflexivity. Qed.

(** C8 (the code fails it in TFmanager). After a cycle in which the login
    and every device succeed, with a polling interval of zero, TFmanager
    leaves its loop by [break] and reaches [log.Fatal]; the clLucas
    manager returns from [main]. *)
Theorem single_shot_exit (sett : settings) (c : cycle) (rest : list cycle) :
  Polltime sett = 0 ->
  login_ok c = true ->
  forallb update_ok (updates c) = true ->
  TF.main false sett (c :: rest) = Some ExitFatal
  /\ LL.main false sett (c :: rest) = Some ExitNormal.
Proof.
  intros Hp Hl Hu. unfold TF.main, LL.main. simpl.
  rewrite Hl, Hu, Hp. simpl. done.
Qed.

Lemma single_shot_exit_witness :
  TF.main false (mkSettings false true 0) [mkCycle true [(true, true)]]
    = Some ExitFatal
  /\ LL.main false (mkSettings false true 0) [mkCycle true [(true, true)]]
    = Some ExitNormal.
Proof.
  apply (single_shot_exit (mkSettings false true 0) (mkCycle true [(true, true)]) []);
    reflexivity.
Defined.

(** TFmanager never ends by returning from [main], whatever the cycles
    are, unless it was started to write its settings. *)
Lemma TF_main_never_normal (sett : settings) (script : list cycle) :
  TF.main false sett script <> Some ExitNormal.
Proof.
  unfold TF.main. by destruct (TF.polling sett script 0).
Qed.

(** * Further properties

    Locks, the assignment pattern, refill, polling and the runs of
    [sendResults] as a whole. *)

(** ** Lock markers *)

Lemma lck_unlockFile e fnames : forall w f,
  lck (unlockFile e w fnames) f
  = lck w f && negb (bool_decide (f ∈ fnames) && negb (unmark_err e f)).
Proof.
  unfold unlockFile.
  induction fnames as [|g fnames IH]; intros w f; cbn [fold_left].
  - rewrite bool_decide_eq_false_2 by apply not_elem_of_nil.
    by rewrite andb_true_r.
  - rewrite IH.
    destruct (decide (f = g)) as [->|Hne].
    + rewrite (bool_decide_eq_true_2 (g ∈ g :: fnames)) by left.
      destruct (unmark_err e g) eqn:E; cbn [negb andb].
      * by rewrite andb_false_r.
      * cbn [setLck lck]. destruct (decide (g = g)); [|done].
        by rewrite andb_false_r.
    + assert (Hw : lck (if unmark_err e g then w else setLck w g false) f = lck w f).
      { destruct (unmark_err e g); [done|]. cbn [setLck lck].
        by destruct (decide (f = g)). }
      rewrite Hw. f_equal. f_equal. f_equal. apply bool_decide_ext.
      rewrite elem_of_cons. tauto.
Qed.

(** [lockFile] from the inside: when it fails at the name [g], the names
    [taken] before it had no marker, and their markers are removed again
    unless the removal fails. *)
Lemma lockFile_from_lck e fnames : forall w held b w',
  lockFile_from e w held fnames = (b, w') ->
  (b = true <->
     NoDup fnames /\ forall f, f ∈ fnames -> lck w f = false /\ mark_err e f = false)
  /\ (b = true -> forall f, lck w' f = lck w f || bool_decide (f ∈ fnames))
  /\ (b = false ->
      exists taken g rest,
        fnames = taken ++ g :: rest
        /\ (forall f, f ∈ taken -> lck w f = false)
        /\ (lck w g = true \/ g ∈ taken \/ mark_err e g = true)
        /\ forall f, lck w' f =
             (lck w f || bool_decide (f ∈ taken))
             && negb (bool_decide (f ∈ held ++ taken) && negb (unmark_err e f))).
Proof.
  induction fnames as [|g fnames IH]; intros w held b w'; cbn [lockFile_from].
  - intros Hrun. injection Hrun as <- <-. split; [|split; [|done]].
    + split; [intros _; split; [constructor|]|done].
      intros f Hf. by apply elem_of_nil in Hf.
    + intros _ f. rewrite bool_decide_eq_false_2 by apply not_elem_of_nil.
      by rewrite orb_false_r.
  - destruct (lck w g || mark_err e g) eqn:Hg.
    + intros Hrun. injection Hrun as <- <-. split; [|split; [done|]].
      * split; [done|]. intros [_ H].
        destruct (H g) as [H1 H2]; [left|]. by rewrite H1, H2 in Hg.
      * intros _. exists [], g, fnames. split; [done|].
        split; [intros f Hf; by apply elem_of_nil in Hf|].
        split; [apply orb_true_iff in Hg as [?|?]; auto|].
        intros f. rewrite lck_unlockFile, app_nil_r.
        rewrite (bool_decide_eq_false_2 (f ∈ [])) by apply not_elem_of_nil.
        by rewrite orb_false_r.
    + apply orb_false_iff in Hg as [Hg Hm].
      intros Hrun. apply IH in Hrun as (Hb & Ht & Hf). split; [|split].
      * rewrite Hb. cbn [setLck lck]. rewrite list.NoDup_cons. split.
        -- intros [Hnd Hall]. split_and!; [|done|].
           ++ intros Hin. destruct (Hall g Hin) as [Hall' _].
              by destruct (decide (g = g)).
           ++ intros f [->|Hin]%elem_of_cons; [done|].
              destruct (Hall f Hin) as [H1 H2]. by destruct (decide (f = g)).
        -- intros [[Hni Hnd] Hall]. split; [done|].
           intros f Hin. destruct (decide (f = g)) as [->|]; [done|].
           apply Hall. by right.
      * intros Hbt f. rewrite (Ht Hbt). cbn [setLck lck].
        destruct (decide (f = g)) as [->|Hne].
        -- rewrite (bool_decide_eq_true_2 (g ∈ g :: fnames)) by left.
           by rewrite orb_true_r.
        -- f_equal. apply bool_decide_ext. rewrite elem_of_cons. tauto.
      * intros Hbf. destruct (Hf Hbf) as (taken & g' & rest & -> & Hfree & Hwhy & Hl).
        exists (g :: taken), g', rest. split; [done|].
        assert (Hfree' : forall f, f ∈ taken -> f <> g /\ lck w f = false).
        { intros f Hin. specialize (Hfree f Hin). cbn [setLck lck] in Hfree.
          by destruct (decide (f = g)). }
        split; [|split].
        -- intros f [->|Hin]%elem_of_cons; [done|]. by apply Hfree'.
        -- cbn [setLck lck] in Hwhy.
           destruct Hwhy as [Hw|[Hw|Hw]]; [|right; left; by right|by right; right].
           destruct (decide (g' = g)) as [->|]; [right; left; left|by left].
        -- intros f. rewrite Hl. cbn [setLck lck].
           rewrite <- (app_assoc held [g] taken). cbn [app].
           destruct (decide (f = g)) as [->|Hne].
           ++ rewrite (bool_decide_eq_true_2 (g ∈ g :: taken)) by left.
              by rewrite orb_true_r.
           ++ f_equal. f_equal. apply bool_decide_ext. rewrite elem_of_cons. tauto.
Qed.

Lemma lockFile_lck (e : Env) (w : World) (fnames : list fname) b w' :
  lockFile e w fnames = (b, w') ->
  (b = true <->
     NoDup fnames /\ forall f, f ∈ fnames -> lck w f = false /\ mark_err e f = false)
  /\ (b = true -> forall f, lck w' f = lck w f || bool_decide (f ∈ fnames))
  /\ (b = false ->
      exists taken g rest,
        fnames = taken ++ g :: rest
        /\ (lck w g = true \/ g ∈ taken \/ mark_err e g = true)
        /\ (forall f, lck w' f = lck w f || bool_decide (f ∈ taken) && unmark_err e f)).
Proof.
  intros Hrun. apply lockFile_from_lck in Hrun as (Hb & Ht & Hf).
  split; [done|]. split; [done|].
  intros Hbf. destruct (Hf Hbf) as (taken & g & rest & -> & Hfree & Hwhy & Hl).
  exists taken, g, rest. split; [done|]. split; [done|].
  intros f. rewrite Hl. cbn [app].
  destruct (bool_decide (f ∈ taken)) eqn:E.
  - apply bool_decide_eq_true in E. rewrite (Hfree f E).
    by destruct (unmark_err e f).
  - cbn [andb negb]. by rewrite orb_false_r, andb_true_r.
Qed.


(** A failed [lockFile] that leaves a marker: the marker of the queue
    file cannot be created, and the one of the results file, taken
    before, cannot be removed. *)
Example lockFile_leaves_marker_ex :
  let e := markerEnv (fun f => bool_decide (f = Todo)) (fun f => bool_decide (f = Res)) in
  let '(locked, w') := lockFile e (world0 None None) [Res; Sent; Todo] in
  locked = false /\ lck w' Res = true /\ lck w' Sent = false /\ lck w' Todo = false.
Proof. vm_compute. repeat split; reflexivity. Qed.

Lemma lck_sendbatch e w c : lck (snd (sendbatch e w c)) = lck w.
Proof.
  unfold sendbatch. destruct (remote e (posted w) c); try done.
  by destruct (Contains _ _).
Qed.

Lemma lck_sentWrite e w p : lck (snd (sentWrite e w p)) = lck w.
Proof.
  unfold sentWrite. by destruct (sent_Write e (content w Sent) p).
Qed.

Lemma lck_create w f : lck (create w f) = lck w.
Proof. apply create_frame. Qed.

Lemma lck_loop_step limit e w results i :
  match loop_step limit e w results i with
  | Stop => True
  | Next w' _ | Fail _ w' => lck w' = lck w
  end.
Proof.
  unfold loop_step. destruct (i <? len results - 1); [|done].
  cbv zeta. destruct (_ <=? 0); [done|].
  pose proof (lck_sendbatch e w
    (slice results i (i + (if len (slice_from results i) >? limit
                           then LastIndexByte (slice results i (i + limit)) nl + 1
                           else len (slice_from results i))))) as Hsb.
  destruct (sendbatch e w _) as [ok w1]. simpl in Hsb.
  destruct ok; simpl; [|done].
  pose proof (lck_sentWrite e w1
    (slice results i (i + (if len (slice_from results i) >? limit
                           then LastIndexByte (slice results i (i + limit)) nl + 1
                           else len (slice_from results i))))) as Hsw.
  destruct (sentWrite e w1 _) as [[n err] w2]. simpl in Hsw.
  destruct (err || _); simpl; congruence.
Qed.

Lemma lck_sendLoop limit e results fuel : forall w i,
  lck (snd (sendLoop limit fuel e w results i)) = lck w.
Proof.
  induction fuel as [|fuel IH]; intros w i; simpl; [done|].
  pose proof (lck_loop_step limit e w results i) as Hs.
  destruct (loop_step limit e w results i) as [|w1 i1|why w1]; simpl; [done| |done].
  by rewrite IH.
Qed.

Lemma lck_TF_opened e w :
  match TF.opened e w with
  | Abort _ w' | Ready w' _ _ => lck w' = lck w
  end.
Proof.
  unfold TF.opened.
  repeat match goal with
         | |- context [if ?c then _ else _] => destruct c
         | |- context [match ?c with Some _ => _ | None => _ end] => destruct c
         | |- context [let '(_, _) := ?c in _] => destruct c
         end; simpl; by rewrite ?lck_create.
Qed.

Lemma lck_LL_opened e w :
  match LL.opened e w with
  | Abort _ w' | Ready w' _ _ => lck w' = lck w
  end.
Proof.
  unfold LL.opened.
  repeat match goal with
         | |- context [if ?c then _ else _] => destruct c
         end; simpl; by rewrite ?lck_create.
Qed.

Lemma lck_TF_finish e w keep send : lck (snd (TF.finish e w keep send)) = lck w.
Proof.
  unfold TF.finish.
  destruct (0 <? len send); cbv zeta;
    destruct (res_WriteAt e _ _) as [n err];
    destruct (_ && _); simpl; by rewrite ?lck_sentWrite.
Qed.

Lemma lck_LL_finish e w : lck (snd (LL.finish e w)) = lck w.
Proof. unfold LL.finish. simpl. by rewrite lck_sentWrite. Qed.

(** What a procedure does to the markers when it takes [fnames], works
    without touching any marker, and releases [fnames]. *)
Lemma lck_locked_region e w fnames w1 w2 f :
  lockFile e w fnames = (true, w1) -> lck w2 = lck w1 ->
  lck (unlockFile e w2 fnames) f
  = lck w f || bool_decide (f ∈ fnames) && unmark_err e f.
Proof.
  intros Hlock Heq. rewrite lck_unlockFile, Heq.
  apply lockFile_from_lck in Hlock as (Hb & Ht & _). rewrite (Ht eq_refl).
  destruct (proj1 Hb eq_refl) as [_ Hfree].
  destruct (bool_decide (f ∈ fnames)) eqn:E.
  - apply bool_decide_eq_true in E. destruct (Hfree f E) as [-> _].
    by destruct (unmark_err e f).
  - cbn [andb negb]. by rewrite orb_false_r, andb_true_r.
Qed.

Lemma lck_lock_failed e w fnames w1 :
  lockFile e w fnames = (false, w1) ->
  exists taken : list fname,
    (forall f, f ∈ taken -> f ∈ fnames)
    /\ forall f, lck w1 f = lck w f || bool_decide (f ∈ taken) && unmark_err e f.
Proof.
  intros Hlock. apply lockFile_lck in Hlock as (_ & _ & Hf).
  destruct (Hf eq_refl) as (taken & g & rest & -> & _ & Hl).
  exists taken. split; [|done].
  intros f Hin. apply elem_of_app. by left.
Qed.

Lemma restored_intro e fnames (held : list fname) w w' :
  (forall f, f ∈ held -> f ∈ fnames) ->
  (forall f, lck w' f = lck w f || bool_decide (f ∈ held) && unmark_err e f) ->
  restored e fnames w w'.
Proof.
  intros Hsub Hl f. rewrite Hl. split_and!.
  - by intros ->.
  - intros [?|[Hin Hu]%andb_true_iff]%orb_true_iff; [by left|right].
    apply bool_decide_eq_true in Hin. auto.
  - intros ->. by rewrite andb_false_r, orb_false_r.
Qed.

Lemma restored_locked_region e w fnames w1 w2 :
  lockFile e w fnames = (true, w1) -> lck w2 = lck w1 ->
  restored e fnames w (unlockFile e w2 fnames).
Proof.
  intros Hlock Heq. apply (restored_intro e fnames fnames); [done|].
  intros f. by apply (lck_locked_region e w fnames w1).
Qed.

Lemma restored_lock_failed e w fnames w1 w2 :
  lockFile e w fnames = (false, w1) -> lck w2 = lck w1 ->
  restored e fnames w w2.
Proof.
  intros Hlock Heq. destruct (lck_lock_failed e w fnames w1 Hlock) as (taken & Hsub & Hl).
  apply (restored_intro e fnames taken); [done|].
  intros f. by rewrite Heq.
Qed.

(** The markers do not change between [lockFile] and [unlockFile]. *)
Lemma lck_sendResults_inside (m : manager) (limit : Z) (e : Env) (w : World) :
  match lockFile e w (locksOf m) with
  | (true, w1) =>
      exists w2, lck w2 = lck w1
        /\ snd (sendResultsWith m limit e w) = unlockFile e w2 (locksOf m)
  | (false, w1) => lck (snd (sendResultsWith m limit e w)) = lck w1
  end.
Proof.
  destruct m; cbn [sendResultsWith locksOf].
  - unfold TF.sendResults_with, TF.prepare.
    destruct (lockFile e w TF.locks) as [[] w0] eqn:Hlock; [|done].
    pose proof (lck_TF_opened e w0) as Hop.
    destruct (TF.opened e w0) as [o wA|w1 keep send]; [by exists wA|].
    pose proof (lck_sendLoop limit e (blobOf send)
                  (S (length (blobOf send))) w1 0) as Hloop.
    cbv zeta.
    destruct (sendLoop limit (S (length (blobOf send))) e w1 (blobOf send) 0)
      as [[|why|] w2]; cbn [snd] in Hloop.
    + pose proof (lck_TF_finish e w2 keep send) as Hfin.
      destruct (TF.finish e w2 keep send) as [o wf]. cbn [snd] in *.
      exists wf. split; [congruence|done].
    + exists w2. split; [congruence|done].
    + exists w2. split; [congruence|done].
  - unfold LL.sendResults_with, LL.prepare.
    destruct (lockFile e w LL.locks) as [[] w0] eqn:Hlock; [|done].
    pose proof (lck_LL_opened e w0) as Hop.
    destruct (LL.opened e w0) as [o wA|w1 keep send]; [by exists wA|].
    pose proof (lck_sendLoop limit e (blobOf send)
                  (S (length (blobOf send))) w1 0) as Hloop.
    cbv zeta.
    destruct (sendLoop limit (S (length (blobOf send))) e w1 (blobOf send) 0)
      as [[|why|] w2]; cbn [snd] in Hloop.
    + pose proof (lck_LL_finish e w2) as Hfin.
      destruct (LL.finish e w2) as [o wf]. cbn [snd] in *.
      exists wf. split; [congruence|done].
    + exists w2. split; [congruence|done].
    + exists w2. split; [congruence|done].
Qed.

Lemma lck_sendResults (m : manager) (limit : Z) (e : Env) (w : World) :
  restored e (locksOf m) w (snd (sendResultsWith m limit e w)).
Proof.
  pose proof (lck_sendResults_inside m limit e w) as H.
  destruct (lockFile e w (locksOf m)) as [[] w1] eqn:Hlock.
  - destruct H as (w2 & Heq & ->). by apply (restored_locked_region e w _ w1).
  - by apply (restored_lock_failed e w _ w1).
Qed.







Lemma lockFile_unlocked e w fnames :
  NoDup fnames -> unlocked e w fnames ->
  exists w0, lockFile e w fnames = (true, w0)
    /\ file w0 = file w /\ posted w0 = posted w /\ acked w0 = acked w
    /\ logged w0 = logged w.
Proof.
  intros Hnd Hfree. destruct (lockFile e w fnames) as [b w0] eqn:Hlock.
  pose proof (lockFile_frame _ _ _ _ _ Hlock) as Hfr.
  apply lockFile_lck in Hlock as (Hb & _).
  assert (b = true) as -> by (apply Hb; split; [done|apply Hfree]).
  by exists w0.
Qed.

Lemma locks_NoDup m : NoDup (locksOf m).
Proof. destruct m; apply (bool_decide_unpack _); vm_compute; exact I. Qed.


(** A call of [sendResults] that leaves a marker behind, and the call
    after it, which cannot take the lock. *)
Example marker_left_behind_ex :
  let e := markerEnv (fun _ => false) (fun f => bool_decide (f = Sent)) in
  let w1 := snd (LL.sendResults e lucasRecord) in
  fst (LL.sendResults e lucasRecord) = Return true
  /\ lck w1 Res = false /\ lck w1 Sent = true
  /\ fst (LL.sendResults e w1) = Return false
  /\ list.last (logged (snd (LL.sendResults e w1))) = Some LogLockFailed.
Proof. vm_compute. repeat split; reflexivity. Qed.

(** ** The assignment pattern *)

Lemma TF_workLine fuel : forall line,
  TF.workReg_line fuel line = workLine [B "Factor="] fuel line.
Proof.
  induction fuel as [|fuel IH]; intros line; [done|].
  destruct line as [|x l']; [done|].
  cbn [TF.workReg_line workLine headOf].
  destruct (HasPrefix (x :: l') (B "Factor=")).
  - change (length (B "Factor=")) with 7%nat.
    destruct (TF.lastTriple _); [|done]. by rewrite IH.
  - apply IH.
Qed.

Lemma LL_workLine fuel : forall line,
  LL.workReg_line fuel line = workLine [B "DoubleCheck="; B "Test="] fuel line.
Proof.
  induction fuel as [|fuel IH]; intros line; [done|].
  destruct line as [|x l']; [done|].
  cbn [LL.workReg_line workLine headOf]. unfold LL.workReg_head.
  destruct (HasPrefix (x :: l') (B "DoubleCheck=")).
  - change (length (B "DoubleCheck=")) with 12%nat.
    destruct (TF.lastTriple _); [|done]. by rewrite IH.
  - destruct (HasPrefix (x :: l') (B "Test=")).
    + change (length (B "Test=")) with 5%nat.
      destruct (TF.lastTriple _); [|done]. by rewrite IH.
    + apply IH.
Qed.

Lemma workRegOf_eq m b : workRegOf m b = workFindAll (headsOf m) b.
Proof.
  destruct m; simpl; unfold TF.workReg_FindAll, LL.workReg_FindAll, workFindAll;
    f_equal; apply map_ext; intros l; [apply TF_workLine|apply LL_workLine].
Qed.

Lemma isDigit_not_comma c : isDigit c = true -> Byte.eqb c comma = false.
Proof. destruct c; simpl; intros H; try discriminate H; reflexivity. Qed.

Lemma isDigit_not_nl c : isDigit c = true -> c <> nl.
Proof. intros H ->. discriminate H. Qed.

Lemma leadingDigits_app ds rest :
  Forall (fun c => isDigit c = true) ds ->
  leadingDigits (ds ++ rest) = ds ++ leadingDigits rest.
Proof.
  induction 1 as [|c ds Hc _ IH]; simpl; [done|]. by rewrite Hc, IH.
Qed.

Lemma leadingDigits_split b :
  exists rest, b = leadingDigits b ++ rest /\ leadingDigits rest = [].
Proof.
  induction b as [|x b (rest & Hb & Hr)]; simpl.
  - by exists [].
  - destruct (isDigit x) eqn:E.
    + exists rest. simpl. by rewrite <- Hb.
    + exists (x :: b). simpl. by rewrite E.
Qed.

Lemma commaDigits_inv l a :
  TF.commaDigits l = Some a ->
  exists ds rest,
    l = comma :: ds ++ rest /\ digits ds /\ a = S (length ds)
    /\ leadingDigits rest = [].
Proof.
  destruct l as [|x l']; simpl; [done|].
  destruct (Byte.eqb x comma) eqn:Hx; simpl; [|done].
  apply byte_eqb_eq in Hx. subst x.
  destruct (nonEmpty (leadingDigits l')) eqn:Hne; [|done].
  intros [= <-]. destruct (leadingDigits_split l') as (rest & Hl & Hr).
  exists (leadingDigits l'), rest. split; [by rewrite <- Hl|].
  split; [|done]. split; [by apply nonEmpty_true|apply leadingDigits_digits].
Qed.

Lemma commaDigits_intro ds rest :
  digits ds -> leadingDigits rest = [] ->
  TF.commaDigits (comma :: ds ++ rest) = Some (S (length ds)).
Proof.
  intros [Hne Hd] Hr. simpl.
  rewrite leadingDigits_app, Hr, app_nil_r by done.
  by destruct ds.
Qed.

Lemma leadingDigits_comma rest : leadingDigits (comma :: rest) = [].
Proof. reflexivity. Qed.

Lemma drop_field (d rest : bytes) :
  drop (S (length d)) (comma :: d ++ rest) = rest.
Proof. simpl. apply drop_app_length. Qed.

Lemma triple_eq l :
  TF.triple l =
    match TF.commaDigits l with
    | Some n1 =>
        match TF.commaDigits (drop n1 l) with
        | Some n2 =>
            match TF.commaDigits (drop n2 (drop n1 l)) with
            | Some n3 => Some (n1 + n2 + n3)%nat
            | None => None
            end
        | None => None
        end
    | None => None
    end.
Proof.
  unfold TF.triple. destruct (TF.commaDigits l) as [n1|]; [|done]. simpl.
  destruct (TF.commaDigits (drop n1 l)) as [n2|]; [|done]. simpl.
  rewrite drop_drop. by destruct (TF.commaDigits _).
Qed.

Lemma triple_inv l n :
  TF.triple l = Some n ->
  exists d1 d2 d3 rest,
    l = comma :: d1 ++ comma :: d2 ++ comma :: d3 ++ rest
    /\ digits d1 /\ digits d2 /\ digits d3
    /\ n = (3 + length d1 + length d2 + length d3)%nat.
Proof.
  rewrite triple_eq. intros H.
  destruct (TF.commaDigits l) as [n1|] eqn:H1; [|done].
  apply commaDigits_inv in H1 as (d1 & r1 & -> & Hd1 & -> & _).
  rewrite drop_field in H.
  destruct (TF.commaDigits r1) as [n2|] eqn:H2; [|done].
  apply commaDigits_inv in H2 as (d2 & r2 & -> & Hd2 & -> & _).
  rewrite drop_field in H.
  destruct (TF.commaDigits r2) as [n3|] eqn:H3; [|done].
  apply commaDigits_inv in H3 as (d3 & r3 & -> & Hd3 & -> & _).
  injection H as <-.
  exists d1, d2, d3, r3. split_and!; try done. lia.
Qed.

Lemma triple_exact d1 d2 d3 :
  digits d1 -> digits d2 -> digits d3 ->
  TF.triple (comma :: d1 ++ comma :: d2 ++ comma :: d3)
  = Some (length (comma :: d1 ++ comma :: d2 ++ comma :: d3)).
Proof.
  intros Hd1 Hd2 Hd3. rewrite triple_eq.
  rewrite (commaDigits_intro d1 (comma :: d2 ++ comma :: d3)), drop_field by done.
  rewrite (commaDigits_intro d2 (comma :: d3)), drop_field by done.
  rewrite <- (app_nil_r d3) at 1. rewrite (commaDigits_intro d3 []) by done.
  f_equal. repeat (rewrite ?length_app; cbn [length]). lia.
Qed.

(** No match starts in a run of digits. *)
Lemma lastTriple_digits ds l :
  Forall (fun c => isDigit c = true) ds ->
  TF.lastTriple (ds ++ l) =
    match TF.lastTriple l with
    | Some n => Some (length ds + n)%nat
    | None => None
    end.
Proof.
  induction 1 as [|c ds Hc _ IH]; simpl.
  - by destruct (TF.lastTriple l).
  - rewrite IH. destruct (TF.lastTriple l); [done|].
    unfold TF.triple. simpl. by rewrite (isDigit_not_comma c Hc).
Qed.

Lemma lastTriple_nil : TF.lastTriple [] = None.
Proof. reflexivity. Qed.

Lemma commaDigits_nil : TF.commaDigits [] = None.
Proof. reflexivity. Qed.

(** Fewer than three numbers: no match. *)
Lemma lastTriple_two d2 d3 :
  digits d2 -> digits d3 -> TF.lastTriple (d2 ++ comma :: d3) = None.
Proof.
  intros Hd2 Hd3. rewrite lastTriple_digits by apply Hd2.
  cbn [TF.lastTriple].
  assert (H3 : TF.lastTriple d3 = None).
  { rewrite <- (app_nil_r d3), lastTriple_digits by apply Hd3. done. }
  rewrite H3, triple_eq.
  rewrite <- (app_nil_r d3), (commaDigits_intro d3 []), drop_field by done.
  done.
Qed.

Lemma lastTriple_three_tail d1 d2 d3 :
  digits d1 -> digits d2 -> digits d3 ->
  TF.lastTriple (d1 ++ comma :: d2 ++ comma :: d3) = None.
Proof.
  intros Hd1 Hd2 Hd3. rewrite lastTriple_digits by apply Hd1.
  cbn [TF.lastTriple]. rewrite lastTriple_two, triple_eq by done.
  rewrite (commaDigits_intro d2 (comma :: d3)), drop_field by done.
  rewrite <- (app_nil_r d3), (commaDigits_intro d3 []), drop_field by done.
  done.
Qed.

(** Three numbers at the end of a text: the match ends where the text
    ends. *)
Lemma lastTriple_exact mid d1 d2 d3 :
  digits d1 -> digits d2 -> digits d3 ->
  TF.lastTriple (mid ++ comma :: d1 ++ comma :: d2 ++ comma :: d3)
  = Some (length (mid ++ comma :: d1 ++ comma :: d2 ++ comma :: d3)).
Proof.
  intros Hd1 Hd2 Hd3. induction mid as [|x mid IH].
  - cbn [app TF.lastTriple]. rewrite lastTriple_three_tail by done.
    by apply triple_exact.
  - cbn [app TF.lastTriple]. rewrite IH. done.
Qed.

Lemma lastTriple_inv l : forall n,
  TF.lastTriple l = Some n ->
  exists k m, n = (k + m)%nat /\ TF.triple (drop k l) = Some m.
Proof.
  induction l as [|x l IH]; intros n; simpl; [done|].
  destruct (TF.lastTriple l) as [n'|] eqn:E.
  - intros [= <-]. destruct (IH n' eq_refl) as (k & m & -> & Ht).
    exists (S k), m. split; [lia|done].
  - intros Ht. exists 0%nat, n. split; [done|]. by rewrite drop_0.
Qed.

Lemma HasPrefix_iff s p : HasPrefix s p = true <-> exists t, s = p ++ t.
Proof.
  split; [apply HasPrefix_app|]. intros [t ->].
  induction p as [|c p IH]; simpl; [by destruct t|].
  rewrite IH, andb_true_r. by apply byte_eqb_eq.
Qed.

Lemma HasPrefix_take s p k :
  HasPrefix (take k s) p = true -> HasPrefix s p = true.
Proof.
  rewrite !HasPrefix_iff. intros [t Ht]. exists (t ++ drop k s).
  by rewrite app_assoc, <- Ht, take_drop.
Qed.

Lemma HasPrefix_take_ge s p k :
  HasPrefix s p = true -> (length p <= k)%nat -> HasPrefix (take k s) p = true.
Proof.
  rewrite !HasPrefix_iff. intros [t ->] Hk. exists (take (k - length p) t).
  by rewrite take_app_ge by done.
Qed.

Lemma headOf_take heads : forall line h k,
  headOf heads line = Some h -> (h <= k)%nat ->
  headOf heads (take k line) = Some h.
Proof.
  induction heads as [|p heads IH]; intros line h k; simpl; [done|].
  destruct (HasPrefix line p) eqn:Hp.
  - intros [= <-] Hk. by rewrite HasPrefix_take_ge.
  - intros Hh Hk. destruct (HasPrefix (take k line) p) eqn:Hp'.
    + apply HasPrefix_take in Hp'. congruence.
    + by apply IH.
Qed.

Lemma workLine_nil heads fuel : workLine heads fuel [] = [].
Proof. by destruct fuel. Qed.

Lemma triple_exact_app d1 d2 d3 rest :
  comma :: d1 ++ comma :: d2 ++ comma :: d3 ++ rest
  = (comma :: d1 ++ comma :: d2 ++ comma :: d3) ++ rest.
Proof. simpl. rewrite <- !app_assoc. simpl. by rewrite <- !app_assoc. Qed.

(** What [workLine] returns are assignments. *)
Lemma workLine_isWork heads fuel : forall line r,
  nl ∉ line -> r ∈ workLine heads fuel line -> isWork heads r.
Proof.
  induction fuel as [|fuel IH]; intros line r Hnl; simpl.
  - intros H. by apply elem_of_nil in H.
  - destruct line as [|x l']; [intros H; by apply elem_of_nil in H|].
    destruct (headOf heads (x :: l')) as [h|] eqn:Hh.
    + destruct (TF.lastTriple (drop h (x :: l'))) as [n|] eqn:Hn;
        [|intros H; by apply elem_of_nil in H].
      intros [->|Hr]%elem_of_cons.
      * destruct (lastTriple_inv _ _ Hn) as (k & m & -> & Ht).
        destruct (triple_inv _ _ Ht) as (d1 & d2 & d3 & rest & Hd & Hd1 & Hd2 & Hd3 & ->).
        exists h, (take k (drop h (x :: l'))), d1, d2, d3.
        split; [apply headOf_take; [done|lia]|].
        split; [|split_and!; try done].
        -- rewrite <- take_drop_commute.
           rewrite <- (take_drop k (drop h (x :: l'))) at 1.
           assert (Hk : length (take k (drop h (x :: l'))) = k).
           { apply length_take_le.
             destruct (Nat.le_gt_cases k (length (drop h (x :: l')))) as [|Hgt]; [done|].
             rewrite drop_ge in Hd by lia. done. }
           rewrite take_app_add' by done. f_equal.
           rewrite Hd, triple_exact_app. apply take_app_length'.
           repeat (rewrite ?length_app; cbn [length]). lia.
        -- intros Hin. apply Hnl. eapply elem_of_sublist; [done|apply sublist_take].
      * apply (IH (drop (h + n) (x :: l'))); [|done].
        intros Hin. apply Hnl. eapply elem_of_sublist; [done|apply sublist_drop].
    + intros Hr. apply (IH l'); [|done].
      intros H. apply Hnl. by right.
Qed.

Lemma headOf_le heads : forall line h,
  headOf heads line = Some h -> (h <= length line)%nat.
Proof.
  induction heads as [|p heads IH]; intros line h; simpl; [done|].
  destruct (HasPrefix line p) eqn:Hp; [|apply IH].
  intros [= <-]. apply HasPrefix_iff in Hp as [t ->]. rewrite length_app. lia.
Qed.

(** An assignment alone on a line is found as it is. *)
Lemma workLine_single heads r :
  isWork heads r -> workLine heads (length r) r = [r].
Proof.
  intros (h & mid & d1 & d2 & d3 & Hh & Hd & Hd1 & Hd2 & Hd3 & _).
  pose proof (headOf_le _ _ _ Hh) as Hle.
  destruct r as [|x l'] eqn:Hr.
  { rewrite drop_nil in Hd. by destruct mid. }
  cbn [length workLine]. rewrite Hh, Hd, lastTriple_exact, <- Hd by done.
  rewrite length_drop.
  replace (h + (length (x :: l') - h))%nat with (length (x :: l')) by lia.
  rewrite take_ge, drop_ge by lia. by rewrite workLine_nil.
Qed.

Lemma workFindAll_isWork heads b : Forall (isWork heads) (workFindAll heads b).
Proof.
  unfold workFindAll. apply Forall_concat, Forall_map.
  simpl. eapply list.Forall_impl; [apply lines_no_newline|].
  intros l Hl. apply list.Forall_forall. intros r Hr.
  exact (workLine_isWork heads (length l) l r Hl Hr).
Qed.

Lemma isWork_no_newline heads r : isWork heads r -> nl ∉ r.
Proof. by intros (h & mid & d1 & d2 & d3 & _ & _ & _ & _ & _ & H). Qed.

(** Assignments written one per line are read back as they are. *)
Lemma workFindAll_Join heads recs :
  Forall (isWork heads) recs -> workFindAll heads (Join recs [nl]) = recs.
Proof.
  intros Hrec. destruct (decide (recs = [])) as [->|Hne]; [done|].
  unfold workFindAll. rewrite lines_Join; [|done|].
  - clear Hne. induction Hrec as [|r recs Hr _ IH]; [done|].
    simpl. by rewrite workLine_single, IH.
  - eapply list.Forall_impl; [done|]. apply isWork_no_newline.
Qed.


Lemma workFindAll_nil heads : workFindAll heads [] = [].
Proof. reflexivity. Qed.


(** X4. The assignment pattern reads back what it wrote: when the
    assignments that [workReg.FindAll] finds in a text are joined with
    newlines, as [topoff] writes them, [FindAll] finds on that text the
    same assignments in the same order. This holds for the patterns of
    both managers. *)
Theorem workReg_reads_back_what_topoff_writes (m : manager) (b : bytes) :
  workRegOf m (Join (workRegOf m b) [nl]) = workRegOf m b.
Proof.
  rewrite !workRegOf_eq. apply workFindAll_Join, workFindAll_isWork.
Qed.

(** ** [setTargets] *)

Lemma LastIndex_absent d : comma ∉ d -> LastIndex d [comma] = -1.
Proof.
  induction d as [|x d IH]; [done|]. intros H.
  apply not_elem_of_cons in H as [Hx Hd]. cbn [LastIndex]. rewrite IH by done.
  simpl. assert (E : Byte.eqb x comma = false) by (apply byte_eqb_neq; congruence).
  by rewrite E.
Qed.

Lemma LastIndex_found pre d :
  comma ∉ d -> LastIndex (pre ++ comma :: d) [comma] = len pre.
Proof.
  intros Hd. induction pre as [|x pre IH].
  - cbn [app LastIndex]. rewrite LastIndex_absent by done. simpl.
    by destruct d.
  - cbn [app LastIndex]. rewrite IH.
    assert (E : (0 <=? len pre) = true) by (apply Z.leb_le, len_nonneg).
    rewrite E. unfold len. simpl. lia.
Qed.

Lemma digits_no_comma d : Forall (fun c => isDigit c = true) d -> comma ∉ d.
Proof.
  intros H Hin. rewrite list.Forall_forall in H. by specialize (H _ Hin).
Qed.

Lemma digits_no_nl d : Forall (fun c => isDigit c = true) d -> nl ∉ d.
Proof.
  intros H Hin. rewrite list.Forall_forall in H. by specialize (H _ Hin).
Qed.

Lemma string_of_uint_digits u :
  Forall (fun c => isDigit c = true)
    (list_byte_of_string (DecimalString.NilEmpty.string_of_uint u)).
Proof. induction u; simpl; constructor; done. Qed.

(** [fmt.Sprint] of a [uint] gives decimal digits. *)
Lemma Sprint_digits v : Forall (fun c => isDigit c = true) (Sprint v).
Proof.
  unfold Sprint, DecimalString.NilZero.string_of_uint.
  destruct (N.to_uint (Z.to_N v)); try apply string_of_uint_digits.
  by repeat constructor.
Qed.

Lemma headOf_single p r h :
  headOf [p] r = Some h -> h = length p /\ exists t, r = p ++ t.
Proof.
  simpl. destruct (HasPrefix r p) eqn:E; [|done]. intros [= <-].
  split; [done|]. by apply HasPrefix_iff.
Qed.

Lemma headOf_single_intro p t : headOf [p] (p ++ t) = Some (length p).
Proof.
  cbn [headOf].
  assert (E : HasPrefix (p ++ t) p = true) by (apply HasPrefix_iff; eauto).
  by rewrite E.
Qed.

(** An assignment ends with its last number, behind the last comma. *)
Lemma isWork_last_field heads r :
  isWork heads r ->
  exists pre f,
    r = pre ++ comma :: f /\ digits f
    /\ LastIndex r [comma] = len pre /\ TF.lastField r = f.
Proof.
  intros (h & mid & d1 & d2 & d3 & Hh & Hd & Hd1 & Hd2 & Hd3 & _).
  assert (exists pre, r = pre ++ comma :: d3) as [pre Hr].
  { exists (take h r ++ mid ++ comma :: d1 ++ comma :: d2).
    rewrite <- (take_drop h r) at 1. rewrite Hd.
    rewrite <- !app_assoc. simpl. by rewrite <- !app_assoc. }
  exists pre, d3. subst r.
  assert (Hidx : LastIndex (pre ++ comma :: d3) [comma] = len pre)
    by apply LastIndex_found, digits_no_comma, Hd3.
  split_and!; try done.
  unfold TF.lastField, slice_from. rewrite Hidx.
  replace (Z.to_nat (len pre + 1)) with (length (pre ++ [comma]))
    by (rewrite length_app; unfold len; simpl; lia).
  rewrite (app_assoc _ [comma] d3 : _ ++ comma :: d3 = _).
  apply drop_app_length.
Qed.

Lemma copy_length (dst src : bytes) : length (copy dst src) = length dst.
Proof.
  unfold copy. rewrite length_app, length_take, length_drop. lia.
Qed.

Lemma copy_digits (dst src : bytes) :
  Forall (fun c => isDigit c = true) dst ->
  Forall (fun c => isDigit c = true) src ->
  Forall (fun c => isDigit c = true) (copy dst src).
Proof.
  intros Hd Hs. unfold copy. apply Forall_app. split.
  - by apply Forall_take.
  - by apply Forall_drop.
Qed.

Lemma setTarget_isWork (dev : device) (r : bytes) :
  isWork [B "Factor="] r ->
  exists pre f,
    r = pre ++ comma :: f /\ digits f
    /\ TF.setTarget dev r
       = pre ++ comma ::
           (if uint_of_int (Atoi f) <? Target dev
            then take (length f) (Sprint (Target dev))
                 ++ drop (length (Sprint (Target dev))) f
            else f)
    /\ length (TF.setTarget dev r) = length r
    /\ isWork [B "Factor="] (TF.setTarget dev r)
    /\ (length f = length (Sprint (Target dev)) ->
        uint_of_int (Atoi f) < Target dev ->
        TF.setTarget dev r = pre ++ comma :: Sprint (Target dev)).
Proof.
  intros Hw. destruct (isWork_last_field _ _ Hw) as (pre & f & Hr & Hf & Hidx & Hlast).
  exists pre, f. split; [done|]. split; [done|].
  rewrite Hr in Hidx, Hlast.
  assert (Hset : TF.setTarget dev r
                 = pre ++ comma ::
                     (if uint_of_int (Atoi f) <? Target dev
                      then copy f (Sprint (Target dev)) else f)).
  { rewrite Hr. unfold TF.setTarget. unfold TF.lastField in Hlast. rewrite Hlast.
    destruct (uint_of_int (Atoi f) <? Target dev); [|done].
    unfold slice. rewrite Hidx. simpl. rewrite Z.sub_0_r.
    replace (Z.to_nat (len pre + 1)) with (length (pre ++ [comma]))
      by (rewrite length_app; unfold len; simpl; lia).
    rewrite (app_assoc _ [comma] f : _ ++ comma :: f = _).
    rewrite drop_0', take_app_length, <- app_assoc. done. }
  assert (Hlen : length (TF.setTarget dev r) = length r).
  { rewrite Hset, Hr. rewrite !length_app. simpl.
    destruct (_ <? _); [by rewrite copy_length|done]. }
  split; [done|]. split; [done|]. split.
  - destruct (uint_of_int (Atoi f) <? Target dev) eqn:E;
      [|by rewrite Hset, <- Hr].
    destruct Hw as (h & mid & d1 & d2 & d3 & Hh & Hd & Hd1 & Hd2 & Hd3 & Hnl).
    apply headOf_single in Hh as [-> [t Ht]].
    assert (Ht' : t = mid ++ comma :: d1 ++ comma :: d2 ++ comma :: d3).
    { rewrite Ht in Hd. by rewrite drop_app_length in Hd. }
    assert (Hpre : pre = B "Factor=" ++ mid ++ comma :: d1 ++ comma :: d2 /\ f = d3).
    { rewrite Ht, Ht' in Hr.
      assert (Hc : comma ∉ f) by apply digits_no_comma, Hf.
      assert (Hc3 : comma ∉ d3) by apply digits_no_comma, Hd3.
      pose proof (LastIndex_found pre f Hc) as H1.
      pose proof (LastIndex_found (B "Factor=" ++ mid ++ comma :: d1 ++ comma :: d2)
                    d3 Hc3) as H2.
      assert (Heq : B "Factor=" ++ mid ++ comma :: d1 ++ comma :: d2 ++ comma :: d3
                    = (B "Factor=" ++ mid ++ comma :: d1 ++ comma :: d2)
                      ++ comma :: d3).
      { rewrite <- !app_assoc. simpl. by rewrite <- !app_assoc. }
      rewrite Heq in Hr. rewrite <- Hr, H2 in H1.
      assert (Hl : length pre
                   = length (B "Factor=" ++ mid ++ comma :: d1 ++ comma :: d2))
        by (unfold len in H1; lia).
      apply app_inj_1 in Hr as [Hp Hs]; [|done]. by injection Hs as ->. }
    destruct Hpre as [-> ->].
    exists (length (B "Factor=")), mid, d1, d2, (copy d3 (Sprint (Target dev))).
    rewrite Hset. split_and!; try done.
    + rewrite <- app_assoc. apply headOf_single_intro.
    + rewrite <- !app_assoc, drop_app_length. simpl. by rewrite <- !app_assoc.
    + split.
      * intros Hnil. pose proof (copy_length d3 (Sprint (Target dev))) as Hcl.
        rewrite Hnil in Hcl. destruct Hd3 as [Hne _]. by destruct d3.
      * apply copy_digits; [apply Hd3|apply Sprint_digits].
    + intros [H|H]%elem_of_app.
      * apply Hnl. rewrite Hr. apply elem_of_app. by left.
      * apply elem_of_cons in H as [H|H]; [discriminate H|].
        apply (digits_no_nl (copy d3 (Sprint (Target dev)))); [|done].
        apply copy_digits; [apply Hd3|apply Sprint_digits].
  - intros Hw' Hlt. rewrite Hset. apply Z.ltb_lt in Hlt. rewrite Hlt.
    unfold copy. rewrite Hw', take_ge, drop_ge by lia. by rewrite app_nil_r.
Qed.

Lemma TF_FindAll_isWork body : Forall (isWork [B "Factor="]) (TF.workReg_FindAll body).
Proof.
  change TF.workReg_FindAll with (workRegOf TFmanager).
  rewrite workRegOf_eq. apply workFindAll_isWork.
Qed.

Lemma TF_FindAll_single r :
  isWork [B "Factor="] r -> TF.workReg_FindAll r = [r].
Proof.
  intros Hw. change TF.workReg_FindAll with (workRegOf TFmanager).
  rewrite workRegOf_eq. change r with (Join [r] [nl]) at 1.
  apply workFindAll_Join. by constructor.
Qed.

(** X5. What [setTargets] does to an assignment that [workReg] found.
    The text behind the last comma is a number (the pattern sees to
    that). When it reads lower than the target, [copy] overwrites it in
    place: the field becomes the first digits of the target, as many as
    the field has, followed by what the field had beyond the length of
    the target; otherwise the record is returned as it is. The record
    keeps its length and every byte up to the last comma, and [workReg]
    still finds it, whole. When the field is as long as the target's
    text, it becomes the target. *)
Theorem setTarget_overwrites_in_place (dev : device) (body r : bytes) :
  r ∈ TF.workReg_FindAll body ->
  exists pre f,
    r = pre ++ comma :: f /\ digits f
    /\ TF.setTarget dev r
       = pre ++ comma ::
           (if uint_of_int (Atoi f) <? Target dev
            then take (length f) (Sprint (Target dev))
                 ++ drop (length (Sprint (Target dev))) f
            else f)
    /\ length (TF.setTarget dev r) = length r
    /\ TF.workReg_FindAll (TF.setTarget dev r) = [TF.setTarget dev r]
    /\ (length f = length (Sprint (Target dev)) ->
        uint_of_int (Atoi f) < Target dev ->
        TF.setTarget dev r = pre ++ comma :: Sprint (Target dev)).
Proof.
  intros Hr.
  assert (Hw : isWork [B "Factor="] r).
  { pose proof (TF_FindAll_isWork body) as H.
    rewrite list.Forall_forall in H. by apply H. }
  destruct (setTarget_isWork dev r Hw) as (pre & f & H1 & H2 & H3 & H4 & H5 & H6).
  exists pre, f. split_and!; try done. by apply TF_FindAll_single.
Qed.

Lemma setTarget_witness :
  exists pre f,
    B "Factor=N/A,1000003,70,71" = pre ++ comma :: f /\ digits f
    /\ TF.setTarget (mkDevice 5 73) (B "Factor=N/A,1000003,70,71")
       = pre ++ comma ::
           (if uint_of_int (Atoi f) <? 73
            then take (length f) (Sprint 73) ++ drop (length (Sprint 73)) f
            else f)
    /\ length (TF.setTarget (mkDevice 5 73) (B "Factor=N/A,1000003,70,71"))
       = length (B "Factor=N/A,1000003,70,71")
    /\ TF.workReg_FindAll (TF.setTarget (mkDevice 5 73) (B "Factor=N/A,1000003,70,71"))
       = [TF.setTarget (mkDevice 5 73) (B "Factor=N/A,1000003,70,71")]
    /\ (length f = length (Sprint 73) ->
        uint_of_int (Atoi f) < 73 ->
        TF.setTarget (mkDevice 5 73) (B "Factor=N/A,1000003,70,71")
        = pre ++ comma :: Sprint 73).
Proof.
  apply (setTarget_overwrites_in_place (mkDevice 5 73)
           (B "junk" ++ [nl] ++ B "Factor=N/A,1000003,70,71")
           (B "Factor=N/A,1000003,70,71")).
  apply (bool_decide_unpack _). vm_compute. exact I.
Defined.

(** ** Refill: how [topoff] ends *)

Lemma filterDups_nil w : TF.filterDups w [] = [] -> w = [].
Proof.
  destruct w as [|x w]; [done|]. intros H.
  destruct (filterDups_spec (x :: w) [] (NoDup_nil_2)) as (_ & _ & Hne).
  by destruct (Hne eq_refl).
Qed.

Lemma len_zero_nil {A} (l : list A) : (len l =? 0) = true <-> l = [].
Proof.
  rewrite Z.eqb_eq. split; [apply len_nil_inv|by intros ->].
Qed.

(** The value of [work] in [TF.topoff]. *)
Lemma TF_work_cases sett e dev w n work1 w1 work w2 :
  (if gpu72 sett then TF.getWorkGPU72 e w n else (None, w)) = (work1, w1) ->
  (if (len (default [] work1) =? 0) && primenet sett
   then TF.getWork e w1 n dev else (work1, w1)) = (work, w2) ->
  file w2 = file w /\ posted w2 = posted w /\ acked w2 = acked w
  /\ match work with
     | Some new => provided sett e dev n new
     | None => True
     end.
Proof.
  intros H1 H2.
  assert (Hw1 : file w1 = file w /\ posted w1 = posted w /\ acked w1 = acked w
                /\ match work1 with
                   | Some new => gpu72 sett = true
                       /\ exists body, gpu72_fetch e n = Body body
                            /\ new = TF.filterDups (TF.workReg_FindAll body) []
                   | None => gpu72 sett = true ->
                       match gpu72_fetch e n with
                       | Body _ => False
                       | _ => True
                       end
                   end).
  { destruct (gpu72 sett); [|by injection H1 as <- <-].
    unfold TF.getWorkGPU72 in H1.
    destruct (gpu72_fetch e n) as [| |body]; injection H1 as <- <-; simpl;
      split_and!; eauto. }
  destruct Hw1 as (Hf1 & Hp1 & Ha1 & Hwork1).
  destruct ((len (default [] work1) =? 0) && primenet sett) eqn:Hc.
  - apply andb_true_iff in Hc as [Hz Hp]. apply len_zero_nil in Hz.
    unfold TF.getWork in H2.
    destruct (primenet_fetch e n) as [| |body] eqn:Hfetch;
      [injection H2 as <- <-; simpl; by rewrite Hf1, Hp1, Ha1..|].
    destruct (TF.workReg_FindAll body) as [|r wrk] eqn:Hfind;
      injection H2 as <- <-; rewrite Hf1, Hp1, Ha1; [done|].
    split_and!; try done. right. split; [done|]. split.
    + intros Hg. destruct work1 as [new|]; simpl in Hz.
      * destruct Hwork1 as (_ & body1 & Hb & ->). rewrite Hb.
        by apply filterDups_nil.
      * specialize (Hwork1 Hg). by destruct (gpu72_fetch e n).
    + exists body. by rewrite Hfind.
  - injection H2 as <- <-. split_and!; try done.
    destruct work1 as [new|]; [|done].
    destruct Hwork1 as (Hg & Hbody). left. split_and!; try done.
    intros ->. simpl in Hc. by destruct (primenet sett).
Qed.

Lemma content_addLog w ev f : content (addLog w ev) f = content w f.
Proof. reflexivity. Qed.

Lemma content_setFile w f c : content (setFile w f c) f = c.
Proof. unfold content. simpl. by destruct (decide (f = f)). Qed.

Lemma file_setFile_ne w f g c : g <> f -> file (setFile w f c) g = file w g.
Proof. intros H. simpl. by destruct (decide (g = f)). Qed.

(** How [TF.topoff] ends once it holds the lock: either nothing is
    written, or the queue is written anew from the assignments found in
    it and the ones a provider gave. *)
Lemma TF_topoff_locked_cases sett e dev w ok w' :
  TF.topoff_locked sett e dev w = (ok, w') ->
  posted w' = posted w /\ acked w' = acked w
  /\ file w' Res = file w Res /\ file w' Sent = file w Sent
  /\ ((content w' Todo = content w Todo
       /\ (ok = true ->
           open_err e Todo = false /\ read_err e Todo = false
           /\ len (queued TFmanager w) >= int_of_uint (Cache dev)
           /\ w' = create w Todo))
      \/ (len (queued TFmanager w) < int_of_uint (Cache dev)
          /\ exists new k err,
               provided sett e dev
                 ((Cache dev - len (queued TFmanager w)) mod 2 ^ 64) new
               /\ (exists n,
                     todo_WriteAt e (Join (queued TFmanager w ++ new) [nl]) = (n, err))
               /\ file w' Todo
                  = Some (take k (Join (queued TFmanager w ++ new) [nl]))
               /\ (ok = true ->
                   err = false
                   /\ (length (Join (queued TFmanager w ++ new) [nl]) <= k)%nat)
               /\ (ok = false ->
                   list.last (logged w')
                   = Some (LogTodoWriteError
                             (Join (queued TFmanager w ++ new) [nl]))))).
Proof.
  unfold TF.topoff_locked, queued. cbn [workRegOf].
  destruct (open_err e Todo).
  { intros [= <- <-]. split_and!; try done. by left. }
  pose proof (create_frame w Todo) as (Hp0 & Ha0 & _ & Hl0).
  destruct (read_err e Todo).
  { intros [= <- <-]. simpl. rewrite Hp0, Ha0, !file_create_same by done.
    split_and!; try done. left. by rewrite content_addLog, content_create_same. }
  rewrite content_create_same.
  set (cur := TF.workReg_FindAll (Replace1 (content w Todo) cr nl)).
  destruct (len cur >=? int_of_uint (Cache dev)) eqn:Hfull.
  { intros [= <- <-]. rewrite Hp0, Ha0, !file_create_same by done.
    split_and!; try done. left. rewrite content_create_same. split; [done|].
    intros _. split_and!; try done. rewrite Z.geb_leb in Hfull.
    apply Z.leb_le in Hfull. lia. }
  cbv zeta.
  set (n := (Cache dev - len cur) mod 2 ^ 64).
  set (w0 := addLog (create w Todo) (LogGetwork n)).
  destruct (if gpu72 sett then TF.getWorkGPU72 e w0 n else (None, w0))
    as [work1 w1] eqn:H1.
  destruct (if (len (default [] work1) =? 0) && primenet sett
            then TF.getWork e w1 n dev else (work1, w1)) as [work w2] eqn:H2.
  destruct (TF_work_cases _ _ _ _ _ _ _ _ _ H1 H2) as (Hf2 & Hp2 & Ha2 & Hwork).
  destruct work as [new|].
  - destruct (todo_WriteAt e (Join (cur ++ new) [nl])) as [n0 err] eqn:Hwr.
    set (k := reached (Join (cur ++ new) [nl])
                (Nat.min n0 (length (Join (cur ++ new) [nl]))) err
                (todo_reach e (Join (cur ++ new) [nl]))).
    assert (Hlt : len cur < int_of_uint (Cache dev)).
    { rewrite Z.geb_leb in Hfull. apply Z.leb_gt in Hfull. lia. }
    destruct (err || negb (Z.of_nat (Nat.min n0 (length (Join (cur ++ new) [nl])))
                           =? len (Join (cur ++ new) [nl]))) eqn:Hbad;
      intros [= <- <-]; simpl; rewrite Hp2, Ha2, Hf2;
      (split_and!; [done|done|apply file_create_same; done
                   |apply file_create_same; done|]);
      right; (split; [done|]); exists new, k, err; unfold written;
      split_and!; try done; try (by exists n0).
    + by rewrite last_snoc.
    + intros _. apply orb_false_iff in Hbad as [-> Hk].
      apply negb_false_iff, Z.eqb_eq in Hk. unfold len in Hk. split; [done|].
      subst k. rewrite reached_complete by lia. done.
  - intros [= <- <-]. simpl. rewrite Hp2, Ha2, Hf2.
    split_and!; try done; try (by apply file_create_same).
    left. split; [|done]. unfold content. simpl. rewrite Hf2.
    apply content_create_same.
Qed.

(** How [LL.topoff] ends once it holds the lock. *)
Lemma LL_topoff_locked_cases e dev w ok w' :
  LL.topoff_locked e dev w = (ok, w') ->
  posted w' = posted w /\ acked w' = acked w
  /\ file w' Res = file w Res /\ file w' Sent = file w Sent
  /\ ((content w' Todo = content w Todo
       /\ (ok = true ->
           open_err e Todo = false /\ read_err e Todo = false
           /\ len (queued LLmanager w) >= int_of_uint (LL.Cache dev)
           /\ w' = create w Todo))
      \/ (len (queued LLmanager w) < int_of_uint (LL.Cache dev)
          /\ exists body k err,
               primenet_fetch e
                 ((LL.Cache dev - len (queued LLmanager w)) mod 2 ^ 64) = Body body
               /\ LL.workReg_FindAll body <> []
               /\ (exists n,
                     todo_WriteAt e
                       (Join (queued LLmanager w ++ LL.workReg_FindAll body) [nl])
                     = (n, err))
               /\ file w' Todo
                  = Some (take k (Join (queued LLmanager w
                                        ++ LL.workReg_FindAll body) [nl]))
               /\ (ok = true ->
                   err = false
                   /\ (length (Join (queued LLmanager w
                                     ++ LL.workReg_FindAll body) [nl]) <= k)%nat)
               /\ (ok = false ->
                   list.last (logged w')
                   = Some (LogTodoWriteError
                             (Join (queued LLmanager w
                                    ++ LL.workReg_FindAll body) [nl]))))).
Proof.
  unfold LL.topoff_locked, queued. cbn [workRegOf].
  destruct (open_err e Todo).
  { intros [= <- <-]. split_and!; try done. by left. }
  pose proof (create_frame w Todo) as (Hp0 & Ha0 & _ & Hl0).
  destruct (read_err e Todo).
  { intros [= <- <-]. simpl. rewrite Hp0, Ha0, !file_create_same by done.
    split_and!; try done. left. by rewrite content_addLog, content_create_same. }
  rewrite content_create_same.
  set (cur := LL.workReg_FindAll (Replace1 (content w Todo) cr nl)).
  destruct (len cur >=? int_of_uint (LL.Cache dev)) eqn:Hfull.
  { intros [= <- <-]. rewrite Hp0, Ha0, !file_create_same by done.
    split_and!; try done. left. rewrite content_create_same. split; [done|].
    intros _. split_and!; try done. rewrite Z.geb_leb in Hfull.
    apply Z.leb_le in Hfull. lia. }
  cbv zeta.
  set (n := (LL.Cache dev - len cur) mod 2 ^ 64).
  unfold LL.getWork.
  assert (Hlt : len cur < int_of_uint (LL.Cache dev)).
  { rewrite Z.geb_leb in Hfull. apply Z.leb_gt in Hfull. lia. }
  assert (Hnone : forall w0, file w0 = file (create w Todo) ->
            posted w0 = posted w -> acked w0 = acked w ->
            posted w0 = posted w /\ acked w0 = acked w
            /\ file w0 Res = file w Res /\ file w0 Sent = file w Sent
            /\ content w0 Todo = content w Todo).
  { intros w0 Hf Hp Ha. unfold content at 1. rewrite Hf.
    split_and!; try done; try (by apply file_create_same).
    apply content_create_same. }
  destruct (primenet_fetch e n) as [| |body] eqn:Hfetch.
  - intros [= <- <-].
    destruct (Hnone (addLog (addLog (addLog (create w Todo) (LogGetwork n))
                               LogConnError) LogNoNewWork))
      as (? & ? & ? & ? & ?); try done. split_and!; try done. by left.
  - intros [= <- <-].
    destruct (Hnone (addLog (addLog (addLog (create w Todo) (LogGetwork n))
                               LogBodyReadError) LogNoNewWork))
      as (? & ? & ? & ? & ?); try done. split_and!; try done. by left.
  - destruct (LL.workReg_FindAll body) as [|r wrk] eqn:Hfind.
    + intros [= <- <-].
      destruct (Hnone (addLog (addLog (create w Todo) (LogGetwork n)) LogNoNewWork))
        as (? & ? & ? & ? & ?); try done. split_and!; try done. by left.
    + destruct (todo_WriteAt e (Join (cur ++ r :: wrk) [nl])) as [n0 err] eqn:Hwr.
      set (k := reached (Join (cur ++ r :: wrk) [nl])
                  (Nat.min n0 (length (Join (cur ++ r :: wrk) [nl]))) err
                  (todo_reach e (Join (cur ++ r :: wrk) [nl]))).
      destruct (err || negb (Z.of_nat (Nat.min n0 (length (Join (cur ++ r :: wrk) [nl])))
                             =? len (Join (cur ++ r :: wrk) [nl]))) eqn:Hbad;
        intros [= <- <-]; simpl; rewrite Hp0, Ha0;
        (split_and!; [done|done|apply file_create_same; done
                     |apply file_create_same; done|]);
        right; (split; [done|]); exists body, k, err; rewrite Hfind;
        unfold written; split_and!; try done; try (by exists n0).
      * by rewrite last_snoc.
      * intros _. apply orb_false_iff in Hbad as [-> Hk].
        apply negb_false_iff, Z.eqb_eq in Hk. unfold len in Hk. split; [done|].
        subst k. rewrite reached_complete by lia. done.
Qed.

Lemma queued_ext m w w0 : file w0 Todo = file w Todo -> queued m w0 = queued m w.
Proof. intros H. unfold queued, content. by rewrite H. Qed.

Lemma lockFile_single e w f w0 :
  lockFile e w [f] = (true, w0) -> lck w f = false.
Proof.
  unfold lockFile. simpl. destruct (lck w f); [|done]. by intros [= ].
Qed.

(** How [TF.topoff] ends. *)
Lemma TF_topoff_cases sett e dev w ok w' :
  TF.topoff sett e dev w = (ok, w') ->
  posted w' = posted w /\ acked w' = acked w
  /\ file w' Res = file w Res /\ file w' Sent = file w Sent
  /\ ((content w' Todo = content w Todo
       /\ (ok = true ->
           lck w Todo = false
           /\ open_err e Todo = false /\ read_err e Todo = false
           /\ len (queued TFmanager w) >= int_of_uint (Cache dev)
           /\ file w' Todo = Some (content w Todo)
           /\ logged w' = logged w))
      \/ (len (queued TFmanager w) < int_of_uint (Cache dev)
          /\ exists new k err,
               provided sett e dev
                 ((Cache dev - len (queued TFmanager w)) mod 2 ^ 64) new
               /\ (exists n,
                     todo_WriteAt e (Join (queued TFmanager w ++ new) [nl]) = (n, err))
               /\ file w' Todo
                  = Some (take k (Join (queued TFmanager w ++ new) [nl]))
               /\ (ok = true ->
                   err = false
                   /\ (length (Join (queued TFmanager w ++ new) [nl]) <= k)%nat)
               /\ (ok = false ->
                   list.last (logged w')
                   = Some (LogTodoWriteError
                             (Join (queued TFmanager w ++ new) [nl]))))).
Proof.
  unfold TF.topoff. destruct (lockFile e w [Todo]) as [[] w0] eqn:Hlock.
  - pose proof (lockFile_single _ _ _ _ Hlock) as Hfree.
    apply lockFile_frame in Hlock as (Hf0 & Hp0 & Ha0 & Hl0).
    destruct (TF.topoff_locked sett e dev w0) as [ok2 w2] eqn:Hrun.
    intros Hret. injection Hret as <- <-.
    destruct (unlockFile_frame e [Todo] w2) as (Hf & Hp & Ha & Hl).
    apply TF_topoff_locked_cases in Hrun as (Hp2 & Ha2 & Hr2 & Hs2 & Hcases).
    rewrite (queued_ext TFmanager w w0) in Hcases by (by rewrite Hf0).
    unfold content in *. rewrite Hf, Hp, Ha, Hl, Hp2, Ha2, Hr2, Hs2, Hp0, Ha0.
    rewrite Hf0 in *. split_and!; try done.
    destruct Hcases as [[Hc Hok]|Hw]; [left|by right].
    split; [done|]. intros ->. destruct (Hok eq_refl) as (? & ? & ? & ->).
    split_and!; try done.
    + rewrite content_create. unfold content. by rewrite Hf0.
    + destruct (create_frame w0 Todo) as (_ & _ & _ & ->). done.
  - apply lockFile_frame in Hlock as (Hf0 & Hp0 & Ha0 & Hl0).
    intros [= <- <-]. unfold content. simpl. rewrite Hf0, Hp0, Ha0.
    split_and!; try done. by left.
Qed.

(** How [LL.topoff] ends. *)
Lemma LL_topoff_cases e dev w ok w' :
  LL.topoff e dev w = (ok, w') ->
  posted w' = posted w /\ acked w' = acked w
  /\ file w' Res = file w Res /\ file w' Sent = file w Sent
  /\ ((content w' Todo = content w Todo
       /\ (ok = true ->
           lck w Todo = false
           /\ open_err e Todo = false /\ read_err e Todo = false
           /\ len (queued LLmanager w) >= int_of_uint (LL.Cache dev)
           /\ file w' Todo = Some (content w Todo)
           /\ logged w' = logged w))
      \/ (len (queued LLmanager w) < int_of_uint (LL.Cache dev)
          /\ exists body k err,
               primenet_fetch e
                 ((LL.Cache dev - len (queued LLmanager w)) mod 2 ^ 64) = Body body
               /\ LL.workReg_FindAll body <> []
               /\ (exists n,
                     todo_WriteAt e
                       (Join (queued LLmanager w ++ LL.workReg_FindAll body) [nl])
                     = (n, err))
               /\ file w' Todo
                  = Some (take k (Join (queued LLmanager w
                                        ++ LL.workReg_FindAll body) [nl]))
               /\ (ok = true ->
                   err = false
                   /\ (length (Join (queued LLmanager w
                                     ++ LL.workReg_FindAll body) [nl]) <= k)%nat)
               /\ (ok = false ->
                   list.last (logged w')
                   = Some (LogTodoWriteError
                             (Join (queued LLmanager w
                                    ++ LL.workReg_FindAll body) [nl]))))).
Proof.
  unfold LL.topoff. destruct (lockFile e w [Todo]) as [[] w0] eqn:Hlock.
  - pose proof (lockFile_single _ _ _ _ Hlock) as Hfree.
    apply lockFile_frame in Hlock as (Hf0 & Hp0 & Ha0 & Hl0).
    destruct (LL.topoff_locked e dev w0) as [ok2 w2] eqn:Hrun.
    intros Hret. injection Hret as <- <-.
    destruct (unlockFile_frame e [Todo] w2) as (Hf & Hp & Ha & Hl).
    apply LL_topoff_locked_cases in Hrun as (Hp2 & Ha2 & Hr2 & Hs2 & Hcases).
    rewrite (queued_ext LLmanager w w0) in Hcases by (by rewrite Hf0).
    unfold content in *. rewrite Hf, Hp, Ha, Hl, Hp2, Ha2, Hr2, Hs2, Hp0, Ha0.
    rewrite Hf0 in *. split_and!; try done.
    destruct Hcases as [[Hc Hok]|Hw]; [left|by right].
    split; [done|]. intros ->. destruct (Hok eq_refl) as (? & ? & ? & ->).
    split_and!; try done.
    + rewrite content_create. unfold content. by rewrite Hf0.
    + destruct (create_frame w0 Todo) as (_ & _ & _ & ->). done.
  - apply lockFile_frame in Hlock as (Hf0 & Hp0 & Ha0 & Hl0).
    intros [= <- <-]. unfold content. simpl. rewrite Hf0, Hp0, Ha0.
    split_and!; try done. by left.
Qed.



(** X6. When [topoff] returns [false], the queue file has the content it
    had, unless the failure is the write of the new queue: then the file
    holds the part of the new text that the write put down (the
    truncation before it, whose result the code does not look at, is
    taken to have emptied the file), and the last line of the log carries
    the whole text that should have been written, which starts with the
    assignments that were queued. *)
Theorem topoff_failure_and_the_queue
    (sett : settings) (e : Env) (w : World) :
  (forall dev w', TF.topoff sett e dev w = (false, w') ->
     content w' Todo = content w Todo
     \/ exists new k,
          list.last (logged w')
            = Some (LogTodoWriteError (Join (queued TFmanager w ++ new) [nl]))
          /\ file w' Todo = Some (take k (Join (queued TFmanager w ++ new) [nl])))
  /\ (forall dev w', LL.topoff e dev w = (false, w') ->
     content w' Todo = content w Todo
     \/ exists new k,
          list.last (logged w')
            = Some (LogTodoWriteError (Join (queued LLmanager w ++ new) [nl]))
          /\ file w' Todo = Some (take k (Join (queued LLmanager w ++ new) [nl]))).
Proof.
  split; intros dev w' Hrun.
  - apply TF_topoff_cases in Hrun as (_ & _ & _ & _ & [[Hc _]|(_ & Hw)]);
      [by left|right].
    destruct Hw as (new & k & err & _ & _ & Hf & _ & Hlog).
    exists new, k. split; [by apply Hlog|done].
  - apply LL_topoff_cases in Hrun as (_ & _ & _ & _ & [[Hc _]|(_ & Hw)]);
      [by left|right].
    destruct Hw as (body & k & err & _ & _ & _ & Hf & _ & Hlog).
    exists (LL.workReg_FindAll body), k. split; [by apply Hlog|done].
Qed.

Lemma topoff_failure_witness :
  exists w',
    TF.topoff gpu72Only (fetchEnv ConnError ConnError) (mkDevice 5 73) noFiles
    = (false, w')
    /\ (content w' Todo = content noFiles Todo
        \/ exists new k,
             list.last (logged w')
             = Some (LogTodoWriteError (Join (queued TFmanager noFiles ++ new) [nl]))
             /\ file w' Todo
                = Some (take k (Join (queued TFmanager noFiles ++ new) [nl]))).
Proof.
  eexists. split; [vm_compute; reflexivity|].
  apply (proj1 (topoff_failure_and_the_queue gpu72Only
                  (fetchEnv ConnError ConnError) noFiles) (mkDevice 5 73)).
  vm_compute. reflexivity.
Defined.




















(** X11. With a full cache nothing is asked for: when the lock is free,
    the queue file can be read and it holds at least [Cache]
    assignments, [topoff] of either manager returns [true] without a
    line in the log, and the queue file has the content it had (it is
    created, empty, when it did not exist and [Cache] is zero). *)
Theorem full_cache_nothing_fetched
    (sett : settings) (e : Env) (w : World) :
  lck w Todo = false -> mark_err e Todo = false ->
  open_err e Todo = false -> read_err e Todo = false ->
  (forall dev,
     int_of_uint (Cache dev) <= len (queued TFmanager w) ->
     exists w', TF.topoff sett e dev w = (true, w')
       /\ file w' Todo = Some (content w Todo) /\ logged w' = logged w)
  /\ (forall dev,
     int_of_uint (LL.Cache dev) <= len (queued LLmanager w) ->
     exists w', LL.topoff e dev w = (true, w')
       /\ file w' Todo = Some (content w Todo) /\ logged w' = logged w).
Proof.
  intros Hfree Hmark Hopen Hread.
  assert (Hlock : lockFile e w [Todo] = (true, setLck w Todo true)).
  { unfold lockFile. simpl. by rewrite Hfree, Hmark. }
  split; intros dev Hfull.
  - assert (Hge : (len (queued TFmanager w) >=? int_of_uint (Cache dev)) = true).
    { rewrite Z.geb_leb. apply Z.leb_le. lia. }
    unfold queued in Hge. simpl in Hge.
    unfold TF.topoff. rewrite Hlock. unfold TF.topoff_locked.
    rewrite Hopen, Hread, !content_create_same.
    change (content (setLck w Todo true) Todo) with (content w Todo).
    rewrite Hge. eexists. split; [reflexivity|].
    destruct (unlockFile_frame e [Todo] (create (setLck w Todo true) Todo))
      as (-> & _ & _ & ->).
    rewrite content_create. split; [done|].
    by destruct (create_frame (setLck w Todo true) Todo) as (_ & _ & _ & ->).
  - assert (Hge : (len (queued LLmanager w) >=? int_of_uint (LL.Cache dev)) = true).
    { rewrite Z.geb_leb. apply Z.leb_le. lia. }
    unfold queued in Hge. simpl in Hge.
    unfold LL.topoff. rewrite Hlock. unfold LL.topoff_locked.
    rewrite Hopen, Hread, !content_create_same.
    change (content (setLck w Todo true) Todo) with (content w Todo).
    rewrite Hge. eexists. split; [reflexivity|].
    destruct (unlockFile_frame e [Todo] (create (setLck w Todo true) Todo))
      as (-> & _ & _ & ->).
    rewrite content_create. split; [done|].
    by destruct (create_frame (setLck w Todo true) Todo) as (_ & _ & _ & ->).
Qed.

Lemma full_cache_witness :
  exists w',
    TF.topoff gpu72Only (fetchEnv ConnError ConnError) (mkDevice 1 73) queuedRecord
    = (true, w')
    /\ file w' Todo = Some (content queuedRecord Todo)
    /\ logged w' = logged queuedRecord.
Proof.
  apply (proj1 (full_cache_nothing_fetched gpu72Only (fetchEnv ConnError ConnError)
                  queuedRecord eq_refl eq_refl eq_refl eq_refl) (mkDevice 1 73)).
  vm_compute. discriminate.
Defined.

(** X12. [topoff] touches nothing but the queue file: in both managers
    and however the call ends, nothing is posted, and the results file
    and the ledger are as they were. *)
Theorem topoff_touches_only_the_queue
    (sett : settings) (e : Env) (w : World) :
  (forall dev,
     posted (snd (TF.topoff sett e dev w)) = posted w
     /\ acked (snd (TF.topoff sett e dev w)) = acked w
     /\ file (snd (TF.topoff sett e dev w)) Res = file w Res
     /\ file (snd (TF.topoff sett e dev w)) Sent = file w Sent)
  /\ (forall dev,
     posted (snd (LL.topoff e dev w)) = posted w
     /\ acked (snd (LL.topoff e dev w)) = acked w
     /\ file (snd (LL.topoff e dev w)) Res = file w Res
     /\ file (snd (LL.topoff e dev w)) Sent = file w Sent).
Proof.
  split; intros dev.
  - destruct (TF.topoff sett e dev w) as [ok w'] eqn:Hrun.
    by apply TF_topoff_cases in Hrun as (? & ? & ? & ? & _).
  - destruct (LL.topoff e dev w) as [ok w'] eqn:Hrun.
    by apply LL_topoff_cases in Hrun as (? & ? & ? & ? & _).
Qed.

(** ** The duplicate filter and the loop offsets *)

Lemma filterDups_app w : forall w2,
  exists l,
    TF.filterDups w w2 = w2 ++ l /\ sublist l w
    /\ (NoDup w -> (forall x, x ∈ w -> x ∉ w2) -> l = w).
Proof.
  induction w as [|y w IH]; intros w2; simpl.
  - exists []. by rewrite app_nil_r.
  - destruct (existsb _ w2) eqn:Hex.
    + apply existsb_eq_elem in Hex. destruct (IH w2) as (l & -> & Hsub & _).
      exists l. split; [done|]. split; [by constructor|].
      intros _ Hnot. exfalso. apply (Hnot y); [left|done].
    + assert (Hy : y ∉ w2).
      { intros Hin. apply existsb_eq_elem in Hin. congruence. }
      destruct (IH (w2 ++ [y])) as (l & -> & Hsub & Hid).
      exists (y :: l). split; [by rewrite <- app_assoc|].
      split; [by constructor|].
      intros Hnd Hnot. apply list.NoDup_cons in Hnd as [Hyw Hnd]. f_equal.
      apply Hid; [done|]. intros x Hx [Hin|Hin]%elem_of_app.
      * apply (Hnot x); [by right|done].
      * apply list_elem_of_singleton in Hin. by subst.
Qed.

(** X13. The duplicate filter of [getWorkGPU72] keeps the order of the
    page: what it returns is the batch with some assignments left out,
    the others in their order, and a batch without duplicates is
    returned as it is. *)
Theorem filterDups_keeps_order (w : list bytes) :
  sublist (TF.filterDups w []) w
  /\ (NoDup w -> TF.filterDups w [] = w).
Proof.
  destruct (filterDups_app w []) as (l & Heq & Hsub & Hid).
  rewrite Heq. simpl. split; [done|].
  intros Hnd. apply Hid; [done|]. intros x _. apply not_elem_of_nil.
Qed.

Lemma filterDups_order_witness :
  TF.filterDups [B "Factor=N/A,1000003,72,73"; B "Factor=N/A,1000033,72,73"] []
  = [B "Factor=N/A,1000003,72,73"; B "Factor=N/A,1000033,72,73"].
Proof.
  apply (proj2 (filterDups_keeps_order
                  [B "Factor=N/A,1000003,72,73"; B "Factor=N/A,1000033,72,73"])).
  apply (bool_decide_unpack _). vm_compute. exact I.
Defined.

(** X14. The offsets of the chunking loop stay in range, so that none of
    its slice expressions can fail: at every iteration that a run
    reaches, the offset [i] is within the blob; where the window
    [results[i:i+sendlimit]] is taken, it ends within the blob; and the
    chunk [results[i:i+loc]] that is posted is not empty, has [loc]
    bytes and ends within the blob. *)
Theorem loop_slices_in_range
    (limit : Z) (e : Env) (results : bytes) (w w2 : World) (i : Z) :
  0 <= limit ->
  iterates limit e results w 0 w2 i ->
  0 <= i <= len results
  /\ (i < len results - 1 ->
      (len (slice_from results i) > limit -> i + limit < len results)
      /\ (0 < nextLoc limit results i ->
          i + nextLoc limit results i <= len results
          /\ len (slice results i (i + nextLoc limit results i))
             = nextLoc limit results i)).
Proof.
  intros Hlim Hit.
  pose proof (iterates_bound limit e results w 0 w2 i Hit
                ltac:(pose proof (len_nonneg results); lia)) as Hi.
  split; [done|]. intros Hc.
  assert (Hrest : len (slice_from results i) = len results - i)
    by (apply slice_from_len; lia).
  split; [lia|]. intros Hloc.
  destruct (nextLoc_chunk limit results i ltac:(lia) Hc Hloc)
    as (post & Hd & Hl & _ & _ & _).
  cbv zeta in Hd. split; [|done].
  assert (Hlen : len (drop (Z.to_nat i) results) = len results - i)
    by (unfold len; rewrite length_drop; unfold len in Hi; lia).
  rewrite Hd, len_app, Hl in Hlen. pose proof (len_nonneg post). lia.
Qed.

Lemma loop_slices_witness :
  exists w2 i,
    iterates 10 okEnv (B "M1 a" ++ [nl] ++ B "M2 b" ++ [nl] ++ B "M3 c")
      (world0 (Some []) (Some [])) 0 w2 i
    /\ i = 10
    /\ 0 <= i <= len (B "M1 a" ++ [nl] ++ B "M2 b" ++ [nl] ++ B "M3 c")
    /\ (i < len (B "M1 a" ++ [nl] ++ B "M2 b" ++ [nl] ++ B "M3 c") - 1 ->
        (len (slice_from (B "M1 a" ++ [nl] ++ B "M2 b" ++ [nl] ++ B "M3 c") i) > 10 ->
         i + 10 < len (B "M1 a" ++ [nl] ++ B "M2 b" ++ [nl] ++ B "M3 c"))
        /\ (0 < nextLoc 10 (B "M1 a" ++ [nl] ++ B "M2 b" ++ [nl] ++ B "M3 c") i ->
            i + nextLoc 10 (B "M1 a" ++ [nl] ++ B "M2 b" ++ [nl] ++ B "M3 c") i
            <= len (B "M1 a" ++ [nl] ++ B "M2 b" ++ [nl] ++ B "M3 c")
            /\ len (slice (B "M1 a" ++ [nl] ++ B "M2 b" ++ [nl] ++ B "M3 c") i
                      (i + nextLoc 10
                             (B "M1 a" ++ [nl] ++ B "M2 b" ++ [nl] ++ B "M3 c") i))
               = nextLoc 10 (B "M1 a" ++ [nl] ++ B "M2 b" ++ [nl] ++ B "M3 c") i)).
Proof.
  assert (Hit : exists w2,
    iterates 10 okEnv (B "M1 a" ++ [nl] ++ B "M2 b" ++ [nl] ++ B "M3 c")
      (world0 (Some []) (Some [])) 0 w2 10).
  { eexists. eapply iterates_next; [vm_compute; reflexivity|apply iterates_here]. }
  destruct Hit as [w2 Hit]. exists w2, 10. split; [exact Hit|].
  split; [reflexivity|].
  apply (loop_slices_in_range 10 okEnv
           (B "M1 a" ++ [nl] ++ B "M2 b" ++ [nl] ++ B "M3 c")
           (world0 (Some []) (Some [])) w2 10); [lia|exact Hit].
Defined.

(** ** Polling *)

Section TFPolling.

Context (sett : settings).

Lemma startsFailing_cons c script n :
  startsFailing sett (S n) (c :: script)
  <-> cycleOK TFmanager sett c = false /\ startsFailing sett n script.
Proof.
  split.
  - intros (fails & rest & Hs & Hlen & Hall).
    destruct fails as [|c' fails]; [done|]. injection Hs as <- ->.
    inversion Hall; subst. split; [done|]. exists fails, rest.
    split_and!; try done. simpl in Hlen. lia.
  - intros (Hc & fails & rest & -> & <- & Hall).
    exists (c :: fails), rest. split_and!; try done. by constructor.
Qed.

Lemma startsFailing_le n k script :
  (k <= n)%nat -> startsFailing sett n script -> startsFailing sett k script.
Proof.
  intros Hk (fails & rest & -> & <- & Hall).
  exists (take k fails), (drop k fails ++ rest).
  rewrite app_assoc, take_drop. split_and!; try done.
  - rewrite length_take. lia.
  - by apply Forall_take.
Qed.

Lemma tenInARow_cons c script :
  tenInARow sett (c :: script)
  <-> startsFailing sett 10 (c :: script) \/ tenInARow sett script.
Proof.
  split.
  - intros (pre & rest & Hs & Hf). destruct pre as [|c' pre].
    + left. simpl in Hs. by rewrite Hs.
    + right. injection Hs as <- ->. by exists pre, rest.
  - intros [Hf|(pre & rest & -> & Hf)].
    + by exists [], (c :: script).
    + by exists (c :: pre), rest.
Qed.

Lemma TF_polling_step c script ct :
  ct < 10 ->
  TF.polling sett (c :: script) ct =
    if cycleOK TFmanager sett c
    then if Polltime sett =? 0 then Some true else TF.polling sett script 0
    else TF.polling sett script (ct + 1).
Proof.
  intros Hct. cbn [TF.polling cycleOK].
  assert (E : (ct <? 10) = true) by (by apply Z.ltb_lt). rewrite E.
  destruct (login_ok c), (gpu72 sett), (forallb update_ok (updates c)); done.
Qed.

Lemma TF_polling_spec script : forall ct,
  0 <= ct <= 10 ->
  TF.polling sett script ct = Some true <->
    startsFailing sett (Z.to_nat (10 - ct)) script
    \/ tenInARow sett script
    \/ (Polltime sett = 0
        /\ exists c, c ∈ script /\ cycleOK TFmanager sett c = true).
Proof.
  induction script as [|c script IH]; intros ct Hct.
  - cbn [TF.polling]. destruct (ct <? 10) eqn:E.
    + apply Z.ltb_lt in E. split; [done|].
      intros [(fails & rest & Hs & Hlen & _)|[(pre & rest & Hs & Hf)|(_ & c & Hc & _)]].
      * symmetry in Hs. apply app_eq_nil in Hs as [-> _]. simpl in Hlen. lia.
      * symmetry in Hs. apply app_eq_nil in Hs as [_ ->].
        destruct Hf as (fails & rest' & Hs & Hlen & _).
        symmetry in Hs. apply app_eq_nil in Hs as [-> _]. done.
      * by apply elem_of_nil in Hc.
    + apply Z.ltb_ge in E. split; [intros _|done]. left.
      replace (10 - ct) with 0 by lia. by exists [], [].
  - destruct (decide (ct = 10)) as [->|Hne].
    { cbn [TF.polling]. split; [intros _|done]. left. by exists [], (c :: script). }
    rewrite TF_polling_step by lia.
    replace (Z.to_nat (10 - ct)) with (S (Z.to_nat (10 - (ct + 1)))) by lia.
    rewrite startsFailing_cons, tenInARow_cons.
    destruct (cycleOK TFmanager sett c) eqn:Hok.
    + destruct (Polltime sett =? 0) eqn:Hp.
      * apply Z.eqb_eq in Hp. split; [intros _|done]. right. right.
        split; [done|]. exists c. split; [left|done].
      * apply Z.eqb_neq in Hp. rewrite (IH 0) by lia. split.
        -- intros [Hf|[Hten|[Hz _]]]; [|by right; left; right|done].
           right. left. right. by exists [], script.
        -- intros [[Hf _]|[[Hf|Hten]|[Hz _]]]; try done.
           ++ apply (startsFailing_le 10 1) in Hf; [|lia].
              apply startsFailing_cons in Hf as [Hf _]. congruence.
           ++ by right; left.
    + rewrite (IH (ct + 1)) by lia. split.
      * intros [Hf|[Hten|(Hz & c' & Hc' & Hok')]].
        -- by left.
        -- right. left. by right.
        -- right. right. split; [done|]. exists c'. split; [by right|done].
      * intros [[_ Hf]|[[Hf|Hten]|(Hz & c' & Hc' & Hok')]].
        -- by left.
        -- left. apply startsFailing_cons in Hf as [_ Hf].
           apply (startsFailing_le 9); [lia|done].
        -- right. by left.
        -- right. right. split; [done|]. exists c'. split; [|done].
           apply elem_of_cons in Hc' as [->|]; [congruence|done].
Qed.

End TFPolling.

(** X15. TFmanager's polling loop ends in exactly two ways: after ten
    passes in a row that fail (the login fails and GPU72 is not
    configured, or the update of a device fails), or, with a polling
    interval of zero, after a pass that goes through. A pass that goes
    through starts the count of failures again. Either way the process
    ends in [log.Fatal]. *)
Theorem TF_polling_ends (sett : settings) (script : list cycle) :
  TF.main false sett script = Some ExitFatal <->
    (exists pre fails rest,
       script = pre ++ fails ++ rest /\ length fails = 10%nat
       /\ Forall (fun c => cycleOK TFmanager sett c = false) fails)
    \/ (Polltime sett = 0
        /\ exists c, c ∈ script /\ cycleOK TFmanager sett c = true).
Proof.
  unfold TF.main.
  pose proof (TF_polling_spec sett script 0 ltac:(lia)) as H.
  change (Z.to_nat (10 - 0)) with 10%nat in H.
  destruct (TF.polling sett script 0) as [[]|] eqn:E.
  - split; [intros _|done]. destruct (proj1 H eq_refl) as [Hf|[Hten|Hs]].
    + left. destruct Hf as (fails & rest & -> & Hlen & Hall).
      by exists [], fails, rest.
    + left. destruct Hten as (pre & rest' & -> & fails & rest & -> & Hlen & Hall).
      by exists pre, fails, rest.
    + by right.
  - split; [intros _|done]. exfalso. clear H.
    revert E. generalize 0. induction script as [|c script IH]; intros ct; simpl.
    + by destruct (ct <? 10).
    + destruct (ct <? 10); [|done].
      destruct (negb (login_ok c) && negb (gpu72 sett)); [apply IH|].
      destruct (forallb update_ok (updates c)); [|apply IH].
      destruct (Polltime sett =? 0); [done|apply IH].
  - split; [done|]. intros [(pre & fails & rest & -> & Hlen & Hall)|Hs].
    + assert (@None bool = Some true); [|done]. apply H.
      right. left. exists pre, (fails ++ rest). split; [done|].
      by exists fails, rest.
    + assert (@None bool = Some true); [|done]. apply H.
      by right; right.
Qed.

(** X16. The clLucas manager never gives up: its polling loop ends only
    with a polling interval of zero, after a pass in which the login and
    the update of every device succeed, and then [main] returns. However
    many passes fail, the process goes on polling. *)
Theorem LL_polling_ends (sett : settings) (script : list cycle) :
  (LL.main false sett script = Some ExitNormal <->
     Polltime sett = 0
     /\ exists c, c ∈ script /\ cycleOK LLmanager sett c = true)
  /\ LL.main false sett script <> Some ExitFatal.
Proof.
  unfold LL.main. split; [|by destruct (LL.polling sett script)].
  induction script as [|c script IH]; cbn [LL.polling cycleOK].
  - split; [done|]. intros (_ & c & Hc & _). by apply elem_of_nil in Hc.
  - destruct (login_ok c) eqn:Hl; cbn [negb andb].
    + destruct (forallb update_ok (updates c)) eqn:Hu.
      * destruct (Polltime sett =? 0) eqn:Hp.
        -- apply Z.eqb_eq in Hp. split; [intros _|done]. split; [done|].
           exists c. split; [left|]. simpl. by rewrite Hl, Hu.
        -- apply Z.eqb_neq in Hp. rewrite IH. split; intros (Hz & _); done.
      * rewrite IH. split; intros (Hz & c' & Hc' & Hok); (split; [done|]);
          exists c'; (split; [|done]).
        -- by right.
        -- apply elem_of_cons in Hc' as [->|]; [|done].
           simpl in Hok. by rewrite Hl, Hu in Hok.
    + rewrite IH. split; intros (Hz & c' & Hc' & Hok); (split; [done|]);
        exists c'; (split; [|done]).
      * by right.
      * apply elem_of_cons in Hc' as [->|]; [|done].
        simpl in Hok. by rewrite Hl in Hok.
Qed.

(** ** What [sendResults] never does *)

Lemma opened_Abort_frame m e w o wA :
  match m with TFmanager => TF.opened e w | LLmanager => LL.opened e w end
    = Abort o wA ->
  posted wA = posted w /\ acked wA = acked w /\ file wA Todo = file w Todo
  /\ forall f, content wA f = content w f.
Proof.
  destruct (create_frame w Res) as (Hp1 & Ha1 & _).
  destruct (create_frame (create w Res) Sent) as (Hp2 & Ha2 & _).
  assert (Ht1 : file (create w Res) Todo = file w Todo)
    by (by apply file_create_same).
  assert (Ht2 : file (create (create w Res) Sent) Todo = file w Todo)
    by (by rewrite !file_create_same).
  assert (Hc1 : forall f, content (create w Res) f = content w f)
    by (intros f; apply content_create_same).
  assert (Hc2 : forall f, content (create (create w Res) Sent) f = content w f)
    by (intros f; by rewrite !content_create_same).
  destruct m; [unfold TF.opened|unfold LL.opened];
    repeat match goal with
           | |- context [if ?c then _ else _] => destruct c
           | |- context [match ?c with Some _ => _ | None => _ end] =>
               destruct c as [[? ?]|]
           end;
    intros [= <- <-]; simpl;
    rewrite ?Hp2, ?Ha2, ?Hp1, ?Ha1, ?Ht2, ?Ht1; split_and!; try done;
    intros f; rewrite ?content_addLog, ?Hc2, ?Hc1; done.
Qed.

Lemma content_unlockFile e w fs f : content (unlockFile e w fs) f = content w f.
Proof.
  unfold content. by destruct (unlockFile_frame e fs w) as (-> & _).
Qed.

Lemma prepare_Abort_frame m e w o wA :
  prepareOf m e w = Abort o wA ->
  posted wA = posted w /\ acked wA = acked w /\ file wA Todo = file w Todo
  /\ forall f, content wA f = content w f.
Proof.
  assert (Hgen : forall locks,
    match lockFile e w locks with
    | (false, w1) => Abort (Return false) (addLog w1 LogLockFailed)
    | (true, w1) =>
        match match m with
              | TFmanager => TF.opened e w1
              | LLmanager => LL.opened e w1
              end with
        | Abort o w2 => Abort o (unlockFile e w2 locks)
        | Ready w2 keep send => Ready w2 keep send
        end
    end = Abort o wA ->
    posted wA = posted w /\ acked wA = acked w /\ file wA Todo = file w Todo
    /\ forall f, content wA f = content w f).
  { intros locks. destruct (lockFile e w locks) as [[] w0] eqn:Hlock;
      apply lockFile_frame in Hlock as (Hf & Hp & Ha & _).
    - destruct (match m with TFmanager => _ | LLmanager => _ end)
        as [o' w2|] eqn:Hop; [|discriminate].
      intros Heq. injection Heq as <- <-.
      apply opened_Abort_frame in Hop as (Hp2 & Ha2 & Ht2 & Hc2).
      destruct (unlockFile_frame e locks w2) as (Hfu & Hpu & Hau & _).
      rewrite Hfu, Hpu, Hau, Hp2, Ha2, Ht2, Hp, Ha, Hf. split_and!; try done.
      intros f. rewrite content_unlockFile, Hc2. unfold content. by rewrite Hf.
    - intros [= <- <-]. simpl. rewrite Hp, Ha, Hf. split_and!; try done.
      intros f. unfold content. simpl. by rewrite Hf. }
  destruct m; apply Hgen.
Qed.

Lemma prepare_Ready_todo m e w w1 keep send :
  prepareOf m e w = Ready w1 keep send -> file w1 Todo = file w Todo.
Proof.
  destruct m; simpl; intros H.
  - apply TF_prepare_Ready in H as (c & q & _ & Hq & _ & Hq1 & _). congruence.
  - by apply LL_prepare_Ready in H as (c & _ & _ & Hq1 & _).
Qed.

Lemma finish_todo m e w keep send :
  file (snd (match m with
             | TFmanager => TF.finish e w keep send
             | LLmanager => LL.finish e w
             end)) Todo = file w Todo.
Proof.
  destruct m.
  - destruct (TF_finish_frame e w keep send) as (wf & tail & -> & _ & _ & Ht & _).
    done.
  - destruct (LL_finish_frame e w) as (wf & tail & -> & _ & _ & Ht & _). done.
Qed.

(** The state at the end of a call of [sendResults], against the state
    at its start. *)
Lemma sendResults_frame m limit e w o w' :
  sendResultsWith m limit e w = (o, w') ->
  file w' Todo = file w Todo
  /\ (exists tail, content w' Sent = content w Sent ++ tail)
  /\ exists accepted rejected,
       posted w' = posted w ++ accepted ++ rejected
       /\ acked w' = acked w ++ accepted
       /\ (rejected = [] \/ exists c, rejected = [c] /\ o = Return false).
Proof.
  intros Hrun.
  destruct (prepareOf m e w) as [o1 wA|w1 keep send] eqn:Hprep.
  - assert (o = o1 /\ w' = wA) as [-> ->].
    { destruct m; simpl in *;
        [unfold TF.sendResults_with in Hrun|unfold LL.sendResults_with in Hrun];
        rewrite Hprep in Hrun; by injection Hrun as <- <-. }
    apply prepare_Abort_frame in Hprep as (Hp & Ha & Ht & Hc).
    split; [done|]. split; [exists []; by rewrite Hc, app_nil_r|].
    exists [], []. rewrite Hp, Ha, !app_nil_r. split_and!; try done. by left.
  - pose proof (prepare_Ready_todo _ _ _ _ _ _ Hprep) as Ht1.
    destruct (prepare_Ready _ _ _ _ _ _ Hprep) as (_ & _ & HS & HP & HA & _).
    destruct (sendResults_cases _ _ _ _ _ _ _ _ _ Hprep Hrun)
      as (w2 & i2 & Hit & Hend).
    destruct (iterates_state _ _ _ _ _ _ _ Hit ltac:(lia))
      as (chunks & _ & Hi & _ & HT2 & _ & _ & HP2 & HA2 & HS2 & _).
    assert (Hi0 : 0 <= i2) by (pose proof (len_nonneg (concat chunks)); lia).
    assert (Hs1 : content w1 Sent = content w Sent) by (by apply content_Some).
    destruct Hend as [(why & w3 & Hfail & -> & ->)|(Hstop & wf & Hfin & -> & ->)].
    + destruct (loop_step_Fail _ _ _ _ _ _ _ Hi0 Hfail) as (_ & HT3 & _ & _ & Hwhy).
      destruct (unlockFile_frame e (locksOf m) w3) as (Hf & Hp & Ha & _).
      rewrite content_unlockFile, Hf, Hp, Ha, HT3, HT2, Ht1.
      split; [done|]. destruct why.
      * destruct Hwhy as (Hp3 & Ha3 & Hs3 & _).
        split.
        { exists (concat chunks). unfold content at 1.
          rewrite Hs3. fold (content w2 Sent). by rewrite HS2, Hs1. }
        exists chunks, []. rewrite Hp3, Ha3, HP2, HA2, HP, HA, app_nil_r.
        split_and!; try done. by left.
      * destruct Hwhy as ((c & Hp3 & _) & Ha3 & Hs3).
        split.
        { exists (concat chunks). unfold content at 1.
          rewrite Hs3. fold (content w2 Sent). by rewrite HS2, Hs1. }
        exists chunks, [c]. rewrite Hp3, Ha3, HP2, HA2, HP, HA, <- app_assoc.
        split_and!; try done. right. by exists c.
      * destruct Hwhy as ((c & Hp3 & Ha3 & _) & part & Hs3).
        split.
        { exists (concat chunks ++ part). rewrite (content_Some _ _ _ Hs3).
          by rewrite HS2, Hs1, <- app_assoc. }
        exists (chunks ++ [c]), [].
        rewrite Hp3, Ha3, HP2, HA2, HP, HA, app_nil_r, <- !app_assoc.
        split_and!; try done. by left.
    + destruct (finish_frame m e w2 keep send) as (wf' & tail & Hfin' & Hpf & Haf & Hsf & _).
      pose proof (finish_todo m e w2 keep send) as Htf.
      rewrite Hfin in Hfin'. injection Hfin' as <-. rewrite Hfin in Htf.
      cbn [snd] in Htf.
      destruct (unlockFile_frame e (locksOf m) wf) as (Hf & Hp & Ha & _).
      rewrite content_unlockFile, Hf, Hp, Ha, Htf, HT2, Ht1, Hpf, Haf, Hsf.
      rewrite HP2, HA2, HP, HA, HS2, Hs1.
      split; [done|]. split; [exists (concat chunks ++ tail); by rewrite app_assoc|].
      exists chunks, []. rewrite app_nil_r. split_and!; try done. by left.
Qed.

(** X17. [sendResults] never writes the queue file and never takes
    anything back from the ledger: in both managers and however the call
    ends, the queue file is as it was and the ledger holds its earlier
    content, followed by what the call appended. *)
Theorem sendResults_appends_to_ledger_only
    (m : manager) (limit : Z) (e : Env) (w : World) :
  file (snd (sendResultsWith m limit e w)) Todo = file w Todo
  /\ exists tail,
       content (snd (sendResultsWith m limit e w)) Sent = content w Sent ++ tail.
Proof.
  destruct (sendResultsWith m limit e w) as [o w'] eqn:Hrun.
  apply sendResults_frame in Hrun as (Ht & Hs & _). done.
Qed.

(** X18. [sendResults] stops at the first batch that is not
    acknowledged: in both managers and in every run, the batches posted
    by the call are acknowledged, except at most the last one, and a call
    whose last batch is not acknowledged returns [false]. *)
Theorem sendResults_stops_at_first_rejection
    (m : manager) (limit : Z) (e : Env) (w : World) :
  exists accepted rejected,
    posted (snd (sendResultsWith m limit e w)) = posted w ++ accepted ++ rejected
    /\ acked (snd (sendResultsWith m limit e w)) = acked w ++ accepted
    /\ (rejected = []
        \/ exists c, rejected = [c]
             /\ fst (sendResultsWith m limit e w) = Return false).
Proof.
  destruct (sendResultsWith m limit e w) as [o w'] eqn:Hrun.
  apply sendResults_frame in Hrun as (_ & _ & Hpost). done.
Qed.

Lemma no_record_run (m : manager) (limit : Z) (e : Env) (w : World) :
  found m w = [] ->
  unlocked e w (locksOf m) ->
  readable e ->
  (m = TFmanager -> is_Some (file w Todo)) ->
  exists w',
    sendResultsWith m limit e w = (Return true, w')
    /\ posted w' = posted w /\ acked w' = acked w /\ logged w' = logged w
    /\ (forall f, content w' f = content w f)
    /\ is_Some (file w' Res) /\ is_Some (file w' Sent).
Proof.
  intros Hnone Hfree Hread Htodo.
  destruct (lockFile_unlocked e w (locksOf m) (locks_NoDup m) Hfree)
    as (w0 & Hlock & Hf & Hp & Ha & Hl).
  assert (Hc0 : forall f, content w0 f = content w f)
    by (intros f; unfold content; by rewrite Hf).
  pose proof (create_frame w0 Res) as (Hp1 & Ha1 & _ & Hl1).
  pose proof (create_frame (create w0 Res) Sent) as (Hp2 & Ha2 & _ & Hl2).
  destruct m; simpl in *.
  - unfold TF.sendResults_with, TF.prepare. rewrite Hlock. unfold TF.opened.
    destruct (Hread Todo) as [-> ->]. destruct (Hread Res) as [-> ->].
    destruct (Hread Sent) as [-> _]. rewrite Hf.
    destruct (Htodo eq_refl) as [q ->]. simpl isSome. cbn [negb orb].
    rewrite !content_create_same, Hc0.
    unfold found in Hnone. simpl in Hnone. rewrite Hnone. simpl nonEmpty.
    cbv iota. eexists. split; [reflexivity|].
    destruct (unlockFile_frame e TF.locks (create (create w0 Res) Sent))
      as (_ & -> & -> & ->).
    destruct (unlockFile_frame e TF.locks (create (create w0 Res) Sent)) as (-> & _).
    rewrite Hp2, Hp1, Ha2, Ha1, Hl2, Hl1. split_and!; try done.
    + intros f. by rewrite content_unlockFile, !content_create_same.
    + rewrite file_create_same, content_create by done. eauto.
    + rewrite content_create. eauto.
  - unfold LL.sendResults_with, LL.prepare. rewrite Hlock. unfold LL.opened.
    destruct (Hread Res) as [-> ->]. destruct (Hread Sent) as [-> _].
    rewrite !content_create_same, Hc0.
    unfold found in Hnone. simpl in Hnone. rewrite Hnone. simpl nonEmpty.
    cbv iota. eexists. split; [reflexivity|].
    destruct (unlockFile_frame e LL.locks (create (create w0 Res) Sent))
      as (_ & -> & -> & ->).
    destruct (unlockFile_frame e LL.locks (create (create w0 Res) Sent)) as (-> & _).
    rewrite Hp2, Hp1, Ha2, Ha1, Hl2, Hl1. split_and!; try done.
    + intros f. by rewrite content_unlockFile, !content_create_same.
    + rewrite file_create_same, content_create by done. eauto.
    + rewrite content_create. eauto.
Qed.

(** X19. When the results file holds no result record, [sendResults]
    has nothing to do and says so: with the locks free and the files
    readable (and, in TFmanager, the queue file in place), the call
    returns [true], posts nothing, writes nothing to the log, and every
    file has the content it had: lines that are not records stay in the
    results file. The results file and the ledger exist afterwards; they
    are created, empty, when they did not exist. *)
Theorem no_record_nothing_done
    (m : manager) (limit : Z) (e : Env) (w : World) :
  found m w = [] ->
  unlocked e w (locksOf m) ->
  readable e ->
  (m = TFmanager -> is_Some (file w Todo)) ->
  exists w',
    sendResultsWith m limit e w = (Return true, w')
    /\ posted w' = posted w /\ acked w' = acked w /\ logged w' = logged w
    /\ (forall f, content w' f = content w f)
    /\ is_Some (file w' Res) /\ is_Some (file w' Sent).
Proof.
  intros Hnone Hfree Hread Htodo.
  destruct (no_record_run m limit e w Hnone Hfree Hread Htodo) as (w' & H).
  by exists w'.
Qed.

Lemma no_record_witness :
  exists w',
    sendResultsWith TFmanager sendlimit okEnv noRecord = (Return true, w')
    /\ posted w' = posted noRecord /\ acked w' = acked noRecord
    /\ logged w' = logged noRecord
    /\ (forall f, content w' f = content noRecord f)
    /\ is_Some (file w' Res) /\ is_Some (file w' Sent).
Proof.
  apply (no_record_nothing_done TFmanager sendlimit okEnv noRecord).
  - vm_compute. reflexivity.
  - intros f _. split; reflexivity.
  - intros f. split; reflexivity.
  - intros _. simpl. eauto.
Defined.

Lemma TF_no_queue_file limit e w :
  file w Todo = None ->
  exists w',
    TF.sendResults_with limit e w = (Return false, w')
    /\ posted w' = posted w /\ forall f, file w' f = file w f.
Proof.
  intros Hnone. unfold TF.sendResults_with, TF.prepare.
  destruct (lockFile e w TF.locks) as [[] w0] eqn:Hlock;
    apply lockFile_frame in Hlock as (Hf & Hp & _).
  - unfold TF.opened. rewrite Hf, Hnone. simpl isSome.
    rewrite orb_true_r. eexists. split; [reflexivity|].
    destruct (unlockFile_frame e TF.locks (addLog w0 (LogOpenError Todo)))
      as (-> & -> & _).
    simpl. by rewrite Hf, Hp.
  - eexists. split; [reflexivity|]. simpl. by rewrite Hf, Hp.
Qed.

(** X20. TFmanager's [sendResults] does not create the queue file: when
    worktodo.txt does not exist the call returns [false], posts nothing
    and leaves every file as it was (results.txt and the ledger are not
    created either). In [main] the call comes after a [topoff] that
    returned [true], and such a [topoff] leaves the queue file in
    place. *)
Theorem TF_sendResults_needs_queue_file
    (sett : settings) (limit : Z) (e : Env) (dev : device) (w : World) :
  (file w Todo = None ->
   exists w',
     TF.sendResults_with limit e w = (Return false, w')
     /\ posted w' = posted w /\ forall f, file w' f = file w f)
  /\ (forall w1, TF.topoff sett e dev w = (true, w1) -> is_Some (file w1 Todo)).
Proof.
  split; [apply TF_no_queue_file|].
  intros w1 Hrun.
  apply TF_topoff_cases in Hrun as (_ & _ & _ & _ & [[_ Hok]|(_ & Hw)]).
  - destruct (Hok eq_refl) as (_ & _ & _ & _ & -> & _). eauto.
  - destruct Hw as (new & k & err & _ & _ & -> & _). eauto.
Qed.

Lemma needs_queue_file_witness :
  exists w',
    TF.sendResults_with sendlimit okEnv
      (world0 None (Some (B "no factor for M12345 from 2^70 to 2^71" ++ [nl])))
    = (Return false, w')
    /\ posted w' = []
    /\ forall f, file w' f
         = file (world0 None (Some (B "no factor for M12345 from 2^70 to 2^71"
                                     ++ [nl]))) f.
Proof.
  apply (proj1 (TF_sendResults_needs_queue_file gpu72Only sendlimit okEnv
                  (mkDevice 5 73)
                  (world0 None (Some (B "no factor for M12345 from 2^70 to 2^71"
                                        ++ [nl]))))).
  reflexivity.
Defined.

(** ** A run that goes through *)

Lemma content_lock e w fnames b w0 f :
  lockFile e w fnames = (b, w0) -> content w0 f = content w f.
Proof.
  intros H. apply lockFile_frame in H as (Hf & _). unfold content. by rewrite Hf.
Qed.

Lemma nonEmpty_ne {A} (l : list A) : l <> [] -> nonEmpty l = true.
Proof. by destruct l. Qed.

(** With the locks free and the files readable, the clLucas manager's
    [sendResults] reaches its loop when the results file holds a
    record. *)
Lemma LL_prepare_ok e w :
  unlocked e w LL.locks -> readable e -> found LLmanager w <> [] ->
  exists w1, LL.prepare e w = Ready w1 [] (found LLmanager w).
Proof.
  intros Hfree Hread Hne.
  destruct (lockFile_unlocked e w LL.locks (locks_NoDup LLmanager) Hfree)
    as (w0 & Hlock & Hf & _).
  unfold LL.prepare. rewrite Hlock. unfold LL.opened.
  destruct (Hread Res) as [-> ->]. destruct (Hread Sent) as [-> _].
  rewrite content_create_same.
  replace (content w0 Res) with (content w Res)
    by (unfold content; by rewrite Hf).
  unfold found in *. simpl in *. rewrite nonEmpty_ne by done. eauto.
Qed.

(** The same for TFmanager, whose queue file must be in place; the
    records go to "keep" or to "send" by their keys. *)
Lemma TF_prepare_ok e w :
  unlocked e w TF.locks -> readable e -> is_Some (file w Todo) ->
  found TFmanager w <> [] ->
  exists w1,
    TF.prepare e w
    = Ready w1 (List.filter (TF.inQueue (content w Todo)) (found TFmanager w))
        (List.filter (fun r => negb (TF.inQueue (content w Todo) r))
           (found TFmanager w)).
Proof.
  intros Hfree Hread [q Hq] Hne.
  destruct (lockFile_unlocked e w TF.locks (locks_NoDup TFmanager) Hfree)
    as (w0 & Hlock & Hf & _).
  unfold TF.prepare. rewrite Hlock. unfold TF.opened.
  destruct (Hread Todo) as [-> ->]. destruct (Hread Res) as [-> ->].
  destruct (Hread Sent) as [-> _]. rewrite Hf, Hq. simpl isSome. cbn [negb orb].
  rewrite !content_create_same.
  replace (content w0 Res) with (content w Res)
    by (unfold content; by rewrite Hf).
  replace (content w0 Todo) with (content w Todo)
    by (unfold content; by rewrite Hf).
  unfold found in *. simpl in *. rewrite nonEmpty_ne by done.
  rewrite TF_filterResults_spec by apply TF_FindAll_match.
  rewrite (filter_ext _ _ (inQueue_Replace1 (content w Todo))).
  rewrite (filter_ext (fun r => negb (TF.inQueue (Replace1 (content w Todo) cr nl) r))
             (fun r => negb (TF.inQueue (content w Todo) r)))
    by (intros r; by rewrite inQueue_Replace1).
  eauto.
Qed.


Lemma TF_prepare_ok' e w :
  unlocked e w TF.locks -> readable e -> is_Some (file w Todo) ->
  found TFmanager w <> [] ->
  exists w1, TF.prepare e w = Ready w1 (retained w) (submitted w).
Proof. apply TF_prepare_ok. Qed.





Lemma TF_Match_nil : TF.resultReg_Match [] = false.
Proof. reflexivity. Qed.






Lemma unlocked_after m limit e w w1 o :
  sendResultsWith m limit e w = (o, w1) ->
  releasing e (locksOf m) ->
  unlocked e w (locksOf m) -> unlocked e w1 (locksOf m).
Proof.
  intros Hrun Hrel Hfree f Hf.
  destruct (lck_sendResults m limit e w f) as (_ & _ & H).
  rewrite Hrun in H. cbn [snd] in H. rewrite (H (Hrel f Hf)). by apply Hfree.
Qed.



(** ** A ledger that cannot be written *)

Lemma blobOf_two recs :
  Forall isRecord recs -> recs <> [] -> 2 <= len (blobOf recs).
Proof.
  intros Hrecs Hne. unfold blobOf.
  destruct (list.last recs) as [r|] eqn:Hlast; [|by apply last_None in Hlast].
  destruct (Join_last recs [nl] r Hlast) as [Q ->].
  assert (Hr : isRecord r).
  { rewrite list.Forall_forall in Hrecs. apply Hrecs.
    apply last_Some in Hlast as [l' ->]. apply elem_of_app. right. by left. }
  destruct Hr as (Hnl & pre & x & y & post & -> & Hx & Hy).
  replace (Q ++ pre ++ x :: y :: post) with ((Q ++ pre ++ [x]) ++ y :: post)
    by (by rewrite <- !app_assoc).
  rewrite TrimRight_keeps by done.
  rewrite !len_app. unfold len. simpl. lia.
Qed.

(** An iteration in which the batch is acknowledged and the ledger
    refuses the write. *)
Lemma loop_step_refused limit e w results i :
  ledgerRefused e ->
  i < len results - 1 -> 0 < nextLoc limit results i ->
  loop_step limit e w results i
  = Fail LedgerWriteFailed
      (addLog
         (setFile
            (mkWorld (file w) (lck w)
               (posted w ++ [slice results i (i + nextLoc limit results i)])
               (acked w ++ [slice results i (i + nextLoc limit results i)])
               (logged w))
            Sent (content w Sent))
         LogSentWriteError).
Proof.
  intros [Hack Hwr] Hc Hloc. rewrite loop_step_eq.
  assert (E1 : (i <? len results - 1) = true) by (by apply Z.ltb_lt).
  assert (E2 : (nextLoc limit results i <=? 0) = false) by (apply Z.leb_gt; lia).
  rewrite E1. cbv zeta. rewrite E2.
  set (c := slice results i (i + nextLoc limit results i)).
  unfold sendbatch. destruct (Hack (posted w) c) as (body & -> & ->).
  cbn [negb]. unfold sentWrite.
  match goal with
  | |- context [sent_Write e ?a ?b] =>
      destruct (Hwr a b) as [Hw1 Hw2]; rewrite Hw1, Hw2
  end.
  rewrite reached_failed by (by left).
  cbn [orb Nat.min written take].
  unfold content. simpl. by rewrite app_nil_r.
Qed.

(** A call whose first batch is acknowledged but not logged. *)
Lemma run_refused m limit e w w0 keep send :
  prepareOf m e w = Ready w0 keep send ->
  send <> [] -> Forall (fun r => len r < limit) send ->
  ledgerRefused e ->
  exists w',
    sendResultsWith m limit e w = (Return false, w')
    /\ posted w' = posted w
                   ++ [slice (blobOf send) 0 (0 + nextLoc limit (blobOf send) 0)]
    /\ acked w' = acked w
                  ++ [slice (blobOf send) 0 (0 + nextLoc limit (blobOf send) 0)]
    /\ (forall f, content w' f = content w f)
    /\ file w' Todo = file w Todo.
Proof.
  intros Hprep Hne Hfit Href.
  pose proof (prepare_Ready_todo _ _ _ _ _ _ Hprep) as Ht0.
  destruct (prepare_Ready _ _ _ _ _ _ Hprep) as (HR & _ & HS & HP & HA & Hrec).
  pose proof (blobOf_two send Hrec Hne) as Htwo.
  assert (Hloc : 0 < nextLoc limit (blobOf send) 0).
  { destruct (Z.lt_ge_cases 0 (nextLoc limit (blobOf send) 0)) as [|Hle]; [done|].
    exfalso.
    assert (Hfail : loop_step limit e w0 (blobOf send) 0
                    = Fail LocError
                        (addLog w0 (LogLocError (nextLoc limit (blobOf send) 0) 0
                                      (len (slice_from (blobOf send) 0))))).
    { rewrite loop_step_eq.
      assert (E1 : (0 <? len (blobOf send) - 1) = true) by (apply Z.ltb_lt; lia).
      assert (E2 : (nextLoc limit (blobOf send) 0 <=? 0) = true)
        by (apply Z.leb_le; lia).
      rewrite E1. cbv zeta. by rewrite E2. }
    eapply (loop_step_finds_newline limit e w0 send [] 0); try done.
    apply chunked_nil. }
  pose proof (loop_step_refused limit e w0 (blobOf send) 0 Href ltac:(lia) Hloc)
    as Hstep.
  rewrite (sendResultsWith_Ready _ _ _ _ _ _ _ Hprep).
  rewrite (sendLoop_fails _ _ _ _ _ _ _ _ (iterates_here _ _ _ _ _) Hstep).
  eexists. split; [reflexivity|].
  match goal with
  | |- context [unlockFile e ?x (locksOf m)] =>
      destruct (unlockFile_frame e (locksOf m) x) as (Hf & -> & -> & _);
      rewrite Hf; split; [|split; [|split]];
      [| |intros f; rewrite content_unlockFile|]
  end; simpl.
  - by rewrite HP.
  - by rewrite HA.
  - unfold content. simpl. destruct (decide (f = Sent)) as [->|Hn].
    + rewrite HS. done.
    + destruct f; [by rewrite Ht0|by rewrite HR|done].
  - done.
Qed.

Lemma toSend_ext m w w1 :
  (forall f, content w1 f = content w f) -> toSend m w1 = toSend m w.
Proof.
  intros Hc. destruct m; simpl; unfold submitted, found; by rewrite !Hc.
Qed.

Lemma found_toSend m w : toSend m w <> [] -> found m w <> [].
Proof.
  destruct m; cbn [toSend]; [|done]. unfold submitted. intros H Hnil.
  by rewrite Hnil in H.
Qed.

(** Either manager's [sendResults] reaches its loop with [toSend]. *)
Lemma prepare_ok m e w :
  unlocked e w (locksOf m) -> readable e ->
  (m = TFmanager -> is_Some (file w Todo)) ->
  toSend m w <> [] ->
  exists w0 keep, prepareOf m e w = Ready w0 keep (toSend m w).
Proof.
  intros Hfree Hread Htodo Hne. pose proof (found_toSend _ _ Hne) as Hf.
  destruct m; cbn [toSend prepareOf locksOf] in *.
  - destruct (TF_prepare_ok e w Hfree Hread (Htodo eq_refl) Hf) as (w0 & H).
    by exists w0, (retained w).
  - destruct (LL_prepare_ok e w Hfree Hread Hf) as (w0 & H). by exists w0, [].
Qed.



(** X24. A batch that the service acknowledges but that cannot be written
    to the ledger is posted again by the next call. With the locks free
    and removed again after the call, the files readable, records to
    submit that fit the ceiling, a service that acknowledges and a ledger
    that refuses every write, a call posts one batch, has it
    acknowledged, returns [false] and leaves the content of every file as
    it was; the call that follows does the same, with the same batch. *)
Theorem unlogged_batch_is_posted_again
    (m : manager) (limit : Z) (e : Env) (w : World) :
  unlocked e w (locksOf m) -> releasing e (locksOf m) -> readable e ->
  (m = TFmanager -> is_Some (file w Todo)) ->
  toSend m w <> [] ->
  Forall (fun r => len r < limit) (toSend m w) ->
  ledgerRefused e ->
  exists c w1 w2,
    sendResultsWith m limit e w = (Return false, w1)
    /\ posted w1 = posted w ++ [c] /\ acked w1 = acked w ++ [c]
    /\ (forall f, content w1 f = content w f)
    /\ sendResultsWith m limit e w1 = (Return false, w2)
    /\ posted w2 = posted w ++ [c; c] /\ acked w2 = acked w ++ [c; c]
    /\ (forall f, content w2 f = content w f).
Proof.
  intros Hfree Hrel Hread Htodo Hne Hfit Href.
  destruct (prepare_ok m e w Hfree Hread Htodo Hne) as (w0 & keep & Hprep).
  destruct (run_refused m limit e w w0 keep _ Hprep Hne Hfit Href)
    as (w1 & Hrun1 & HP1 & HA1 & Hc1 & Ht1).
  pose proof (unlocked_after _ _ _ _ _ _ Hrun1 Hrel Hfree) as Hfree1.
  assert (Htodo1 : m = TFmanager -> is_Some (file w1 Todo)).
  { intros Hm. rewrite Ht1. by apply Htodo. }
  pose proof (toSend_ext m w w1 Hc1) as Hsame.
  destruct (prepare_ok m e w1 Hfree1 Hread Htodo1) as (w0' & keep' & Hprep1);
    [by rewrite Hsame|].
  rewrite Hsame in Hprep1.
  destruct (run_refused m limit e w1 w0' keep' _ Hprep1 Hne Hfit Href)
    as (w2 & Hrun2 & HP2 & HA2 & Hc2 & _).
  exists (slice (blobOf (toSend m w)) 0 (0 + nextLoc limit (blobOf (toSend m w)) 0)),
    w1, w2.
  rewrite HP2, HA2, HP1, HA1, <- !app_assoc. split_and!; try done.
  intros f. by rewrite Hc2.
Qed.

Lemma unlogged_batch_witness :
  exists c w1 w2,
    sendResultsWith LLmanager sendlimit refusedEnv lucasRecord = (Return false, w1)
    /\ posted w1 = posted lucasRecord ++ [c]
    /\ acked w1 = acked lucasRecord ++ [c]
    /\ (forall f, content w1 f = content lucasRecord f)
    /\ sendResultsWith LLmanager sendlimit refusedEnv w1 = (Return false, w2)
    /\ posted w2 = posted lucasRecord ++ [c; c]
    /\ acked w2 = acked lucasRecord ++ [c; c]
    /\ (forall f, content w2 f = content lucasRecord f).
Proof.
  apply (unlogged_batch_is_posted_again LLmanager sendlimit refusedEnv lucasRecord).
  - intros f _. split; reflexivity.
  - intros f _. reflexivity.
  - intros f. split; reflexivity.
  - discriminate.
  - vm_compute. discriminate.
  - repeat constructor.
  - split.
    + intros earlier p. eexists. split; [reflexivity|vm_compute; reflexivity].
    + intros ledger p. split; reflexivity.
Defined.
